(** * eevan-analysis: the statistical pipeline of [src/App.tsx]

    A shallow embedding of the statistics utilities (mean, std,
    shapiroWilkTest, normalCDF, pairedTTest, cohensD, wilcoxonSignedRank,
    spearmanCorrelation, chiSquareTest) and of the derivations built on them
    in the [App] component (processedData, stats, shapiro, mainTest).

    The TypeScript code computes on JavaScript numbers.  The functions are
    written once, over an interface [JSNumber] of the operations the source
    uses, and read at two instances:

    - [FloatNum]: IEEE-754 binary64, the numbers JavaScript really has
      (Rocq's primitive floats); every definition evaluates on it, bit for
      bit, except [Math.exp], which ECMAScript leaves to the implementation
      and which is therefore a parameter of the instance;
    - [IdealNum]: exact real arithmetic with the special values NaN and
      +/-Infinity, the reading under which algebraic statements about the
      formulas ("for every real input ...") are proved. *)

From Stdlib Require Import String Ascii.
From Stdlib Require Import Uint63 Floats ZArith List Bool Reals Lra Lia Psatz.
From Stdlib Require Import Permutation Sorted.
Import ListNotations.

Set Implicit Arguments.

(** ** The number interface *)

Class JSNumber (F : Type) : Type := {
  jnan : F;                       (* NaN, also what [undefined] becomes in arithmetic *)
  ofZ : Z -> F;                   (* an integer literal or an array length *)
  jadd : F -> F -> F;
  jsub : F -> F -> F;
  jmul : F -> F -> F;
  jdiv : F -> F -> F;
  jneg : F -> F;
  jsqrt : F -> F;                 (* Math.sqrt *)
  jabs : F -> F;                  (* Math.abs *)
  jexp : F -> F;                  (* Math.exp *)
  jltb : F -> F -> bool;          (* a < b *)
  jleb : F -> F -> bool           (* a <= b *)
}.

Declare Scope js_scope.
Delimit Scope js_scope with js.
Infix "+" := jadd : js_scope.
Infix "-" := jsub : js_scope.
Infix "*" := jmul : js_scope.
Infix "/" := jdiv : js_scope.
Notation "- x" := (jneg x) : js_scope.
Infix "<?" := jltb : js_scope.
Infix "<=?" := jleb : js_scope.
Notation "a >? b" := (jltb b a) : js_scope.
Notation "a >=? b" := (jleb b a) : js_scope.

(** ** IEEE-754 binary64 *)

Definition float_ofZ (z : Z) : float :=
  match z with
  | Z0 => PrimFloat.of_uint63 0%uint63
  | Zpos _ => PrimFloat.of_uint63 (Uint63.of_Z z)
  | Zneg p => PrimFloat.opp (PrimFloat.of_uint63 (Uint63.of_Z (Zpos p)))
  end.

Definition FloatNum (fexp : float -> float) : JSNumber float := {|
  jnan := PrimFloat.nan;
  ofZ := float_ofZ;
  jadd := PrimFloat.add;
  jsub := PrimFloat.sub;
  jmul := PrimFloat.mul;
  jdiv := PrimFloat.div;
  jneg := PrimFloat.opp;
  jsqrt := PrimFloat.sqrt;
  jabs := PrimFloat.abs;
  jexp := fexp;
  jltb := PrimFloat.ltb;
  jleb := PrimFloat.leb
|}.

(** A stand-in for [Math.exp] on binary64, which ECMAScript only asks to
    approximate e^x: the argument is halved twelve times, the degree-12
    Taylor polynomial is evaluated there, and the value is squared twelve
    times (about twelve correct digits).  NaN passes through the
    arithmetic; the guards cover underflow and overflow. *)
Definition float_exp (x : float) : float :=
  let c (z : Z) := float_ofZ z in
  if PrimFloat.ltb x (c (-746)%Z) then c 0%Z
  else if PrimFloat.ltb (c 710%Z) x then PrimFloat.div (c 1%Z) (c 0%Z)
  else
    let y := PrimFloat.div x (c 4096%Z) in
    let taylor :=
      fold_right
        (fun k acc => PrimFloat.add (c 1%Z) (PrimFloat.div (PrimFloat.mul y acc) (c k)))
        (c 1%Z) [1; 2; 3; 4; 5; 6; 7; 8; 9; 10; 11; 12]%Z in
    fold_right (fun _ acc => PrimFloat.mul acc acc) taylor (seq 0 12).

(** The instance the concrete evaluations are stated on. *)
Definition Float64 : JSNumber float := FloatNum float_exp.

(** ** Exact reals with NaN and the infinities *)

Inductive ideal : Type :=
| INaN : ideal
| IInf (negative : bool) : ideal
| IFin (r : R) : ideal.

Definition Rltb (a b : R) : bool := if Rlt_dec a b then true else false.
Definition Rleb (a b : R) : bool := if Rle_dec a b then true else false.
Definition Rzerob (a : R) : bool := if Req_EM_T a 0 then true else false.

Definition ideal_add (x y : ideal) : ideal :=
  match x, y with
  | INaN, _ | _, INaN => INaN
  | IInf s, IInf s' => if Bool.eqb s s' then IInf s else INaN
  | IInf s, IFin _ | IFin _, IInf s => IInf s
  | IFin a, IFin b => IFin (a + b)
  end.

Definition ideal_neg (x : ideal) : ideal :=
  match x with
  | INaN => INaN
  | IInf s => IInf (negb s)
  | IFin a => IFin (- a)
  end.

Definition ideal_sub (x y : ideal) : ideal := ideal_add x (ideal_neg y).

Definition ideal_mul (x y : ideal) : ideal :=
  match x, y with
  | INaN, _ | _, INaN => INaN
  | IInf s, IInf s' => IInf (xorb s s')
  | IInf s, IFin a | IFin a, IInf s =>
      if Rzerob a then INaN else IInf (xorb s (Rltb a 0))
  | IFin a, IFin b => IFin (a * b)
  end.

Definition ideal_div (x y : ideal) : ideal :=
  match x, y with
  | INaN, _ | _, INaN => INaN
  | IInf _, IInf _ => INaN
  | IInf s, IFin b => IInf (xorb s (Rltb b 0))
  | IFin _, IInf _ => IFin 0
  | IFin a, IFin b =>
      if Rzerob b then (if Rzerob a then INaN else IInf (Rltb a 0))
      else IFin (a / b)
  end.

Definition ideal_sqrt (x : ideal) : ideal :=
  match x with
  | INaN => INaN
  | IInf s => if s then INaN else IInf false
  | IFin a => if Rltb a 0 then INaN else IFin (sqrt a)
  end.

Definition ideal_abs (x : ideal) : ideal :=
  match x with
  | INaN => INaN
  | IInf _ => IInf false
  | IFin a => IFin (Rabs a)
  end.

Definition ideal_exp (x : ideal) : ideal :=
  match x with
  | INaN => INaN
  | IInf s => if s then IFin 0 else IInf false
  | IFin a => IFin (exp a)
  end.

Definition ideal_ltb (x y : ideal) : bool :=
  match x, y with
  | INaN, _ | _, INaN => false
  | IInf s, IInf s' => s && negb s'
  | IInf s, IFin _ => s
  | IFin _, IInf s => negb s
  | IFin a, IFin b => Rltb a b
  end.

Definition ideal_leb (x y : ideal) : bool :=
  match x, y with
  | INaN, _ | _, INaN => false
  | IInf s, IInf s' => s || negb s'
  | IInf s, IFin _ => s
  | IFin _, IInf s => negb s
  | IFin a, IFin b => Rleb a b
  end.

#[export] Instance IdealNum : JSNumber ideal := {|
  jnan := INaN;
  ofZ := fun z => IFin (IZR z);
  jadd := ideal_add;
  jsub := ideal_sub;
  jmul := ideal_mul;
  jdiv := ideal_div;
  jneg := ideal_neg;
  jsqrt := ideal_sqrt;
  jabs := ideal_abs;
  jexp := ideal_exp;
  jltb := ideal_ltb;
  jleb := ideal_leb
|}.

(** ** List helpers: the array methods the source uses *)

(** [arr.map((v, i) => f v i)] *)
Fixpoint mapi_from {A B : Type} (f : A -> nat -> B) (i : nat) (l : list A) : list B :=
  match l with
  | [] => []
  | x :: l' => f x i :: mapi_from f (S i) l'
  end.

Definition mapi {A B : Type} (f : A -> nat -> B) (l : list A) : list B :=
  mapi_from f 0 l.

(** [Array.from(new Set(l))]: the distinct elements, in order of first
    occurrence. *)
Definition distinct {A : Type} (eqb : A -> A -> bool) (l : list A) : list A :=
  fold_left (fun acc x => if existsb (eqb x) acc then acc else acc ++ [x]) l [].

(** ** Statistics utilities *)

Section Stats.

Context {F : Type} {num : JSNumber F}.
Local Open Scope js_scope.

Definition zero : F := ofZ 0.
Definition one : F := ofZ 1.
Definition two : F := ofZ 2.

(** A decimal literal [m]e-[k]: the number nearest to m / 10^k (the
    quotient of two exactly representable integers is rounded once). *)
Definition lit (m : Z) (k : nat) : F := ofZ m / ofZ (10 ^ Z.of_nat k).

(** [arr.length] as a number. *)
Definition len {A : Type} (l : list A) : F := ofZ (Z.of_nat (length l)).

(** [arr[i]] in an arithmetic context: out of range is [undefined], which
    arithmetic turns into NaN. *)
Definition get (l : list F) (i : nat) : F := nth i l jnan.

(** [x ** 2] *)
Definition sq (x : F) : F := x * x.

(** [arr.sort(cmp)]: the standard requires a stable sort; the comparator
    returns a number, and an element moves behind another only when the
    comparator is positive. *)
Fixpoint insert_by {A : Type} (cmp : A -> A -> F) (x : A) (l : list A) : list A :=
  match l with
  | [] => [x]
  | y :: l' => if cmp x y >? zero then y :: insert_by cmp x l' else x :: l
  end.

Definition sort_by {A : Type} (cmp : A -> A -> F) (l : list A) : list A :=
  fold_right (insert_by cmp) [] l.

(** [arr.reduce((s, v) => s + (v - m) ** 2, 0)] *)
Definition sumsq_dev (m : F) (arr : list F) : F :=
  fold_left (fun s v => s + sq (v - m)) arr zero.

Definition mean (arr : list F) : F :=
  fold_left (fun s v => s + v) arr zero / len arr.

Definition std (arr : list F) : F :=
  let m := mean arr in
  jsqrt (sumsq_dev m arr / (len arr - one)).

(** *** Shapiro-Wilk, approximate *)

Record ShapiroResult : Type := { sw_W : F; sw_p : F }.

Definition shapiro_a : list F :=
  [lit 5739 4; lit 3291 4; lit 2141 4; lit 1224 4; lit 399 4].

(** The p-value ladder of [shapiroWilkTest]. *)
Definition shapiro_p (W : F) : F :=
  if W >? lit 95 2 then lit 7 1
  else if W >? lit 90 2 then lit 2 1
  else if W >? lit 85 2 then lit 5 2
  else lit 1 2.

(** The number of tail pairs, [Math.min(5, Math.floor(n / 2))]. *)
Definition shapiro_pairs (n : nat) : nat := Nat.min 5 (n / 2).

Definition shapiro_numerator (sorted : list F) : F :=
  let n := length sorted in
  fold_left
    (fun numerator i =>
       numerator + get shapiro_a i * (get sorted (n - 1 - i) - get sorted i))
    (seq 0 (shapiro_pairs n)) zero.

Definition shapiroWilkTest (data : list F) : ShapiroResult :=
  let sorted := sort_by (fun a b => a - b) data in
  let numerator := shapiro_numerator sorted in
  let m := mean data in
  let denom := jsqrt (sumsq_dev m data) in
  let W := sq (numerator / denom) in
  {| sw_W := W; sw_p := shapiro_p W |}.

(** *** Normal CDF, approximate *)

Definition normalCDF_prob (x : F) : F :=
  let t := one / (one + lit 2316419 7 * jabs x) in
  let d := lit 3989423 7 * jexp (- x * x / two) in
  d * t * (lit 3193815 7 + t * (- lit 3565638 7 + t * (lit 1781478 6
           + t * (- lit 1821256 6 + t * lit 1330274 6)))).

Definition normalCDF (x : F) : F :=
  let prob := normalCDF_prob x in
  if x >=? zero then one - prob else prob.

(** The expression [2 * (1 - normalCDF(s))] both tests end with. *)
Definition two_tailed (s : F) : F := two * (one - normalCDF s).

(** *** Paired t-test and Cohen's d *)

Record TTestResult : Type :=
  { tt_t : F; tt_df : F; tt_p : F; tt_meanDiff : F; tt_sdDiff : F }.

(** [a.map((v, i) => v - b[i])] *)
Definition diffs_of (a b : list F) : list F := mapi (fun v i => v - get b i) a.

Definition pairedTTest (a b : list F) : TTestResult :=
  let diffs := diffs_of a b in
  let n := len diffs in
  let meanDiff := mean diffs in
  let sdDiff := jsqrt (sumsq_dev meanDiff diffs / (n - one)) in
  let t := meanDiff / (sdDiff / jsqrt n) in
  let p := two_tailed (jabs t * jsqrt (n / (n - one))) in
  {| tt_t := t; tt_df := n - one; tt_p := p;
     tt_meanDiff := meanDiff; tt_sdDiff := sdDiff |}.

Definition cohensD (a b : list F) : F :=
  let diffs := diffs_of a b in
  let m := mean diffs in
  let sd := jsqrt (sumsq_dev m diffs / len diffs) in
  m / sd.

(** *** Wilcoxon signed-rank *)

(** An element of [items]: [{ val, sign, idx }]. *)
Record WItem : Type := { it_val : F; it_sign : Z; it_idx : nat }.

(** An item once the ranking loop has written its [rank]. *)
Record WRanked : Type := { it_item : WItem; it_rank : F }.

Record WilcoxonResult : Type := { w_W : F; w_z : F; w_p : F; w_n : nat }.

(** The threshold [1e-10]. *)
Definition eps : F := lit 1 10.

Definition ofnat (n : nat) : F := ofZ (Z.of_nat n).

(** The inner [while]: how far [j] runs from [i], i.e. the number of leading
    items of [rest] whose value is within [1e-10] of [v0] ([rest] starts at
    [items[i]] itself, which the loop tests as well). *)
Fixpoint tie_run (v0 : F) (rest : list WItem) : nat :=
  match rest with
  | [] => O
  | x :: rest' =>
      if jabs (it_val x - v0) <? eps then S (tie_run v0 rest') else O
  end.

(** The ranking [for] loop, on the items from index [i] on.  Every turn
    gives the [j - i] items of the run the average rank and moves on by
    [j - i]; a turn whose run is empty (a value that is not within [1e-10]
    of itself) leaves [i] where it was, and the loop does not end: the fuel
    runs out and the result is [None]. *)
Fixpoint assign_ranks (fuel : nat) (rest : list WItem) (rank : F)
  : option (list WRanked) :=
  match fuel with
  | O => None
  | S fuel' =>
      match rest with
      | [] => Some []
      | it0 :: _ =>
          let run := tie_run (it_val it0) rest in
          let avgRank := (rank + (rank + ofnat run - one)) / two in
          match assign_ranks fuel' (skipn run rest) (rank + ofnat run) with
          | None => None
          | Some tl =>
              Some (map (fun x => {| it_item := x; it_rank := avgRank |})
                        (firstn run rest) ++ tl)
          end
      end
  end.

Definition wilcoxon_items (nonZero : list F) : list WItem :=
  mapi (fun val idx =>
          {| it_val := val;
             it_sign := if get nonZero idx >? zero then 1%Z else (-1)%Z;
             it_idx := idx |})
       (map jabs nonZero).

Definition wilcoxon_z (wPlus : F) (n : nat) : F :=
  let expectedW := ofnat n * (ofnat n + one) / ofZ 4 in
  let varW := ofnat n * (ofnat n + one) * (two * ofnat n + one) / ofZ 24 in
  let correction := lit 5 1 in
  (wPlus - expectedW - (if wPlus >? expectedW then correction else - correction))
  / jsqrt varW.

Definition wilcoxonSignedRank (a b : list F) : option WilcoxonResult :=
  let diffs := diffs_of a b in
  let nonZero := filter (fun d => jabs d >? eps) diffs in
  let n := length nonZero in
  if Nat.eqb n 0 then Some {| w_W := zero; w_z := zero; w_p := one; w_n := O |}
  else
    let items := sort_by (fun x y => it_val x - it_val y) (wilcoxon_items nonZero) in
    match assign_ranks (S n) items one with
    | None => None
    | Some ranked =>
        let wPlus :=
          fold_left (fun s it => s + it_rank it)
                    (filter (fun it => (it_sign (it_item it) >? 0)%Z) ranked) zero in
        let z := wilcoxon_z wPlus n in
        let p := two_tailed (jabs z) in
        Some {| w_W := wPlus; w_z := z; w_p := p; w_n := n |}
    end.

(** *** Spearman rank correlation *)

Definition ranks (arr : list F) : list F :=
  let tagged := mapi (fun v i => (v, i)) arr in
  let byValue := sort_by (fun a b => fst a - fst b) tagged in
  let ranked := mapi (fun d i => (d, ofnat i + one)) byValue in
  let byIndex :=
    sort_by (fun a b => ofnat (snd (fst a)) - ofnat (snd (fst b))) ranked in
  map snd byIndex.

Definition spearmanCorrelation (x y : list F) : F :=
  let rx := ranks x in
  let ry := ranks y in
  let meanRx := mean rx in
  let meanRy := mean ry in
  let cov :=
    fold_left (fun s ri => s + (fst ri - meanRx) * (get ry (snd ri) - meanRy))
              (mapi (fun r i => (r, i)) rx) zero in
  let varx := sumsq_dev meanRx rx in
  let vary := sumsq_dev meanRy ry in
  cov / jsqrt (varx * vary).

(** *** Chi-square goodness of fit *)

Record ChiSquareResult : Type := { chi_chiSq : F; chi_df : F; chi_p : F }.

Definition chi_p_ladder (chiSq : F) : F :=
  if chiSq >? lit 921 2 then lit 1 2
  else if chiSq >? lit 599 2 then lit 5 2
  else if chiSq >? lit 461 2 then lit 1 1
  else lit 2 1.

Definition chiSquareTest (observed expected : list F) : ChiSquareResult :=
  let chiSq :=
    fold_left
      (fun chiSq oi =>
         let e := get expected (snd oi) in
         if e <=? zero then chiSq else chiSq + sq (fst oi - e) / e)
      (mapi (fun o i => (o, i)) observed) zero in
  {| chi_chiSq := chiSq; chi_df := len observed - one; chi_p := chi_p_ladder chiSq |}.

End Stats.

Arguments ShapiroResult : clear implicits.
Arguments TTestResult : clear implicits.
Arguments WItem : clear implicits.
Arguments WRanked : clear implicits.
Arguments WilcoxonResult : clear implicits.
Arguments ChiSquareResult : clear implicits.

(** ** The [App] component: derived data *)

(** [s.toLowerCase()], on ASCII. *)
Definition lower_ascii (c : ascii) : ascii :=
  let n := nat_of_ascii c in
  if (65 <=? n)%nat && (n <=? 90)%nat then ascii_of_nat (n + 32) else c.

Fixpoint toLowerCase (s : string) : string :=
  match s with
  | EmptyString => EmptyString
  | String c s' => String (lower_ascii c) (toLowerCase s')
  end.

(** [s.includes(sub)] *)
Fixpoint includes (s sub : string) : bool :=
  String.prefix sub s
  || match s with
     | EmptyString => false
     | String _ s' => includes s' sub
     end.

(** A value that may be [null]. *)
Inductive nullable (A : Type) : Type :=
| null : nullable A
| value (a : A) : nullable A.
Arguments null {A}.

Section App.

Context {F : Type} {num : JSNumber F}.
Local Open Scope string_scope.
Local Open Scope js_scope.

(** A row of [raw_norm_grouped.csv]: the participant and condition it
    belongs to ([r.Participant || r.participant], [r.Condition ||
    r.condition]) and its numeric cells by column name. *)
Record TrialRow : Type :=
  { row_participant : string; row_condition : string;
    row_cells : list (string * F) }.

(** [r[col]], [undefined] when the row has no such column. *)
Fixpoint lookup {A : Type} (cells : list (string * A)) (col : string) : option A :=
  match cells with
  | [] => None
  | (k, v) :: cells' => if String.eqb k col then Some v else lookup cells' col
  end.

(** [col in r] *)
Definition has_col (r : TrialRow) (col : string) : bool :=
  match lookup (row_cells r) col with Some _ => true | None => false end.

(** [r[col] ?? r[col.toLowerCase()] ?? 0] *)
Definition cell_or_zero (r : TrialRow) (col : string) : F :=
  match lookup (row_cells r) col with
  | Some v => v
  | None =>
      match lookup (row_cells r) (toLowerCase col) with
      | Some v => v
      | None => zero
      end
  end.

Definition avg (rows : list TrialRow) (col : string) : F :=
  fold_left (fun s r => s + cell_or_zero r col) rows zero / len rows.

Fixpoint getCol_loop (row0 : TrialRow) (names : list string) (first : string) : string :=
  match names with
  | [] => first
  | n :: names' =>
      if has_col row0 n then n
      else if has_col row0 (toLowerCase n) then toLowerCase n
      else getCol_loop row0 names' first
  end.

Definition getCol (row0 : TrialRow) (names : list string) : string :=
  getCol_loop row0 names (hd "" names).

(** [a || b] on numbers: [0] and NaN are falsy. *)
Definition truthy (x : F) : bool := (x <? zero) || (zero <? x).
Definition jor (a b : F) : F := if truthy a then a else b.

Record Normalized : Type :=
  { angry : F; disgusted : F; fearful : F; happy : F;
    neutral : F; sad : F; surprised : F }.

(** What the row object holds for one condition [c]: [row[c]],
    [row[c + "_normalized"]], and, where the code sets them,
    [row[c + "_scaleFactor"]] and [row[c + "_totalSum"]]. *)
Record CondEntry : Type :=
  { ce_value : F; ce_normalized : Normalized;
    ce_scaleFactor : option F; ce_totalSum : option F }.

Definition nonNeutralPercent (n : Normalized) : F :=
  let nonNeutralSeconds :=
    angry n + disgusted n + fearful n + happy n + sad n + surprised n in
  nonNeutralSeconds / ofZ 120 * ofZ 100.

(** The body of [conditions.forEach] for the rows of one participant and
    condition. *)
Definition aggregate (rows : list TrialRow) : CondEntry :=
  match rows with
  | [] =>
      {| ce_value := zero;
         ce_normalized :=
           {| angry := zero; disgusted := zero; fearful := zero; happy := zero;
              neutral := zero; sad := zero; surprised := zero |};
         ce_scaleFactor := Some one; ce_totalSum := Some zero |}
  | row0 :: _ =>
      let hasNorm :=
        has_col row0 "Angry (seconds)_norm" || has_col row0 "Angry_norm"
        || has_col row0 "angry" in
      if hasNorm then
        let col a b c := getCol row0 [a; b; c] in
        let normalized :=
          {| angry := avg rows (col "Angry (seconds)_norm" "Angry_norm" "angry");
             disgusted := avg rows (col "Disgusted (seconds)_norm" "Disgusted_norm" "disgusted");
             fearful := avg rows (col "Fearful (seconds)_norm" "Fearful_norm" "fearful");
             happy := avg rows (col "Happy (seconds)_norm" "Happy_norm" "happy");
             neutral := avg rows (col "Neutral (seconds)_norm" "Neutral_norm" "neutral");
             sad := avg rows (col "Sad (seconds)_norm" "Sad_norm" "sad");
             surprised := avg rows (col "Surprised (seconds)_norm" "Surprised_norm" "surprised") |} in
        {| ce_value := nonNeutralPercent normalized; ce_normalized := normalized;
           ce_scaleFactor := None; ce_totalSum := None |}
      else
        let raw a b := jor (jor (avg rows a) (avg rows b)) zero in
        let angry_ := raw "Angry" "angry" in
        let disgusted_ := raw "Disgusted" "disgusted" in
        let fearful_ := raw "Fearful" "fearful" in
        let happy_ := raw "Happy" "happy" in
        let neutral_ := raw "Neutral" "neutral" in
        let sad_ := raw "Sad" "sad" in
        let surprised_ := raw "Surprised" "surprised" in
        let total :=
          angry_ + disgusted_ + fearful_ + happy_ + neutral_ + sad_ + surprised_ in
        let scale := if total >? zero then ofZ 120 / total else one in
        let normalized :=
          {| angry := angry_ * scale; disgusted := disgusted_ * scale;
             fearful := fearful_ * scale; happy := happy_ * scale;
             neutral := neutral_ * scale; sad := sad_ * scale;
             surprised := surprised_ * scale |} in
        {| ce_value := nonNeutralPercent normalized; ce_normalized := normalized;
           ce_scaleFactor := Some scale; ce_totalSum := Some total |}
  end.

(** The row object pushed to [results]: the participant, the entries
    written for each condition in turn, and [delta]. *)
Record ProcessedRow : Type :=
  { participant : string; conds : list (string * CondEntry); delta : F }.

(** [row[c]], [undefined] when no condition [c] was written. *)
Definition cond_value (cs : list (string * CondEntry)) (c : string) : option F :=
  option_map ce_value (lookup cs c).

(** [v ?? 0] *)
Definition or_zero (v : option F) : F :=
  match v with Some x => x | None => zero end.

(** [r.C1] and [r.C2] where a number is expected. *)
Definition number_of (v : option F) : F :=
  match v with Some x => x | None => jnan end.
Definition C1 (r : ProcessedRow) : F := number_of (cond_value (conds r) "C1").
Definition C2 (r : ProcessedRow) : F := number_of (cond_value (conds r) "C2").

Definition rows_of (rawGrouped : list TrialRow) (p c : string) : list TrialRow :=
  filter (fun r => String.eqb (row_participant r) p && String.eqb (row_condition r) c)
         rawGrouped.

Definition process_participant (rawGrouped : list TrialRow) (conditions : list string)
    (p : string) : ProcessedRow :=
  let cs := map (fun c => (c, aggregate (rows_of rawGrouped p c))) conditions in
  {| participant := p; conds := cs;
     delta := or_zero (cond_value cs "C1") - or_zero (cond_value cs "C2") |}.

Definition processedData (rawGrouped : option (list TrialRow)) : list ProcessedRow :=
  match rawGrouped with
  | None => []
  | Some raw =>
      let participants := distinct String.eqb (map row_participant raw) in
      let conditions := distinct String.eqb (map row_condition raw) in
      map (process_participant raw conditions) participants
  end.

End App.

Arguments TrialRow : clear implicits.
Arguments Normalized : clear implicits.
Arguments CondEntry : clear implicits.
Arguments ProcessedRow : clear implicits.

Section Report.

Context {F : Type} {num : JSNumber F}.
Local Open Scope string_scope.
Local Open Scope js_scope.

Record Descriptive : Type := { d_mean : F; d_std : F; d_min : F; d_max : F }.

Record Stats : Type :=
  { st_C1 : Descriptive; st_C2 : Descriptive; st_Delta : Descriptive }.

(** A row of [aggregated_non_neutral.csv]: what it holds under the keys
    [Condition] and [condition], where it has them, and its numeric
    cells. *)
Record AggregatedRow : Type :=
  { ag_Condition : option string; ag_condition : option string;
    ag_cells : list (string * F) }.

(** [v || dflt] on a string that may be missing: the empty string is falsy. *)
Definition str_or (v : option string) (dflt : string) : string :=
  match v with
  | Some s => if String.eqb s "" then dflt else s
  | None => dflt
  end.

(** The predicate of [aggregated.find] for the condition [c]:
    [(a.Condition || a.condition || '').toString().includes(c)
     || (a.condition || '').toString().includes(c)]. *)
Definition names_condition (c : string) (a : AggregatedRow) : bool :=
  includes (str_or (ag_Condition a) (str_or (ag_condition a) "")) c
  || includes (str_or (ag_condition a) "") c.

(** [parseFloat(v)] on a number: the number is written out and read back,
    which returns it as it is, except that [-0] is written [0]. *)
Definition parseFloat (v : F) : F :=
  if (v <=? zero) && (zero <=? v) then zero else v.

(** [a[n1] ?? a[n2] ?? ... ?? 0] *)
Fixpoint first_cell (cells : list (string * F)) (names : list string) : F :=
  match names with
  | [] => zero
  | n :: names' =>
      match lookup cells n with
      | Some v => v
      | None => first_cell cells names'
      end
  end.

Definition is_nan (x : F) : bool := negb (x <=? x).
Definition infinity : F := one / zero.

(** [x] is the zero with the sign bit set: a zero whose reciprocal is
    negative. *)
Definition is_neg_zero (x : F) : bool :=
  (x <=? zero) && (zero <=? x) && (one / x <? zero).
Definition is_pos_zero (x : F) : bool :=
  (x <=? zero) && (zero <=? x) && (zero <? one / x).

(** [Math.min(...vals)] and [Math.max(...vals)]: NaN when an argument is
    NaN, [Infinity] and [-Infinity] for no arguments, and [-0] below [+0]. *)
Definition math_min (vals : list F) : F :=
  fold_left (fun m v => if is_nan m || is_nan v then jnan
                        else if v <? m then v
                        else if m <? v then m
                        else if is_neg_zero v then v else m) vals infinity.
Definition math_max (vals : list F) : F :=
  fold_left (fun m v => if is_nan m || is_nan v then jnan
                        else if v >? m then v
                        else if m >? v then m
                        else if is_pos_zero v then v else m) vals (- infinity).

Definition describe (vals : list F) : Descriptive :=
  {| d_mean := mean vals; d_std := std vals;
     d_min := math_min vals; d_max := math_max vals |}.

Definition stats_from_aggregated (aggregated : list AggregatedRow) : option Stats :=
  let c1 := find (names_condition "C1") aggregated in
  let c2 := find (names_condition "C2") aggregated in
  match c1, c2 with
  | Some c1, Some c2 =>
      let C1mean := parseFloat (first_cell (ag_cells c1) ["Mean"; "mean"; "Mean (%)"]) in
      let C2mean := parseFloat (first_cell (ag_cells c2) ["Mean"; "mean"]) in
      let C1sd := parseFloat (first_cell (ag_cells c1) ["SD"; "sd"]) in
      let C2sd := parseFloat (first_cell (ag_cells c2) ["SD"; "sd"]) in
      Some
        {| st_C1 := {| d_mean := C1mean; d_std := C1sd; d_min := jnan; d_max := jnan |};
           st_C2 := {| d_mean := C2mean; d_std := C2sd; d_min := jnan; d_max := jnan |};
           st_Delta := {| d_mean := C1mean - C2mean; d_std := jnan;
                          d_min := jnan; d_max := jnan |} |}
  | _, _ => None
  end.

Definition stats (rows : list (ProcessedRow F)) (aggregated : option (list AggregatedRow))
  : nullable Stats :=
  let early :=
    match rows, aggregated with
    | [], Some agg => stats_from_aggregated agg
    | _, _ => None
    end in
  match early with
  | Some s => value s
  | None =>
      match rows with
      | [] => null
      | _ :: _ =>
          value {| st_C1 := describe (map C1 rows);
                   st_C2 := describe (map C2 rows);
                   st_Delta := describe (map (@delta F) rows) |}
      end
  end.

Definition shapiro (processedData : list (ProcessedRow F)) : nullable (ShapiroResult F) :=
  match processedData with
  | [] => null
  | _ :: _ => value (shapiroWilkTest (map (@delta F) processedData))
  end.

(** The object [mainTest] returns: the [type] tag, the fields of the test
    that ran, and [effectSize]. *)
Inductive MainTest : Type :=
| MainT (t : TTestResult F) (effectSize : F)
| MainWilcoxon (w : WilcoxonResult F) (effectSize : F).

Definition main_type (m : MainTest) : string :=
  match m with MainT _ _ => "t" | MainWilcoxon _ _ => "wilcoxon" end.

Definition effectSize (m : MainTest) : F :=
  match m with MainT _ e => e | MainWilcoxon _ e => e end.

(** [shapiro && shapiro.p > 0.05] *)
Definition normal_enough (sh : nullable (ShapiroResult F)) : bool :=
  match sh with
  | null => false
  | value s => sw_p s >? lit 5 2
  end.

(** [None] when the call of [wilcoxonSignedRank] does not return. *)
Definition mainTest (processedData : list (ProcessedRow F))
  : option (nullable MainTest) :=
  match processedData with
  | [] => Some null
  | _ :: _ =>
      let c1 := map C1 processedData in
      let c2 := map C2 processedData in
      if normal_enough (shapiro processedData) then
        let t := pairedTTest c1 c2 in
        Some (value (MainT t (cohensD c1 c2)))
      else
        match wilcoxonSignedRank c1 c2 with
        | None => None
        | Some w =>
            let r := w_z w / jsqrt (len processedData) in
            Some (value (MainWilcoxon w r))
        end
  end.

End Report.

Arguments Descriptive : clear implicits.
Arguments Stats : clear implicits.
Arguments AggregatedRow : clear implicits.
Arguments MainTest : clear implicits.

(** * Properties *)

(** ** Reading the ideal instance *)

Lemma Rzerob_true (a : R) : a = 0%R -> Rzerob a = true.
Proof. intros H. unfold Rzerob. destruct (Req_EM_T a 0); [reflexivity | contradiction]. Qed.

Lemma Rzerob_false (a : R) : a <> 0%R -> Rzerob a = false.
Proof. intros H. unfold Rzerob. destruct (Req_EM_T a 0); [contradiction | reflexivity]. Qed.

Lemma Rltb_true (a b : R) : (a < b)%R -> Rltb a b = true.
Proof. intros H. unfold Rltb. destruct (Rlt_dec a b); [reflexivity | contradiction]. Qed.

Lemma Rltb_false (a b : R) : (b <= a)%R -> Rltb a b = false.
Proof. intros H. unfold Rltb. destruct (Rlt_dec a b); [lra | reflexivity]. Qed.

Lemma Rleb_true (a b : R) : (a <= b)%R -> Rleb a b = true.
Proof. intros H. unfold Rleb. destruct (Rle_dec a b); [reflexivity | contradiction]. Qed.

Lemma Rleb_false (a b : R) : (b < a)%R -> Rleb a b = false.
Proof. intros H. unfold Rleb. destruct (Rle_dec a b); [lra | reflexivity]. Qed.

Lemma ideal_add_fin (a b : R) : ideal_add (IFin a) (IFin b) = IFin (a + b).
Proof. reflexivity. Qed.

Lemma ideal_sub_fin (a b : R) : ideal_sub (IFin a) (IFin b) = IFin (a - b).
Proof. reflexivity. Qed.

Lemma ideal_mul_fin (a b : R) : ideal_mul (IFin a) (IFin b) = IFin (a * b).
Proof. reflexivity. Qed.

Lemma ideal_neg_fin (a : R) : ideal_neg (IFin a) = IFin (- a).
Proof. reflexivity. Qed.

Lemma ideal_abs_fin (a : R) : ideal_abs (IFin a) = IFin (Rabs a).
Proof. reflexivity. Qed.

Lemma ideal_exp_fin (a : R) : ideal_exp (IFin a) = IFin (exp a).
Proof. reflexivity. Qed.

Lemma ideal_ltb_fin (a b : R) : ideal_ltb (IFin a) (IFin b) = Rltb a b.
Proof. reflexivity. Qed.

Lemma ideal_leb_fin (a b : R) : ideal_leb (IFin a) (IFin b) = Rleb a b.
Proof. reflexivity. Qed.

Lemma ideal_div_fin (a b : R) : b <> 0%R -> ideal_div (IFin a) (IFin b) = IFin (a / b).
Proof. intros H. unfold ideal_div. now rewrite (Rzerob_false H). Qed.

Lemma ideal_div_zero_zero (a b : R) :
  a = 0%R -> b = 0%R -> ideal_div (IFin a) (IFin b) = INaN.
Proof. intros Ha Hb. unfold ideal_div. now rewrite (Rzerob_true Hb), (Rzerob_true Ha). Qed.

Lemma ideal_sqrt_fin (a : R) : (0 <= a)%R -> ideal_sqrt (IFin a) = IFin (sqrt a).
Proof. intros H. unfold ideal_sqrt. now rewrite (Rltb_false H). Qed.

(** The special values. *)
Lemma ideal_add_fin_inf (a : R) (s : bool) : ideal_add (IFin a) (IInf s) = IInf s.
Proof. reflexivity. Qed.

Lemma ideal_sub_inf_inf (s : bool) : ideal_sub (IInf s) (IInf s) = INaN.
Proof. now destruct s. Qed.

Lemma ideal_div_inf_pos (s : bool) (b : R) :
  (0 <= b)%R -> ideal_div (IInf s) (IFin b) = IInf s.
Proof.
  intros H. unfold ideal_div. rewrite (Rltb_false H). now destruct s.
Qed.

Lemma ideal_mul_nan_l (x : ideal) : ideal_mul INaN x = INaN.
Proof. reflexivity. Qed.

Lemma ideal_add_nan_r (x : ideal) : ideal_add x INaN = INaN.
Proof. now destruct x. Qed.

Lemma ideal_add_nan_l (x : ideal) : ideal_add INaN x = INaN.
Proof. reflexivity. Qed.

Lemma ideal_sub_nan_l (x : ideal) : ideal_sub INaN x = INaN.
Proof. reflexivity. Qed.

Lemma ideal_div_nan_l (x : ideal) : ideal_div INaN x = INaN.
Proof. reflexivity. Qed.

Lemma ideal_div_nan_r (x : ideal) : ideal_div x INaN = INaN.
Proof. now destruct x. Qed.

Lemma ideal_sqrt_nan : ideal_sqrt INaN = INaN.
Proof. reflexivity. Qed.

Arguments ideal_add : simpl never.
Arguments ideal_sub : simpl never.
Arguments ideal_mul : simpl never.
Arguments ideal_div : simpl never.
Arguments ideal_neg : simpl never.
Arguments ideal_sqrt : simpl never.
Arguments ideal_abs : simpl never.
Arguments ideal_exp : simpl never.
Arguments ideal_ltb : simpl never.
Arguments ideal_leb : simpl never.

Create Rewrite HintDb ideal.
#[global] Hint Rewrite ideal_add_fin ideal_sub_fin ideal_mul_fin ideal_neg_fin
  ideal_abs_fin ideal_exp_fin ideal_ltb_fin ideal_leb_fin
  ideal_add_fin_inf ideal_sub_inf_inf ideal_mul_nan_l ideal_add_nan_l
  ideal_add_nan_r ideal_sub_nan_l ideal_div_nan_l ideal_div_nan_r
  ideal_sqrt_nan : ideal.

(** Expose the operations of the instance and compute on finite numbers. *)
Ltac ideal_ops :=
  cbn [jnan ofZ jadd jsub jmul jdiv jneg jsqrt jabs jexp jltb jleb IdealNum];
  autorewrite with ideal.

(** ** Descriptive statistics on short series *)

(** On every number, finite or not, [std] of the one-element series is
    NaN: the sum of squares is [0] or NaN and the divisor [n - 1] is [0]. *)
Lemma ideal_std_singleton (x : ideal) : std [x] = INaN.
Proof.
  unfold std, mean, sumsq_dev, len, sq, one, zero. cbn [fold_left length Z.of_nat Pos.of_succ_nat].
  destruct x as [ | s | r ]; ideal_ops.
  - reflexivity.
  - rewrite ideal_div_inf_pos by lra. now ideal_ops.
  - rewrite ideal_div_fin by lra. ideal_ops.
    rewrite ideal_div_zero_zero; [reflexivity | field | lra].
Qed.

(** The empty series: the sum is the initial [0], the divisor is [-1]. *)
Lemma ideal_std_empty : std ([] : list ideal) = IFin 0.
Proof.
  unfold std, mean, sumsq_dev, len, one, zero.
  cbn [fold_left length Z.of_nat Pos.of_succ_nat].
  ideal_ops. rewrite ideal_div_fin by lra.
  replace (0 / (0 - 1))%R with 0%R by field.
  rewrite ideal_sqrt_fin by lra. now rewrite sqrt_0.
Qed.

(** *** C1 *)

(** The raw rows of one participant, seen in both conditions. *)
Definition one_participant : list (TrialRow float) :=
  [ {| row_participant := "P1"; row_condition := "C1";
       row_cells := [("angry"%string, float_ofZ 12); ("neutral"%string, float_ofZ 100)] |};
    {| row_participant := "P1"; row_condition := "C2";
       row_cells := [("angry"%string, float_ofZ 6); ("neutral"%string, float_ofZ 100)] |} ].

(** C1, counterexample: on binary64, with exactly one participant record
    (C1 = 10, C2 = 5, delta = 5) the report is assembled, and its three
    standard deviations are NaN; [std] of the one-element series [5] is NaN
    as well. *)
Lemma C1_report_holds_nan :
  exists s : Stats float,
    @stats float Float64 (@processedData float Float64 (Some one_participant)) None
    = value s
    /\ @is_nan float Float64 (d_std (st_C1 s)) = true
    /\ @is_nan float Float64 (d_std (st_C2 s)) = true
    /\ @is_nan float Float64 (d_std (st_Delta s)) = true
    /\ @is_nan float Float64 (@std float Float64 [float_ofZ 5]) = true.
Proof.
  eexists. split; [ vm_compute; reflexivity | ].
  repeat split; vm_compute; reflexivity.
Qed.

(** When [stats] has nothing to report: no participant records, and no
    aggregated table with a row for C1 and a row for C2. *)
Definition nothing_to_report {F : Type} {num : JSNumber F}
    (rows : list (ProcessedRow F)) (aggregated : option (list (AggregatedRow F))) : Prop :=
  rows = []
  /\ match aggregated with
     | None => True
     | Some agg =>
         find (names_condition "C1") agg = None \/ find (names_condition "C2") agg = None
     end.

(** C1, as the code has it.  [std] signals nothing: on a one-element
    series, whatever the number, it returns NaN (0/0 under the root), and
    on the empty series 0.  With exactly one participant record [stats]
    assembles the report, whatever the aggregated table, and stores that
    NaN in the [std] fields of C1, C2 and Delta.  [stats] returns [null]
    exactly when there is no participant record and the aggregated table
    is missing or lacks a C1 or a C2 row; [shapiro] and [mainTest] return
    [null] exactly when there is no participant record. *)
Theorem C1_std_below_two_is_nan
    (x : ideal) (r : ProcessedRow ideal) (rows : list (ProcessedRow ideal))
    (aggregated : option (list (AggregatedRow ideal))) :
  std [x] = INaN
  /\ std ([] : list ideal) = IFin 0
  /\ (exists s : Stats ideal,
        stats [r] aggregated = value s
        /\ d_std (st_C1 s) = INaN
        /\ d_std (st_C2 s) = INaN
        /\ d_std (st_Delta s) = INaN)
  /\ (stats rows aggregated = null <-> nothing_to_report rows aggregated)
  /\ (shapiro rows = null <-> rows = [])
  /\ (mainTest rows = Some null <-> rows = []).
Proof.
  split; [ apply ideal_std_singleton | ].
  split; [ apply ideal_std_empty | ].
  split; [ | split; [ | split ] ].
  - eexists. split.
    + unfold stats. destruct aggregated; reflexivity.
    + cbn [st_C1 st_C2 st_Delta describe d_std map].
      repeat split; apply ideal_std_singleton.
  - unfold stats, nothing_to_report, stats_from_aggregated.
    destruct rows as [ | r0 rows' ].
    + destruct aggregated as [ agg | ].
      * destruct (find (names_condition "C1") agg) as [ c1 | ];
          destruct (find (names_condition "C2") agg) as [ c2 | ];
          split; intros H; try discriminate; try reflexivity;
          try (split; [ reflexivity | tauto ]).
        destruct H as [_ [ H | H ]]; discriminate.
      * split; [ intros _; split; [ reflexivity | exact I ] | reflexivity ].
    + split; [ destruct aggregated; discriminate | intros [H _]; discriminate ].
  - destruct rows; split; intros H; try reflexivity; discriminate.
  - unfold mainTest. destruct rows as [ | r0 rows' ].
    + split; reflexivity.
    + split; [ | discriminate ].
      destruct (normal_enough (shapiro (r0 :: rows'))); [ discriminate | ].
      destruct (wilcoxonSignedRank _ _); discriminate.
Qed.

(** ** The record aggregator *)

Lemma distinct_step_In {A : Type} (eqb : A -> A -> bool)
    (eqb_eq : forall a b, eqb a b = true <-> a = b) (l acc : list A) (x : A) :
  In x (fold_left (fun acc x => if existsb (eqb x) acc then acc else acc ++ [x]) l acc)
  <-> In x acc \/ In x l.
Proof.
  revert acc. induction l as [ | y l IH ]; intros acc; cbn [fold_left].
  - cbn. tauto.
  - rewrite IH. destruct (existsb (eqb y) acc) eqn:E.
    + apply existsb_exists in E. destruct E as [z [Hz Hyz]].
      apply eqb_eq in Hyz. subst z. cbn. intuition (subst; auto).
    + rewrite in_app_iff. cbn. tauto.
Qed.

Lemma distinct_In {A : Type} (eqb : A -> A -> bool)
    (eqb_eq : forall a b, eqb a b = true <-> a = b) (l : list A) (x : A) :
  In x (distinct eqb l) <-> In x l.
Proof. unfold distinct. rewrite distinct_step_In by assumption. cbn. tauto. Qed.

Section AggregatorFacts.

Context {F : Type} {num : JSNumber F}.
Local Open Scope string_scope.
Local Open Scope js_scope.

(** What [row[c]] holds after the conditions have been walked. *)
Lemma lookup_map_key {A : Type} (f : string -> A) (cs : list string) (c : string) :
  lookup (map (fun c => (c, f c)) cs) c = if in_dec string_dec c cs then Some (f c) else None.
Proof.
  induction cs as [ | k cs IH ]; [ reflexivity | ].
  cbn [map lookup]. destruct (String.eqb k c) eqn:E.
  - apply String.eqb_eq in E. subst k.
    destruct (in_dec string_dec c (c :: cs)) as [ | n ]; [ reflexivity | ].
    exfalso. apply n. now left.
  - rewrite IH. apply String.eqb_neq in E.
    destruct (in_dec string_dec c cs) as [ i | n ];
      destruct (in_dec string_dec c (k :: cs)) as [ i' | n' ]; try reflexivity.
    + exfalso. apply n'. now right.
    + exfalso. destruct i' as [ -> | i' ]; [ now apply E | now apply n ].
Qed.

(** A condition no row of the table names selects no row. *)
Lemma rows_of_unknown_condition (raw : list (TrialRow F)) (p c : string) :
  ~ In c (map (@row_condition F) raw) -> rows_of raw p c = [].
Proof.
  intros H. unfold rows_of.
  induction raw as [ | r raw IH ]; [ reflexivity | ].
  cbn [filter]. destruct (String.eqb (row_condition r) c) eqn:E.
  - apply String.eqb_eq in E. exfalso. apply H. left. exact E.
  - rewrite andb_false_r. apply IH. intros Hin. apply H. now right.
Qed.

(** [row[c] ?? 0] is the aggregate of the participant's rows in [c],
    whether or not the table has the condition at all. *)
Lemma or_zero_cond_value (raw : list (TrialRow F)) (p c : string) :
  let conditions := distinct String.eqb (map (@row_condition F) raw) in
  or_zero (cond_value (map (fun c => (c, aggregate (rows_of raw p c))) conditions) c)
  = ce_value (aggregate (rows_of raw p c)).
Proof.
  intros conditions. unfold cond_value.
  rewrite (lookup_map_key (fun c => aggregate (rows_of raw p c))).
  destruct (in_dec string_dec c conditions) as [ i | n ]; [ reflexivity | ].
  rewrite rows_of_unknown_condition; [ reflexivity | ].
  intros Hin. apply n. unfold conditions.
  apply distinct_In; [ apply String.eqb_eq | exact Hin ].
Qed.

(** C5: every record [processedData] produces has
    [delta = aggregate(C1) - aggregate(C2)], the same expression on the
    same numbers (so equal as numbers whatever the rounding), where the
    aggregate of a condition is that of the participant's rows in it; with
    no such rows the aggregate is [0], so a participant seen in one
    condition only gets the aggregate of that condition minus [0], or [0]
    minus it. *)
Theorem C5_delta_is_difference_of_aggregates
    (raw : list (TrialRow F)) (r : ProcessedRow F)
    (Hr : In r (processedData (Some raw))) :
  let agg c := ce_value (aggregate (rows_of raw (participant r) c)) in
  delta r = agg "C1" - agg "C2"
  /\ delta r = or_zero (cond_value (conds r) "C1") - or_zero (cond_value (conds r) "C2")
  /\ (rows_of raw (participant r) "C2" = [] -> delta r = agg "C1" - zero)
  /\ (rows_of raw (participant r) "C1" = [] -> delta r = zero - agg "C2").
Proof.
  intros agg. unfold processedData in Hr.
  apply in_map_iff in Hr. destruct Hr as [p [Hp _]]. subst r agg.
  cbn [process_participant participant delta conds].
  rewrite !or_zero_cond_value.
  repeat split.
  - intros H0. now rewrite H0.
  - intros H0. now rewrite H0.
Qed.

End AggregatorFacts.

(** The theorem at the rows of [one_participant], and at a participant
    whose second condition is missing. *)
Lemma C5_delta_witness :
  let raw := one_participant ++
    [ {| row_participant := "P2"; row_condition := "C1";
         row_cells := [("angry"%string, float_ofZ 24)] |} ] in
  let r := nth 1 (@processedData float Float64 (Some raw)) 
               {| participant := ""; conds := []; delta := float_ofZ 0 |} in
  In r (@processedData float Float64 (Some raw))
  /\ delta r = float_ofZ 20
  /\ delta r = PrimFloat.sub (float_ofZ 20) (float_ofZ 0).
Proof.
  intros raw r.
  assert (Hin : In r (@processedData float Float64 (Some raw))).
  { vm_compute. right. left. reflexivity. }
  split; [ exact Hin | ]. split; [ vm_compute; reflexivity | ].
  destruct (@C5_delta_is_difference_of_aggregates float Float64 raw r Hin)
    as [_ [_ [H _]]].
  rewrite H by (vm_compute; reflexivity). vm_compute. reflexivity.
Defined.

(** ** Index loops as loops over pairs *)

Section IndexFacts.

Context {F : Type} {num : JSNumber F}.

Lemma mapi_from_length {A B : Type} (f : A -> nat -> B) (i : nat) (l : list A) :
  length (mapi_from f i l) = length l.
Proof. revert i. induction l; intros i; cbn; [ reflexivity | now rewrite IHl ]. Qed.

Lemma get_app_length (pre b : list F) : get (pre ++ b) (length pre) = get b 0.
Proof.
  unfold get. rewrite app_nth2 by lia. now rewrite Nat.sub_diag.
Qed.

(** [a.map((v, i) => f(v, b[i]))] pairs the arrays off when they are
    equally long. *)
Lemma mapi_from_get {B : Type} (f : F -> F -> B) (a b pre : list F) :
  length a = length b ->
  mapi_from (fun v k => f v (get (pre ++ b) k)) (length pre) a
  = map (fun p => f (fst p) (snd p)) (combine a b).
Proof.
  revert b pre. induction a as [ | x a IH ]; intros b pre Hlen; [ reflexivity | ].
  destruct b as [ | y b ]; [ discriminate | ].
  cbn [mapi_from combine map fst snd]. rewrite get_app_length. cbn [get nth]. f_equal.
  specialize (IH b (pre ++ [y])).
  rewrite <- app_assoc, length_app in IH. cbn [app length] in IH.
  rewrite Nat.add_1_r in IH. apply IH. now injection Hlen.
Qed.

Lemma diffs_of_combine (a b : list F) :
  length a = length b ->
  diffs_of a b = map (fun p => jsub (fst p) (snd p)) (combine a b).
Proof. intros H. exact (mapi_from_get (fun v w => jsub v w) a b [] H). Qed.

(** [a.reduce((s, v, i) => step(s, v, b[i]), s0)] likewise. *)
Lemma fold_mapi_get {S : Type} (step : S -> F -> F -> S) (a b pre : list F) (s0 : S) :
  length a = length b ->
  fold_left (fun s vi => step s (fst vi) (get (pre ++ b) (snd vi)))
            (mapi_from (fun v i => (v, i)) (length pre) a) s0
  = fold_left (fun s p => step s (fst p) (snd p)) (combine a b) s0.
Proof.
  revert b pre s0. induction a as [ | x a IH ]; intros b pre s0 Hlen; [ reflexivity | ].
  destruct b as [ | y b ]; [ discriminate | ].
  cbn [mapi_from combine fold_left fst snd]. rewrite get_app_length. cbn [get nth].
  specialize (IH b (pre ++ [y])).
  rewrite <- app_assoc, length_app in IH. cbn [app length] in IH.
  rewrite Nat.add_1_r in IH. apply IH. now injection Hlen.
Qed.

End IndexFacts.

(** ** Sums of reals, and the folds of the ideal instance *)

Definition Rsum (l : list R) : R := fold_right Rplus 0%R l.

Abbreviation fin := (map IFin).

(** The real a finite number stands for. *)
Definition fin_val (x : ideal) : R := match x with IFin r => r | _ => 0%R end.

Lemma fin_val_fin (l : list R) : map fin_val (fin l) = l.
Proof. rewrite map_map. apply map_id. Qed.

(** A [reduce] whose step adds a finite amount stays finite and adds up. *)
Lemma ideal_fold_fin {A : Type} (step : ideal -> A -> ideal) (g : A -> R)
    (l : list A) (a : R) :
  (forall s x, In x l -> step (IFin s) x = IFin (s + g x)) ->
  fold_left step l (IFin a) = IFin (a + Rsum (map g l)).
Proof.
  revert a. induction l as [ | x l IH ]; intros a H; cbn [fold_left map Rsum fold_right].
  - f_equal. lra.
  - rewrite H by now left. rewrite IH by (intros; apply H; now right).
    f_equal. unfold Rsum. lra.
Qed.

Lemma ideal_len {A : Type} (l : list A) : len l = IFin (INR (length l)).
Proof. unfold len. cbn [ofZ IdealNum]. now rewrite <- INR_IZR_INZ. Qed.

Lemma ideal_ofnat (n : nat) : ofnat n = IFin (INR n).
Proof. unfold ofnat. cbn [ofZ IdealNum]. now rewrite <- INR_IZR_INZ. Qed.

Lemma ideal_lit (m : Z) (k : nat) :
  lit m k = IFin (IZR m / IZR (10 ^ Z.of_nat k)).
Proof.
  unfold lit. ideal_ops. apply ideal_div_fin.
  apply not_0_IZR. apply Z.pow_nonzero; lia.
Qed.

(** Rewrite the decimal literals of the goal into quotients of reals. *)
Ltac ideal_lits :=
  rewrite ?ideal_lit;
  repeat match goal with
         | |- context [(10 ^ Z.of_nat ?k)%Z] =>
             let z := eval vm_compute in (10 ^ Z.of_nat k)%Z in
             change (10 ^ Z.of_nat k)%Z with z
         end.

Lemma ideal_mean (l : list R) :
  l <> [] -> mean (fin l) = IFin (Rsum l / INR (length l)).
Proof.
  intros Hne. unfold mean, zero. rewrite ideal_len, length_map.
  change (@ofZ ideal IdealNum 0%Z) with (IFin 0).
  rewrite (ideal_fold_fin _ fin_val).
  - rewrite fin_val_fin. ideal_ops. rewrite ideal_div_fin.
    + f_equal. f_equal. lra.
    + destruct l; [ contradiction | ]. apply not_0_INR. discriminate.
  - intros s x Hx. apply in_map_iff in Hx. destruct Hx as [r [<- _]]. now ideal_ops.
Qed.

Definition Rsumsq (m : R) (l : list R) : R :=
  Rsum (map (fun v => (v - m) * (v - m))%R l).

Lemma ideal_sumsq_dev (m : R) (l : list R) :
  sumsq_dev (IFin m) (fin l) = IFin (Rsumsq m l).
Proof.
  unfold sumsq_dev, zero, sq.
  change (@ofZ ideal IdealNum 0%Z) with (IFin 0).
  rewrite (ideal_fold_fin _ (fun x => (fin_val x - m) * (fin_val x - m))%R).
  - rewrite map_map. cbn [fin_val]. unfold Rsumsq. f_equal. lra.
  - intros s x Hx. apply in_map_iff in Hx. destruct Hx as [r [<- _]]. now ideal_ops.
Qed.

Lemma combine_fin (a b : list R) :
  combine (fin a) (fin b) = map (fun p => (IFin (fst p), IFin (snd p))) (combine a b).
Proof.
  revert b. induction a as [ | x a IH ]; intros [ | y b ]; cbn; try reflexivity.
  now rewrite IH.
Qed.

(** ** Chi-square goodness of fit *)

(** One summand of the statistic: [(o - e)^2 / e] where the expected
    frequency is positive, nothing otherwise. *)
Definition Rchi_term (o e : R) : R :=
  if Rlt_dec 0 e then ((o - e) * (o - e) / e)%R else 0%R.

(** The ladder of critical values, on reals. *)
Definition Rchi_ladder (x : R) : R :=
  if Rlt_dec 9.21 x then 0.01%R
  else if Rlt_dec 5.99 x then 0.05%R
  else if Rlt_dec 4.61 x then 0.1%R
  else 0.2%R.

Lemma ideal_chi_p_ladder (x : R) : chi_p_ladder (IFin x) = IFin (Rchi_ladder x).
Proof.
  unfold chi_p_ladder, Rchi_ladder. ideal_lits. ideal_ops. unfold Rltb.
  repeat match goal with
         | |- context [Rlt_dec ?a ?b] => destruct (Rlt_dec a b); try lra
         end; f_equal; lra.
Qed.

Lemma ideal_chiSq (o e : list R) :
  length o = length e ->
  chi_chiSq (chiSquareTest (fin o) (fin e))
  = IFin (Rsum (map (fun p => Rchi_term (fst p) (snd p)) (combine o e))).
Proof.
  intros Hlen. unfold chiSquareTest. cbn [chi_chiSq]. unfold mapi.
  rewrite (fold_mapi_get
             (fun chiSq o e => if jleb e zero then chiSq
                               else jadd chiSq (jdiv (sq (jsub o e)) e))
             (fin o) (fin e) [] zero) by now rewrite !length_map.
  rewrite combine_fin. unfold zero. change (@ofZ ideal IdealNum 0%Z) with (IFin 0).
  rewrite (ideal_fold_fin _ (fun p => Rchi_term (fin_val (fst p)) (fin_val (snd p)))).
  - rewrite map_map. cbn [fst snd fin_val]. f_equal. lra.
  - intros s x Hx. apply in_map_iff in Hx. destruct Hx as [[a b] [<- _]].
    cbn [fst snd fin_val]. unfold Rchi_term, sq. ideal_ops. unfold Rleb.
    destruct (Rle_dec b 0), (Rlt_dec 0 b); try lra.
    + f_equal. lra.
    + rewrite ideal_div_fin by lra. now ideal_ops.
Qed.

Section ChiSquareExample.

Local Existing Instance Float64.

(** The call [App] makes: [chiSquareTest([6,2,2], [3.33,3.33,3.33])]. *)
Definition chiSquareResult : ChiSquareResult float :=
  chiSquareTest [float_ofZ 6; float_ofZ 2; float_ofZ 2]
                [lit 333 2; lit 333 2; lit 333 2].

(** C9, counterexample: on binary64 the statistic of the example lies
    between 3.2032 and 3.2033, below 3.2035: it is 3.203 to three decimals,
    not 3.204. *)
Lemma C9_chi_square_example_is_3_2032 :
  (lit 32032 4 <? chi_chiSq chiSquareResult)%js = true
  /\ (chi_chiSq chiSquareResult <? lit 32033 4)%js = true
  /\ (chi_chiSq chiSquareResult <? lit 32035 4)%js = true.
Proof. repeat split; vm_compute; reflexivity. Qed.

End ChiSquareExample.

(** C9, with the figure of the example put right: for observed and
    expected series of the same length k, the statistic is the sum of
    (o - e)^2 / e over the indices with e > 0, the others adding nothing;
    df = k - 1; p is 0.01 above 9.21, 0.05 above 5.99, 0.1 above 4.61 and
    0.2 otherwise.  For observed = [6,2,2] and expected = [3.33,3.33,3.33]
    this is 7.1289/3.33 + 2 * 1.7689/3.33, between 3.2032 and 3.2033 (the
    same on binary64), with df = 2 and p = 0.2. *)
Theorem C9_chi_square_statistic (o e : list R) (Hlen : length o = length e) :
  let r := chiSquareTest (fin o) (fin e) in
  let chiSq := Rsum (map (fun p => Rchi_term (fst p) (snd p)) (combine o e)) in
  chi_chiSq r = IFin chiSq
  /\ chi_df r = IFin (INR (length o) - 1)
  /\ chi_p r = IFin (Rchi_ladder chiSq)
  /\ (o = [6; 2; 2]%R -> e = [3.33; 3.33; 3.33]%R ->
      (3.2032 < chiSq < 3.2033)%R /\ chi_df r = IFin 2 /\ chi_p r = IFin 0.2)
  /\ (@jltb float Float64 (@lit float Float64 32032 4) (chi_chiSq chiSquareResult) = true
      /\ @jltb float Float64 (chi_chiSq chiSquareResult) (@lit float Float64 32033 4) = true
      /\ chi_df chiSquareResult = float_ofZ 2
      /\ chi_p chiSquareResult = @lit float Float64 2 1).
Proof.
  intros r chiSq.
  assert (Hc : chi_chiSq r = IFin chiSq) by (apply ideal_chiSq; exact Hlen).
  assert (Hd : chi_df r = IFin (INR (length o) - 1)).
  { unfold r, chiSquareTest. cbn [chi_df]. rewrite ideal_len, length_map.
    unfold one. now ideal_ops. }
  assert (Hp : chi_p r = IFin (Rchi_ladder chiSq)).
  { unfold r, chiSquareTest. cbn [chi_p]. fold (chi_chiSq r) in Hc.
    unfold r, chiSquareTest in Hc. cbn [chi_chiSq] in Hc. rewrite Hc.
    apply ideal_chi_p_ladder. }
  repeat split; try assumption; try (vm_compute; reflexivity).
  - subst o e. subst chiSq. cbn [combine map fst snd Rsum fold_right].
    unfold Rchi_term. destruct (Rlt_dec 0 3.33); lra.
  - subst o e. subst chiSq. cbn [combine map fst snd Rsum fold_right].
    unfold Rchi_term. destruct (Rlt_dec 0 3.33); lra.
  - rewrite Hd. subst o. cbn [length INR]. f_equal. lra.
  - rewrite Hp. f_equal. subst o e. subst chiSq.
    cbn [combine map fst snd Rsum fold_right].
    unfold Rchi_term, Rchi_ladder. destruct (Rlt_dec 0 3.33); try lra.
    repeat match goal with
           | |- context [Rlt_dec ?a ?b] => destruct (Rlt_dec a b); try lra
           end.
Qed.

(** The theorem at the series of the example. *)
Lemma C9_chi_square_witness :
  length [6; 2; 2]%R = length [3.33; 3.33; 3.33]%R
  /\ chi_df (chiSquareTest (fin [6; 2; 2]%R) (fin [3.33; 3.33; 3.33]%R)) = IFin 2
  /\ chi_p (chiSquareTest (fin [6; 2; 2]%R) (fin [3.33; 3.33; 3.33]%R)) = IFin 0.2.
Proof.
  split; [ reflexivity | ].
  destruct (@C9_chi_square_statistic [6; 2; 2]%R [3.33; 3.33; 3.33]%R eq_refl)
    as [_ [_ [_ [H _]]]].
  destruct (H eq_refl eq_refl) as [_ [Hd Hp]]. split; assumption.
Defined.

(** ** Paired differences, Cohen's d *)

Definition Rdiffs (a b : list R) : list R :=
  map (fun p => (fst p - snd p)%R) (combine a b).

Lemma Rdiffs_length (a b : list R) : length a = length b -> length (Rdiffs a b) = length a.
Proof.
  intros H. unfold Rdiffs. rewrite length_map, length_combine. lia.
Qed.

Lemma ideal_diffs_of (a b : list R) :
  length a = length b -> diffs_of (fin a) (fin b) = fin (Rdiffs a b).
Proof.
  intros H. rewrite diffs_of_combine by now rewrite !length_map.
  rewrite combine_fin. unfold Rdiffs. rewrite !map_map. reflexivity.
Qed.

Lemma Rsumsq_nonneg (m : R) (l : list R) : (0 <= Rsumsq m l)%R.
Proof.
  unfold Rsumsq, Rsum. induction l as [ | x l IH ]; cbn [map fold_right]; [ lra | ].
  pose proof (Rle_0_sqr (x - m)) as Hx. unfold Rsqr in Hx. lra.
Qed.

(** The standard deviation with the uncorrected divisor,
    sqrt(sum (d_i - mean d)^2 / n). *)
Definition population_std {F : Type} {num : JSNumber F} (d : list F) : F :=
  jsqrt (jdiv (sumsq_dev (mean d) d) (len d)).

(** C7: for series of the same length n >= 2, [cohensD] is the mean of the
    differences d = a - b divided by their population standard deviation
    sqrt(SS / n), SS the sum of squared deviations from the mean, whereas
    [std] divides the same SS by n - 1; whenever SS > 0 the two deviations
    differ and d is the real number mean / sqrt(SS / n). *)
Theorem C7_cohens_d_uses_population_std
    (a b : list R) (Hlen : length a = length b) (Hn : (2 <= length a)%nat) :
  let d := Rdiffs a b in
  let n := INR (length a) in
  let m := (Rsum d / n)%R in
  let SS := Rsumsq m d in
  cohensD (fin a) (fin b) = jdiv (mean (fin d)) (population_std (fin d))
  /\ mean (fin d) = IFin m
  /\ population_std (fin d) = IFin (sqrt (SS / n))
  /\ std (fin d) = IFin (sqrt (SS / (n - 1)))
  /\ ((0 < SS)%R ->
      (sqrt (SS / n) < sqrt (SS / (n - 1)))%R
      /\ cohensD (fin a) (fin b) = IFin (m / sqrt (SS / n))).
Proof.
  intros d n m SS.
  assert (Hd : length d = length a) by (apply Rdiffs_length; exact Hlen).
  assert (Hn2 : (2 <= n)%R).
  { unfold n. change 2%R with (INR 2). apply le_INR. exact Hn. }
  assert (Hne : d <> []).
  { intros E. rewrite E in Hd. cbn in Hd. lia. }
  assert (Hm : mean (fin d) = IFin m).
  { rewrite ideal_mean by exact Hne. now rewrite Hd. }
  assert (HSS : (0 <= SS)%R) by apply Rsumsq_nonneg.
  assert (Hp : population_std (fin d) = IFin (sqrt (SS / n))).
  { unfold population_std. rewrite Hm, ideal_sumsq_dev, ideal_len, length_map, Hd.
    fold n SS. ideal_ops. rewrite ideal_div_fin by lra.
    apply ideal_sqrt_fin. apply Rmult_le_pos; [ lra | ].
    apply Rlt_le, Rinv_0_lt_compat. lra. }
  assert (Hs : std (fin d) = IFin (sqrt (SS / (n - 1)))).
  { unfold std. rewrite Hm, ideal_sumsq_dev, ideal_len, length_map, Hd.
    fold n SS. unfold one. ideal_ops. rewrite ideal_div_fin by lra.
    apply ideal_sqrt_fin. apply Rmult_le_pos; [ lra | ].
    apply Rlt_le, Rinv_0_lt_compat. lra. }
  assert (Hc : cohensD (fin a) (fin b) = jdiv (mean (fin d)) (population_std (fin d))).
  { unfold cohensD, population_std. now rewrite ideal_diffs_of by exact Hlen. }
  repeat split; try assumption.
  - apply sqrt_lt_1_alt. split.
    + apply Rmult_le_pos; [ lra | ]. apply Rlt_le, Rinv_0_lt_compat. lra.
    + unfold Rdiv. apply Rmult_lt_compat_l; [ exact H | ].
      apply Rinv_lt_contravar; nra.
  - rewrite Hc, Hm, Hp. ideal_ops. apply ideal_div_fin.
    assert (0 < sqrt (SS / n))%R; [ | lra ].
    apply sqrt_lt_R0. apply Rmult_lt_0_compat; [ exact H | ].
    apply Rinv_0_lt_compat. lra.
Qed.

(** The theorem at a = [3; 5], b = [1; 1]. *)
Lemma C7_cohens_d_witness :
  length [3; 5]%R = length [1; 1]%R /\ (2 <= length [3; 5]%R)%nat
  /\ mean (fin (Rdiffs [3; 5]%R [1; 1]%R)) = IFin ((3 - 1 + (5 - 1 + 0)) / INR 2).
Proof.
  split; [ reflexivity | ]. split; [ cbn; lia | ].
  destruct (@C7_cohens_d_uses_population_std [3; 5]%R [1; 1]%R eq_refl (le_n 2))
    as [_ [H _]].
  exact H.
Defined.

(** ** Sorting *)

Section SortFacts.

Context {F : Type} {num : JSNumber F} {A : Type}.
Variable cmp : A -> A -> F.

Lemma insert_by_perm (x : A) (l : list A) : Permutation (insert_by cmp x l) (x :: l).
Proof.
  induction l as [ | y l IH ]; cbn [insert_by]; [ reflexivity | ].
  destruct (jltb zero (cmp x y)); [ | reflexivity ].
  rewrite IH. apply perm_swap.
Qed.

(** Whatever the comparator answers, sorting rearranges. *)
Lemma sort_by_perm (l : list A) : Permutation (sort_by cmp l) l.
Proof.
  induction l as [ | x l IH ]; cbn [sort_by fold_right]; [ reflexivity | ].
  fold (sort_by cmp l). rewrite insert_by_perm. now constructor.
Qed.

Lemma sort_by_length (l : list A) : length (sort_by cmp l) = length l.
Proof. apply Permutation_length, sort_by_perm. Qed.

Lemma sort_by_Forall (P : A -> Prop) (l : list A) :
  Forall P l -> Forall P (sort_by cmp l).
Proof.
  intros H. eapply Permutation_Forall; [ | exact H ].
  symmetry. apply sort_by_perm.
Qed.

(** A list already in order stays as it is: each element is compared with
    its successor only. *)
Lemma sort_by_in_order (l : list A) :
  (forall i x y, nth_error l i = Some x -> nth_error l (S i) = Some y ->
                 jltb zero (cmp x y) = false) ->
  sort_by cmp l = l.
Proof.
  induction l as [ | x l IH ]; intros H; [ reflexivity | ].
  cbn [sort_by fold_right]. fold (sort_by cmp l).
  rewrite IH by (intros i a b Ha Hb; exact (H (S i) a b Ha Hb)).
  destruct l as [ | y l ]; [ reflexivity | ].
  cbn [insert_by]. now rewrite (H 0%nat x y eq_refl eq_refl).
Qed.

End SortFacts.

Lemma mapi_from_Forall {A B : Type} (f : A -> nat -> B) (P : B -> Prop)
    (i : nat) (l : list A) :
  (forall x k, In x l -> P (f x k)) -> Forall P (mapi_from f i l).
Proof.
  revert i. induction l as [ | x l IH ]; intros i H; cbn [mapi_from]; constructor.
  - apply H. now left.
  - apply IH. intros y k Hy. apply H. now right.
Qed.

Lemma filter_fin (p : R -> bool) (q : ideal -> bool) (l : list R) :
  (forall x, q (IFin x) = p x) -> filter q (fin l) = fin (filter p l).
Proof.
  intros H. induction l as [ | x l IH ]; [ reflexivity | ].
  cbn [map filter]. rewrite H, IH. now destruct (p x).
Qed.

(** ** Wilcoxon signed-rank on finite numbers *)

Definition Reps : R := (1 / 10000000000)%R.

Lemma ideal_eps : eps = IFin Reps.
Proof. unfold eps. ideal_lits. reflexivity. Qed.

Lemma Reps_pos : (0 < Reps)%R.
Proof. unfold Reps. lra. Qed.

(** The item built from the difference [d] at index [idx]. *)
Definition Ritem (d : R) (idx : nat) : WItem ideal :=
  {| it_val := IFin (Rabs d);
     it_sign := if Rlt_dec 0 d then 1%Z else (-1)%Z;
     it_idx := idx |}.

Definition fin_item (it : WItem ideal) : Prop := exists r, it_val it = IFin r.

Lemma ideal_items_from (pre : list ideal) (l : list R) :
  mapi_from (fun val idx =>
               {| it_val := val;
                  it_sign := if jltb zero (get (pre ++ fin l) idx) then 1%Z else (-1)%Z;
                  it_idx := idx |})
            (length pre) (map jabs (fin l))
  = mapi_from Ritem (length pre) l.
Proof.
  revert pre. induction l as [ | x l IH ]; intros pre; [ reflexivity | ].
  cbn [map mapi_from]. rewrite get_app_length. cbn [get nth]. f_equal.
  - unfold Ritem, zero. ideal_ops. f_equal. unfold Rltb.
    destruct (Rlt_dec 0 x), (Rlt_dec 0 x); try reflexivity; contradiction.
  - specialize (IH (pre ++ [IFin x])).
    rewrite <- app_assoc, length_app in IH. cbn [app length] in IH.
    rewrite Nat.add_1_r in IH. exact IH.
Qed.

Lemma ideal_wilcoxon_items (nz : list R) : wilcoxon_items (fin nz) = mapi Ritem nz.
Proof. exact (ideal_items_from [] nz). Qed.

Lemma tie_run_le {F : Type} {num : JSNumber F} (v : F) (l : list (WItem F)) :
  (tie_run v l <= length l)%nat.
Proof.
  induction l as [ | x l IH ]; cbn [tie_run length]; [ lia | ].
  destruct (jltb (jabs (jsub (it_val x) v)) eps); lia.
Qed.

(** A finite value is within [1e-10] of itself: the run starts with the
    item the loop stands on. *)
Lemma tie_run_head (it0 : WItem ideal) (tl : list (WItem ideal)) :
  fin_item it0 ->
  tie_run (it_val it0) (it0 :: tl) = S (tie_run (it_val it0) tl).
Proof.
  intros [r Hr]. cbn [tie_run]. rewrite Hr, ideal_eps. ideal_ops.
  rewrite Rltb_true; [ reflexivity | ].
  replace (r - r)%R with 0%R by lra. rewrite Rabs_R0. apply Reps_pos.
Qed.

Lemma Rsum_app (l1 l2 : list R) : Rsum (l1 ++ l2) = (Rsum l1 + Rsum l2)%R.
Proof.
  unfold Rsum. induction l1 as [ | x l1 IH ]; cbn [app fold_right]; [ lra | ].
  rewrite IH. lra.
Qed.

Lemma Rsum_const {A : Type} (c : R) (l : list A) :
  Rsum (map (fun _ => c) l) = (INR (length l) * c)%R.
Proof.
  unfold Rsum. induction l as [ | x l IH ]; [ cbn; lra | ].
  cbn [map fold_right]. rewrite IH, length_cons, S_INR. lra.
Qed.

Definition fin_rank (x : WRanked ideal) : Prop := exists q, it_rank x = IFin q.

Definition rank_val (x : WRanked ideal) : R := fin_val (it_rank x).

(** On finite values the ranking loop ends within [length + 1] turns,
    every item gets a finite rank, and the ranks handed out from [rank] on
    add up to [rank + (rank + 1) + ... + (rank + length - 1)]. *)
Lemma assign_ranks_total (fuel : nat) :
  forall (rest : list (WItem ideal)) (rank : R),
    Forall fin_item rest -> (length rest < fuel)%nat ->
    exists ranked,
      assign_ranks fuel rest (IFin rank) = Some ranked
      /\ map (@it_item ideal) ranked = rest
      /\ Forall fin_rank ranked
      /\ Rsum (map rank_val ranked)
         = (INR (length rest) * rank
            + INR (length rest) * (INR (length rest) - 1) / 2)%R.
Proof.
  induction fuel as [ | fuel IH ]; intros rest rank Hfin Hlen; [ lia | ].
  destruct rest as [ | it0 tl ].
  - exists []. cbn. repeat split; [ constructor | lra ].
  - cbn [assign_ranks].
    set (run := tie_run (it_val it0) (it0 :: tl)).
    assert (Hrun1 : (1 <= run)%nat).
    { unfold run. rewrite tie_run_head by now inversion Hfin. lia. }
    assert (Hrun2 : (run <= length (it0 :: tl))%nat) by apply tie_run_le.
    assert (Hsplit : firstn run (it0 :: tl) ++ skipn run (it0 :: tl) = it0 :: tl)
      by apply firstn_skipn.
    assert (Hfin' : Forall fin_item (skipn run (it0 :: tl))).
    { rewrite <- Hsplit in Hfin. now apply Forall_app in Hfin. }
    assert (Hlen' : (length (skipn run (it0 :: tl)) < fuel)%nat).
    { rewrite length_skipn. cbn [length] in *. lia. }
    rewrite ideal_ofnat. unfold one, two. ideal_ops.
    destruct (IH (skipn run (it0 :: tl)) (rank + INR run)%R Hfin' Hlen')
      as [tlr [Hr [Hi [Hf Hs]]]].
    rewrite Hr. rewrite ideal_div_fin by lra.
    eexists. split; [ reflexivity | ]. split; [ | split ].
    + rewrite map_app, map_map. cbn [it_item]. rewrite map_id, Hi. exact Hsplit.
    + apply Forall_app. split; [ | exact Hf ].
      apply Forall_forall. intros x Hx. apply in_map_iff in Hx.
      destruct Hx as [y [<- _]]. eexists. reflexivity.
    + rewrite map_app, Rsum_app, map_map. unfold rank_val at 1. cbn [it_rank fin_val].
      rewrite Rsum_const, Hs, length_firstn, length_skipn.
      rewrite Nat.min_l by exact Hrun2.
      rewrite minus_INR by exact Hrun2.
      set (L := INR (length (it0 :: tl))). set (r := INR run). field.
Qed.

(** The standardisation, on reals: E[W] = n(n+1)/4, Var = n(n+1)(2n+1)/24,
    and the correction the code applies: 0.5 when W+ is above E[W], -0.5 in
    every other case. *)
Definition RexpectedW (n : nat) : R := (INR n * (INR n + 1) / 4)%R.
Definition RvarW (n : nat) : R := (INR n * (INR n + 1) * (2 * INR n + 1) / 24)%R.
Definition Rcorrection (wPlus : R) (n : nat) : R :=
  if Rlt_dec (RexpectedW n) wPlus then (5 / 10)%R else (- (5 / 10))%R.
Definition Rwilcoxon_z (wPlus : R) (n : nat) : R :=
  ((wPlus - RexpectedW n - Rcorrection wPlus n) / sqrt (RvarW n))%R.

Lemma RvarW_pos (n : nat) : (1 <= n)%nat -> (0 < RvarW n)%R.
Proof.
  intros H. apply le_INR in H. cbn [INR] in H. unfold RvarW. nra.
Qed.

Lemma ideal_wilcoxon_z (wPlus : R) (n : nat) :
  (1 <= n)%nat -> wilcoxon_z (IFin wPlus) n = IFin (Rwilcoxon_z wPlus n).
Proof.
  intros Hn. pose proof (RvarW_pos Hn) as Hv.
  unfold wilcoxon_z, Rwilcoxon_z, Rcorrection.
  rewrite ideal_ofnat. ideal_lits. unfold one, two. ideal_ops.
  rewrite !ideal_div_fin by lra. ideal_ops. fold (RexpectedW n) (RvarW n).
  rewrite ideal_sqrt_fin by lra.
  assert (Hs : (0 < sqrt (RvarW n))%R) by now apply sqrt_lt_R0.
  unfold Rltb. destruct (Rlt_dec (RexpectedW n) wPlus); ideal_ops;
    rewrite ideal_div_fin by lra; reflexivity.
Qed.

(** The differences the test keeps. *)
Definition Rnonzero (a b : list R) : list R :=
  filter (fun d => Rltb Reps (Rabs d)) (Rdiffs a b).

Lemma filter_all {A : Type} (p : A -> bool) (l : list A) :
  Forall (fun x => p x = true) l -> filter p l = l.
Proof.
  induction 1 as [ | x l Hx _ IH ]; [ reflexivity | ].
  cbn [filter]. now rewrite Hx, IH.
Qed.

Lemma ideal_rank_sum (ranked : list (WRanked ideal)) :
  Forall fin_rank ranked ->
  fold_left (fun s it => jadd s (it_rank it)) ranked zero
  = IFin (Rsum (map rank_val ranked)).
Proof.
  intros H. unfold zero. change (@ofZ ideal IdealNum 0%Z) with (IFin 0).
  rewrite (ideal_fold_fin _ rank_val).
  - f_equal. lra.
  - intros s x Hx. rewrite Forall_forall in H. destruct (H x Hx) as [q Hq].
    unfold rank_val. rewrite Hq. now ideal_ops.
Qed.

(** On finite series of equal length the test returns; [n] is the number
    of differences above [1e-10] in absolute value; with none the result
    is the fixed record, otherwise W, z are finite, z is the standardised
    W, and p is the two-tailed expression at |z|. *)
Lemma ideal_wilcoxon_returns (a b : list R) :
  length a = length b ->
  exists w,
    wilcoxonSignedRank (fin a) (fin b) = Some w
    /\ w_n w = length (Rnonzero a b)
    /\ (length (Rnonzero a b) = 0%nat ->
        w = {| w_W := IFin 0; w_z := IFin 0; w_p := IFin 1; w_n := 0 |})
    /\ ((1 <= length (Rnonzero a b))%nat ->
        exists wPlus,
          w_W w = IFin wPlus
          /\ w_z w = IFin (Rwilcoxon_z wPlus (length (Rnonzero a b)))
          /\ w_p w = two_tailed (jabs (w_z w))
          /\ ((forall d, In d (Rnonzero a b) -> (0 < d)%R) ->
              wPlus = (INR (length (Rnonzero a b))
                       * (INR (length (Rnonzero a b)) + 1) / 2)%R)).
Proof.
  intros Hlen. unfold wilcoxonSignedRank.
  rewrite (ideal_diffs_of _ _ Hlen).
  rewrite (filter_fin (fun d => Rltb Reps (Rabs d))).
  2:{ intros x. rewrite ideal_eps. now ideal_ops. }
  fold (Rnonzero a b). set (nz := Rnonzero a b).
  rewrite length_map. destruct (Nat.eqb (length nz) 0) eqn:E.
  - apply Nat.eqb_eq in E. eexists. split; [ reflexivity | ].
    cbn [w_n]. repeat split; try (now symmetry); lia.
  - apply Nat.eqb_neq in E. rewrite ideal_wilcoxon_items.
    set (items := sort_by (fun x y => jsub (it_val x) (it_val y)) (mapi Ritem nz)).
    assert (Hfin : Forall fin_item items).
    { apply sort_by_Forall. apply mapi_from_Forall.
      intros x k _. eexists. reflexivity. }
    assert (Hl : length items = length nz).
    { unfold items. rewrite sort_by_length. apply mapi_from_length. }
    destruct (@assign_ranks_total (S (length nz)) items 1 Hfin ltac:(lia))
      as [ranked [Hr [Hi [Hf Hs]]]].
    unfold one at 1. change (@ofZ ideal IdealNum 1%Z) with (IFin 1).
    rewrite Hr.
    set (pos := filter (fun it => (it_sign (it_item it) >? 0)%Z) ranked).
    assert (Hpos : Forall fin_rank pos).
    { apply Forall_forall. intros x Hx. apply filter_In in Hx.
      rewrite Forall_forall in Hf. now apply Hf. }
    rewrite (ideal_rank_sum Hpos).
    rewrite ideal_wilcoxon_z by lia.
    eexists. split; [ reflexivity | ]. cbn [w_n w_W w_z w_p].
    split; [ reflexivity | ]. split; [ intros; lia | ].
    intros _. eexists. split; [ reflexivity | ]. split; [ reflexivity | ].
    split; [ reflexivity | ].
    intros Hall.
    assert (Hsigns : Forall (fun it => (it_sign it >? 0)%Z = true) items).
    { apply sort_by_Forall. apply mapi_from_Forall.
      intros x k Hx. cbn [Ritem it_sign].
      destruct (Rlt_dec 0 x) as [ | n ]; [ reflexivity | ].
      exfalso. apply n. now apply Hall. }
    unfold pos. rewrite filter_all.
    + rewrite Hs, Hl. field.
    + rewrite <- Hi in Hsigns. now rewrite Forall_map in Hsigns.
Qed.

Section WilcoxonExamples.

Local Existing Instance Float64.

Definition floats (l : list Z) : list float := map float_ofZ l.

(** The example of the specification. *)
Definition wilcoxon_example : option (WilcoxonResult float) :=
  wilcoxonSignedRank (floats [10; 12; 14; 9; 11]%Z) (floats [9; 11; 10; 8; 9]%Z).

(** Differences -1, -2 and 3: the ranks are 1, 2, 3 and W+ = 3 = E[W]. *)
Definition wilcoxon_at_mean : option (WilcoxonResult float) :=
  wilcoxonSignedRank (floats [0; 0; 3]%Z) (floats [1; 2; 0]%Z).

Lemma wilcoxon_example_value :
  exists w, wilcoxon_example = Some w /\ w_W w = float_ofZ 15 /\ w_n w = 5%nat
            /\ (lit 18877 4 <? w_z w)%js = true /\ (w_z w <? lit 18878 4)%js = true.
Proof. eexists. split; [ vm_compute; reflexivity | ]. repeat split. Qed.

Lemma wilcoxon_at_mean_value :
  exists w, wilcoxon_at_mean = Some w /\ w_n w = 3%nat /\ w_W w = float_ofZ 3
            /\ (ofnat 3 * (ofnat 3 + one) / ofZ 4)%js = float_ofZ 3
            /\ (lit 267 3 <? w_z w)%js = true /\ (w_z w <? lit 268 3)%js = true.
Proof. eexists. split; [ vm_compute; reflexivity | ]. repeat split. Qed.

(** Differences 1, -1 and 3: the two tied absolute values share the rank
    (1 + 2) / 2, and W+ = 1.5 + 3. *)
Lemma wilcoxon_midranks_value :
  exists w, wilcoxonSignedRank (floats [1; 0; 3]%Z) (floats [0; 1; 0]%Z) = Some w
            /\ w_W w = lit 45 1 /\ w_n w = 3%nat.
Proof. eexists. split; [ vm_compute; reflexivity | ]. repeat split. Qed.

End WilcoxonExamples.

(** When W+ equals E[W] the correction is -0.5 and z is 0.5 / sqrt(Var). *)
Lemma Rwilcoxon_z_at_mean (n : nat) :
  (1 <= n)%nat ->
  Rwilcoxon_z (RexpectedW n) n = (5 / 10 / sqrt (RvarW n))%R
  /\ (0 < Rwilcoxon_z (RexpectedW n) n)%R.
Proof.
  intros Hn. pose proof (RvarW_pos Hn) as Hv.
  assert (Hs : (0 < sqrt (RvarW n))%R) by now apply sqrt_lt_R0.
  assert (E : Rwilcoxon_z (RexpectedW n) n = (5 / 10 / sqrt (RvarW n))%R).
  { unfold Rwilcoxon_z, Rcorrection.
    destruct (Rlt_dec (RexpectedW n) (RexpectedW n)); [ lra | ]. field. lra. }
  split; [ exact E | ]. rewrite E.
  apply Rmult_lt_0_compat; [ lra | now apply Rinv_0_lt_compat ].
Qed.

(** Away from E[W] the correction is sign(W+ - E[W]) * 0.5. *)
Lemma Rcorrection_sign (wPlus : R) (n : nat) :
  ((RexpectedW n < wPlus)%R -> Rcorrection wPlus n = (5 / 10)%R)
  /\ ((wPlus < RexpectedW n)%R -> Rcorrection wPlus n = (- (5 / 10))%R).
Proof.
  unfold Rcorrection. destruct (Rlt_dec (RexpectedW n) wPlus); split; intros; lra.
Qed.

(** C3, at the input where the code departs from the claim: for n >= 1
    kept differences and a finite W+, the code computes
    z = (W+ - E[W] - c) / sqrt(Var) with c = 0.5 when W+ > E[W] and
    c = -0.5 otherwise, so at W+ = E[W] it returns 0.5 / sqrt(Var) > 0
    and not 0.  On binary64, a = [0,0,3] and b = [1,2,0] give n = 3,
    W+ = 3 = E[W] and z between 0.267 and 0.268. *)
Theorem C3_z_at_expected_value (n : nat) (Hn : (1 <= n)%nat) :
  wilcoxon_z (IFin (RexpectedW n)) n = IFin (5 / 10 / sqrt (RvarW n))
  /\ (0 < 5 / 10 / sqrt (RvarW n))%R
  /\ (forall wPlus, wilcoxon_z (IFin wPlus) n
                    = IFin ((wPlus - RexpectedW n - Rcorrection wPlus n)
                            / sqrt (RvarW n)))
  /\ (exists w,
        wilcoxon_at_mean = Some w /\ w_n w = 3%nat /\ w_W w = float_ofZ 3
        /\ @jdiv float Float64
             (@jmul float Float64 (@ofnat float Float64 3)
                (@jadd float Float64 (@ofnat float Float64 3) (@one float Float64)))
             (float_ofZ 4) = float_ofZ 3
        /\ @jltb float Float64 (@lit float Float64 267 3) (w_z w) = true
        /\ @jltb float Float64 (w_z w) (@lit float Float64 268 3) = true).
Proof.
  destruct (Rwilcoxon_z_at_mean Hn) as [E Hpos].
  split; [ | split; [ | split ] ].
  - rewrite ideal_wilcoxon_z by exact Hn. now rewrite E.
  - now rewrite <- E.
  - intros wPlus. now rewrite ideal_wilcoxon_z by exact Hn.
  - exact wilcoxon_at_mean_value.
Qed.

(** The theorem at n = 3. *)
Lemma C3_z_witness :
  (1 <= 3)%nat
  /\ wilcoxon_z (IFin (RexpectedW 3)) 3 = IFin (5 / 10 / sqrt (RvarW 3)).
Proof.
  split; [ lia | ].
  destruct (@C3_z_at_expected_value 3 ltac:(lia)) as [H _]. exact H.
Defined.

(** ** The main test *)

Section MainTestFacts.

Context {F : Type} {num : JSNumber F}.
Local Open Scope string_scope.
Local Open Scope js_scope.

(** The ladder of [shapiroWilkTest] yields one of its four values. *)
Lemma shapiro_p_values (W : F) :
  shapiro_p W = lit 7 1 \/ shapiro_p W = lit 2 1
  \/ shapiro_p W = lit 5 2 \/ shapiro_p W = lit 1 2.
Proof.
  unfold shapiro_p.
  destruct (W >? lit 95 2); [ now left | ].
  destruct (W >? lit 90 2); [ now right; left | ].
  destruct (W >? lit 85 2); [ now right; right; left | now right; right; right ].
Qed.

(** A number the ranking loop can stand on: it is within [1e-10] of
    itself.  Every finite number is; Infinity and NaN are not, their
    difference with themselves being NaN. *)
Definition self_tied (v : F) : bool := jabs (v - v) <? eps.

Lemma tie_run_self (it0 : WItem F) (tl : list (WItem F)) :
  self_tied (it_val it0) = true ->
  tie_run (it_val it0) (it0 :: tl) = S (tie_run (it_val it0) tl).
Proof. intros H. cbn [tie_run]. unfold self_tied in H. now rewrite H. Qed.

(** When every item is within [1e-10] of itself the ranking loop ends
    within [length + 1] turns and ranks the items in their order. *)
Lemma assign_ranks_returns (fuel : nat) :
  forall (rest : list (WItem F)) (rank : F),
    Forall (fun it => self_tied (it_val it) = true) rest -> (length rest < fuel)%nat ->
    exists ranked,
      assign_ranks fuel rest rank = Some ranked /\ map (@it_item F) ranked = rest.
Proof.
  induction fuel as [ | fuel IH ]; intros rest rank Hst Hlen; [ lia | ].
  destruct rest as [ | it0 tl ]; [ exists []; split; reflexivity | ].
  cbn [assign_ranks].
  set (run := tie_run (it_val it0) (it0 :: tl)).
  assert (Hrun1 : (1 <= run)%nat).
  { unfold run. rewrite tie_run_self by now inversion Hst. lia. }
  assert (Hrun2 : (run <= length (it0 :: tl))%nat) by apply tie_run_le.
  assert (Hsplit : (firstn run (it0 :: tl) ++ skipn run (it0 :: tl))%list = it0 :: tl)
    by apply firstn_skipn.
  assert (Hst' : Forall (fun it => self_tied (it_val it) = true) (skipn run (it0 :: tl))).
  { rewrite <- Hsplit in Hst. now apply Forall_app in Hst. }
  assert (Hlen' : (length (skipn run (it0 :: tl)) < fuel)%nat).
  { rewrite length_skipn. cbn [length] in *. lia. }
  destruct (IH (skipn run (it0 :: tl)) (rank + ofnat run) Hst' Hlen') as [tlr [Hr Hi]].
  rewrite Hr. eexists. split; [ reflexivity | ].
  rewrite map_app, map_map. cbn [it_item]. rewrite map_id, Hi. exact Hsplit.
Qed.

(** When the item the loop stands on is not within [1e-10] of itself the
    run is empty, the loop stays where it is, and no number of turns ends
    it. *)
Lemma assign_ranks_stuck (fuel : nat) (it0 : WItem F) (tl : list (WItem F)) (rank : F) :
  self_tied (it_val it0) = false -> assign_ranks fuel (it0 :: tl) rank = None.
Proof.
  intros H. revert rank. induction fuel as [ | fuel IH ]; intros rank; [ reflexivity | ].
  cbn [assign_ranks tie_run]. unfold self_tied in H. rewrite H.
  cbn [skipn]. now rewrite IH.
Qed.

(** The differences the Wilcoxon test keeps are numbers the ranking loop
    can stand on. *)
Definition kept_differences_self_tied (a b : list F) : Prop :=
  forall d, In d (diffs_of a b) -> (jabs d >? eps) = true -> self_tied (jabs d) = true.

Lemma wilcoxon_items_values (nonZero : list F) :
  Forall (fun it => In (it_val it) (map jabs nonZero)) (wilcoxon_items nonZero).
Proof.
  unfold wilcoxon_items, mapi. apply mapi_from_Forall.
  intros x k Hx. exact Hx.
Qed.

Lemma wilcoxon_returns (a b : list F) :
  kept_differences_self_tied a b -> exists w, wilcoxonSignedRank a b = Some w.
Proof.
  intros H. unfold wilcoxonSignedRank.
  set (nonZero := filter (fun d => jabs d >? eps) (diffs_of a b)).
  destruct (Nat.eqb (length nonZero) 0); [ eexists; reflexivity | ].
  set (items := sort_by (fun x y => it_val x - it_val y) (wilcoxon_items nonZero)).
  assert (Hst : Forall (fun it => self_tied (it_val it) = true) items).
  { eapply Permutation_Forall; [ symmetry; apply sort_by_perm | ].
    eapply Forall_impl; [ | apply wilcoxon_items_values ].
    intros it Hit. apply in_map_iff in Hit. destruct Hit as [d [Hd Hin]].
    rewrite <- Hd. apply filter_In in Hin. destruct Hin as [Hin Hk]. now apply H. }
  assert (Hl : (length items < S (length nonZero))%nat).
  { unfold items. rewrite (Permutation_length (sort_by_perm _ _)).
    unfold wilcoxon_items, mapi. rewrite mapi_from_length, length_map. lia. }
  destruct (assign_ranks_returns one Hst Hl) as [ranked [Hr _]].
  rewrite Hr. eexists. reflexivity.
Qed.

End MainTestFacts.

(** On the exact numbers, the numbers within [1e-10] of themselves are the
    finite ones. *)
Lemma self_tied_finite (x : ideal) : self_tied x = true <-> exists r, x = IFin r.
Proof.
  unfold self_tied. rewrite ideal_eps. destruct x as [ | s | r ].
  - split; [ discriminate | intros [r Hr]; discriminate ].
  - split; [ | intros [r Hr]; discriminate ].
    cbn [jsub IdealNum]. rewrite ideal_sub_inf_inf. discriminate.
  - split; [ intros _; now exists r | intros _ ].
    ideal_ops. apply Rltb_true.
    replace (r - r)%R with 0%R by lra. rewrite Rabs_R0. apply Reps_pos.
Qed.

(** A binary64 number that is neither an infinity nor NaN. *)
Definition float_finite (x : float) : bool :=
  match Prim2SF x with
  | S754_zero _ | S754_finite _ _ _ => true
  | _ => false
  end.

(** On binary64 [x - x] is [+0] for a finite [x] and NaN otherwise. *)
Lemma float_sub_self (x : float) :
  Prim2SF (PrimFloat.sub x x)
  = if float_finite x then S754_zero false else S754_nan.
Proof.
  rewrite sub_spec. unfold float_finite, SF64sub.
  destruct (Prim2SF x) as [ s | s | | s m e ]; cbn [SFsub].
  - now destruct s.
  - now destruct s.
  - reflexivity.
  - rewrite Z.sub_diag. reflexivity.
Qed.

(** On binary64, too, the numbers within [1e-10] of themselves are the
    finite ones. *)
Lemma float_self_tied (x : float) : @self_tied float Float64 x = float_finite x.
Proof.
  unfold self_tied. cbn [jabs jsub jltb Float64 FloatNum].
  rewrite ltb_spec, abs_spec, float_sub_self.
  destruct (float_finite x); vm_compute; reflexivity.
Qed.

Section MainTestChoice.

Context {F : Type} {num : JSNumber F}.
Local Open Scope string_scope.
Local Open Scope js_scope.

(** C4, as the code has it: with at least one participant record,
    [mainTest] is decided by the p-value of [shapiroWilkTest] on the
    deltas.  Above 0.05 it returns the paired t-test on (C1, C2), tagged
    "t", with Cohen's d as effect size.  Otherwise it runs the Wilcoxon
    signed-rank test and returns what that returns: whenever every
    difference the test keeps is within 1e-10 of itself the test returns,
    and [mainTest] returns its result, tagged "wilcoxon", with effect size
    z / sqrt(N), N the number of participant records (not the [n] Wilcoxon
    counts after dropping zero differences); when the test does not return
    neither does [mainTest].  The numbers within 1e-10 of themselves are
    the finite ones, on the exact numbers and on binary64 alike (Infinity
    and NaN are not). *)
Theorem C4_main_test_follows_normality
    (processedData : list (ProcessedRow F)) (Hne : processedData <> []) :
  let c1 := map C1 processedData in
  let c2 := map C2 processedData in
  let p := sw_p (shapiroWilkTest (map (@delta F) processedData)) in
  shapiro processedData = value (shapiroWilkTest (map (@delta F) processedData))
  /\ ((p >? lit 5 2) = true ->
        mainTest processedData
        = Some (value (MainT (pairedTTest c1 c2) (cohensD c1 c2)))
        /\ main_type (MainT (pairedTTest c1 c2) (cohensD c1 c2)) = "t")
  /\ ((p >? lit 5 2) = false ->
        (kept_differences_self_tied c1 c2 ->
         exists w,
           wilcoxonSignedRank c1 c2 = Some w
           /\ mainTest processedData
              = Some (value (MainWilcoxon w (w_z w / jsqrt (ofnat (length processedData)))))
           /\ main_type (MainWilcoxon w (w_z w / jsqrt (ofnat (length processedData))))
              = "wilcoxon")
        /\ (wilcoxonSignedRank c1 c2 = None -> mainTest processedData = None))
  /\ ((forall x : ideal, @self_tied ideal IdealNum x = true <-> exists r, x = IFin r)
      /\ (forall x : float, @self_tied float Float64 x = float_finite x)
      /\ float_finite (@infinity float Float64) = false
      /\ float_finite (@jnan float Float64) = false).
Proof.
  intros c1 c2 p. subst c1 c2 p.
  destruct processedData as [ | r rest ]; [ now elim Hne | ].
  split; [ reflexivity | ]. split; [ | split ].
  3:{ split; [ exact self_tied_finite | ].
      split; [ exact float_self_tied | split; vm_compute; reflexivity ]. }
  - intros Hp. split; [ | reflexivity ].
    unfold mainTest, shapiro, normal_enough. now rewrite Hp.
  - intros Hp. split.
    + intros Hk. destruct (wilcoxon_returns Hk) as [w Hw].
      exists w. split; [ exact Hw | ]. split; [ | reflexivity ].
      unfold mainTest, shapiro, normal_enough. now rewrite Hp, Hw.
    + intros Hw. unfold mainTest, shapiro, normal_enough. now rewrite Hp, Hw.
Qed.

End MainTestChoice.

Section MainTestExample.

Local Existing Instance Float64.

Definition trial (p c : string) (angry_seconds : Z) : TrialRow float :=
  {| row_participant := p; row_condition := c;
     row_cells := [("angry"%string, float_ofZ angry_seconds)] |}.

(** Four participants; the second has the same aggregate in both
    conditions, so Wilcoxon drops that pair. *)
Definition four_participants : list (TrialRow float) :=
  [ trial "P1" "C1" 18; trial "P1" "C2" 6;
    trial "P2" "C1" 6;  trial "P2" "C2" 6;
    trial "P3" "C1" 12; trial "P3" "C2" 6;
    trial "P4" "C1" 24; trial "P4" "C2" 6 ].

(** One participant whose two largest cells in C1, 2^1023 seconds each,
    add up beyond the largest binary64 number. *)
Definition overflowing_participant : list (TrialRow float) :=
  [ {| row_participant := "P1"; row_condition := "C1";
       row_cells := [("angry"%string, 0x1p1023%float); ("happy"%string, 0x1p1023%float)] |};
    {| row_participant := "P1"; row_condition := "C2";
       row_cells := [("angry"%string, float_ofZ 6)] |} ].

(** C4, counterexample: on binary64, for the one record of
    [overflowing_participant] the aggregate of C1 is Infinity; the
    normality p-value is 0.01, not above 0.05, and the Wilcoxon branch is
    taken, but the kept difference Infinity is not within 1e-10 of itself,
    the ranking loop never ends, and [mainTest] returns nothing: no
    Wilcoxon result, no effect size, no tag. *)
Lemma C4_main_test_does_not_return :
  let pd := processedData (Some overflowing_participant) in
  length pd = 1%nat
  /\ map C1 pd = [infinity]
  /\ (sw_p (shapiroWilkTest (map (@delta float) pd)) >? lit 5 2)%js = false
  /\ self_tied (jabs (infinity - float_ofZ 5)%js) = false
  /\ wilcoxonSignedRank (map C1 pd) (map C2 pd) = None
  /\ mainTest pd = None.
Proof. repeat split; vm_compute; reflexivity. Qed.

(** The theorem at the records of [four_participants]: the deltas 10, 0,
    5, 15 fail the normality ladder, every difference is within 1e-10 of
    itself, Wilcoxon keeps n = 3 of the N = 4 pairs, and the effect size
    divides z by sqrt 4. *)
Lemma C4_main_test_witness :
  let pd := processedData (Some four_participants) in
  pd <> []
  /\ length pd = 4%nat
  /\ exists w : WilcoxonResult float,
       mainTest pd = Some (value (MainWilcoxon w (PrimFloat.div (w_z w) (float_ofZ 2))))
       /\ w_n w = 3%nat.
Proof.
  intros pd.
  assert (Hne : pd <> []) by (vm_compute; discriminate).
  split; [ exact Hne | ]. split; [ reflexivity | ].
  destruct (C4_main_test_follows_normality Hne) as [_ [_ [H _]]].
  destruct (H ltac:(vm_compute; reflexivity)) as [H' _].
  assert (Hk : kept_differences_self_tied (map C1 pd) (map C2 pd)).
  { intros d Hd _. vm_compute in Hd.
    repeat (destruct Hd as [ <- | Hd ]; [ vm_compute; reflexivity | ]).
    contradiction. }
  destruct (H' Hk) as [w [Hw [Hm _]]].
  exists w. split.
  - rewrite Hm. vm_compute. reflexivity.
  - assert (Hv : exists w', wilcoxonSignedRank (map C1 pd) (map C2 pd) = Some w'
                            /\ w_n w' = 3%nat).
    { eexists. split; vm_compute; reflexivity. }
    destruct Hv as [w' [Hw' Hn]]. rewrite Hw in Hw'. now injection Hw' as ->.
Defined.

End MainTestExample.

(** ** The normal CDF approximation on reals *)

Definition Rpoly (t : R) : R :=
  (3193815 / 10000000
   + t * (- (3565638 / 10000000)
          + t * (1781478 / 1000000
                 + t * (- (1821256 / 1000000) + t * (1330274 / 1000000)))))%R.

Definition Rprob (x : R) : R :=
  let t := (1 / (1 + 2316419 / 10000000 * Rabs x))%R in
  let d := (3989423 / 10000000 * exp (- x * x / 2))%R in
  (d * t * Rpoly t)%R.

Definition RnormalCDF (x : R) : R :=
  if Rle_dec 0 x then (1 - Rprob x)%R else Rprob x.

Lemma ideal_normalCDF_prob (x : R) : normalCDF_prob (IFin x) = IFin (Rprob x).
Proof.
  unfold normalCDF_prob, Rprob, Rpoly. ideal_lits. unfold one, two. ideal_ops.
  pose proof (Rabs_pos x) as Ha.
  rewrite !ideal_div_fin by lra. ideal_ops. reflexivity.
Qed.

Lemma ideal_normalCDF (x : R) : normalCDF (IFin x) = IFin (RnormalCDF x).
Proof.
  unfold normalCDF, RnormalCDF. rewrite ideal_normalCDF_prob.
  unfold zero, one. ideal_ops. unfold Rleb.
  destruct (Rle_dec 0 x); now ideal_ops.
Qed.

Lemma exp_le_1 (y : R) : (y <= 0)%R -> (exp y <= 1)%R.
Proof.
  intros [H | ->]; [ | rewrite exp_0; lra ].
  rewrite <- exp_0. left. now apply exp_increasing.
Qed.

Lemma Rpoly_pos (t : R) : (0 < Rpoly t)%R.
Proof. unfold Rpoly. nra. Qed.

(** On [0, 1] the polynomial [t * Rpoly t] is largest at 1: the difference
    factors as [(1 - t) * r t] with [r] positive there. *)
Lemma Rpoly_upper (t : R) : (0 <= t <= 1)%R -> (t * Rpoly t <= 12533137 / 10000000)%R.
Proof.
  intros [H0 H1].
  set (r := (12533137 / 10000000 + 9339322 / 10000000 * t + 1290496 / 1000000 * (t * t)
             - 490982 / 1000000 * (t * t * t) + 1330274 / 1000000 * (t * t * t * t))%R).
  assert (H2 : (0 <= t * t)%R) by nra.
  assert (H3 : (0 <= t * t * (1 - t))%R) by (apply Rmult_le_pos; lra).
  assert (H4 : (0 <= (t * t) * (t * t))%R) by (apply Rmult_le_pos; lra).
  assert (Hr : (0 <= r)%R) by (unfold r; nra).
  assert (E : (12533137 / 10000000 - t * Rpoly t = (1 - t) * r)%R)
    by (unfold r, Rpoly; field).
  assert (Hp : (0 <= (1 - t) * r)%R) by (apply Rmult_le_pos; lra).
  lra.
Qed.

(** The tail mass of the approximation lies between 0 and 1/2. *)
Lemma Rprob_bounds (x : R) : (0 <= Rprob x <= 1 / 2)%R.
Proof.
  unfold Rprob.
  set (t := (1 / (1 + 2316419 / 10000000 * Rabs x))%R).
  set (e := exp (- x * x / 2)).
  pose proof (Rabs_pos x) as Ha.
  assert (Ht : (0 < t <= 1)%R).
  { unfold t, Rdiv. rewrite Rmult_1_l. split.
    - apply Rinv_0_lt_compat. lra.
    - rewrite <- Rinv_1 at 2. apply Rinv_le_contravar; lra. }
  assert (He : (0 < e <= 1)%R).
  { unfold e. split; [ apply exp_pos | ]. apply exp_le_1. nra. }
  pose proof (Rpoly_pos t) as Hp.
  assert (Hq : (t * Rpoly t <= 12533137 / 10000000)%R) by (apply Rpoly_upper; lra).
  assert (Hq0 : (0 <= t * Rpoly t)%R) by nra.
  replace (3989423 / 10000000 * e * t * Rpoly t)%R
    with (3989423 / 10000000 * (e * (t * Rpoly t)))%R by ring.
  assert (Hm : (0 <= e * (t * Rpoly t) <= 12533137 / 10000000)%R) by nra.
  lra.
Qed.

Lemma RnormalCDF_bounds (x : R) : (0 <= RnormalCDF x <= 1)%R.
Proof.
  pose proof (Rprob_bounds x). unfold RnormalCDF. destruct (Rle_dec 0 x); lra.
Qed.

(** [2 * (1 - normalCDF(s))] at a finite [s >= 0] is twice the tail mass. *)
Lemma ideal_two_tailed (s : R) :
  (0 <= s)%R ->
  two_tailed (IFin s) = IFin (2 * Rprob s) /\ (0 <= 2 * Rprob s <= 1)%R.
Proof.
  intros Hs. pose proof (Rprob_bounds s). split; [ | lra ].
  unfold two_tailed. rewrite ideal_normalCDF. unfold one, two. ideal_ops.
  f_equal. unfold RnormalCDF. destruct (Rle_dec 0 s); lra.
Qed.

Definition in_unit_interval (v : ideal) : Prop :=
  exists r, v = IFin r /\ (0 <= r <= 1)%R.

(** ** Sorting, continued: order of the result *)

Section SortOrder.

Context {F : Type} {num : JSNumber F}.

Lemma sort_by_ext {A : Type} (cmp cmp' : A -> A -> F) (l : list A) :
  (forall x y, cmp x y = cmp' x y) -> sort_by cmp l = sort_by cmp' l.
Proof.
  intros H. induction l as [ | x l IH ]; [ reflexivity | ].
  cbn [sort_by fold_right]. fold (sort_by cmp l) (sort_by cmp' l). rewrite IH.
  generalize (sort_by cmp' l). intros s.
  induction s as [ | y s IHs ]; [ reflexivity | ].
  cbn [insert_by]. now rewrite H, IHs.
Qed.

Lemma insert_by_map {A B : Type} (g : A -> B) (cmp : B -> B -> F) (x : A) (l : list A) :
  insert_by cmp (g x) (map g l) = map g (insert_by (fun a b => cmp (g a) (g b)) x l).
Proof.
  induction l as [ | y l IH ]; [ reflexivity | ].
  cbn [map insert_by]. destruct (jltb zero (cmp (g x) (g y))); [ | reflexivity ].
  cbn [map]. now rewrite IH.
Qed.

(** Sorting the images is sorting by the images. *)
Lemma sort_by_map {A B : Type} (g : A -> B) (cmp : B -> B -> F) (l : list A) :
  sort_by cmp (map g l) = map g (sort_by (fun a b => cmp (g a) (g b)) l).
Proof.
  induction l as [ | x l IH ]; [ reflexivity | ].
  cbn [map sort_by fold_right].
  fold (sort_by cmp (map g l)) (sort_by (fun a b => cmp (g a) (g b)) l).
  now rewrite IH, insert_by_map.
Qed.

Variable A : Type.
Variable cmp : A -> A -> F.

(** [ord]: the order the result is to have; [pre]: "stands earlier in the
    input".  An element moves behind another only when the comparator is
    positive, and otherwise keeps its place before it. *)
Variables ord pre : A -> A -> Prop.
Hypothesis ord_trans : forall x y z, ord x y -> ord y z -> ord x z.
Hypothesis moved : forall x y, jltb zero (cmp x y) = true -> ord y x.
Hypothesis kept : forall x y, jltb zero (cmp x y) = false -> pre x y -> ord x y.

Lemma insert_by_sorted (x : A) (l : list A) :
  StronglySorted ord l -> Forall (pre x) l -> StronglySorted ord (insert_by cmp x l).
Proof.
  induction l as [ | y l IH ]; intros Hs Hp; cbn [insert_by].
  - repeat constructor.
  - inversion Hs as [ | ? ? Hs' Hy ]; subst. inversion Hp as [ | ? ? Hxy Hp' ]; subst.
    destruct (jltb zero (cmp x y)) eqn:E.
    + constructor; [ now apply IH | ].
      eapply Permutation_Forall; [ symmetry; apply insert_by_perm | ].
      constructor; [ now apply moved | exact Hy ].
    + constructor; [ exact Hs | ].
      assert (Hord : ord x y) by now apply kept.
      constructor; [ exact Hord | ].
      eapply Forall_impl; [ | exact Hy ]. intros z Hz. now apply ord_trans with y.
Qed.

(** A stable sort: the result is in order, elements the comparator does
    not separate keeping their input order. *)
Lemma sort_by_sorted (l : list A) :
  StronglySorted pre l -> StronglySorted ord (sort_by cmp l).
Proof.
  induction l as [ | x l IH ]; intros H; cbn [sort_by fold_right]; [ constructor | ].
  fold (sort_by cmp l). inversion H as [ | ? ? Hs Hx ]; subst.
  apply insert_by_sorted; [ now apply IH | ].
  eapply Permutation_Forall; [ symmetry; apply sort_by_perm | exact Hx ].
Qed.

End SortOrder.

Lemma StronglySorted_nth_error {A : Type} (R : A -> A -> Prop) (l : list A) :
  StronglySorted R l ->
  forall i j a b, (i < j)%nat -> nth_error l i = Some a -> nth_error l j = Some b -> R a b.
Proof.
  induction 1 as [ | x l Hs IH Hx ]; intros i j a b Hij Ha Hb.
  - destruct i; discriminate.
  - destruct j as [ | j ]; [ lia | ]. cbn [nth_error] in Hb.
    destruct i as [ | i ].
    + cbn in Ha. injection Ha as <-. rewrite Forall_forall in Hx.
      apply Hx. eapply nth_error_In. exact Hb.
    + cbn [nth_error] in Ha. apply (IH i j); [ lia | assumption | assumption ].
Qed.

(** A sorted rearrangement of [s, s+1, ..., s+n-1] is that list. *)
Lemma sorted_perm_seq (n : nat) :
  forall (s : nat) (l : list nat),
    StronglySorted le l -> Permutation l (seq s n) -> l = seq s n.
Proof.
  induction n as [ | n IH ]; intros s l Hs Hp.
  - now apply Permutation_nil, Permutation_sym.
  - cbn [seq] in *. destruct l as [ | h t ].
    + apply Permutation_nil in Hp. discriminate.
    + inversion Hs as [ | ? ? Hs' Hh ]; subst.
      assert (h = s).
      { assert (Hin : In h (s :: seq (S s) n))
          by (eapply Permutation_in; [ exact Hp | now left ]).
        assert (Hin' : In s (h :: t))
          by (eapply Permutation_in; [ symmetry; exact Hp | now left ]).
        destruct Hin as [ -> | Hin ]; [ reflexivity | ].
        apply in_seq in Hin. destruct Hin' as [ -> | Hin' ]; [ reflexivity | ].
        rewrite Forall_forall in Hh. specialize (Hh s Hin'). lia. }
      subst h. f_equal. apply IH; [ exact Hs' | ].
      now apply Permutation_cons_inv in Hp.
Qed.

(** ** [map] with index *)

Lemma mapi_from_map {A B C : Type} (h : A -> B) (f : B -> nat -> C) (s : nat) (l : list A) :
  mapi_from f s (map h l) = mapi_from (fun a i => f (h a) i) s l.
Proof.
  revert s. induction l as [ | x l IH ]; intros s; [ reflexivity | ].
  cbn [map mapi_from]. now rewrite IH.
Qed.

Lemma map_mapi_from {A B C : Type} (g : B -> C) (f : A -> nat -> B) (s : nat) (l : list A) :
  map g (mapi_from f s l) = mapi_from (fun a i => g (f a i)) s l.
Proof.
  revert s. induction l as [ | x l IH ]; intros s; [ reflexivity | ].
  cbn [map mapi_from]. now rewrite IH.
Qed.

Lemma mapi_from_ext {A B : Type} (f g : A -> nat -> B) (s : nat) (l : list A) :
  (forall a i, f a i = g a i) -> mapi_from f s l = mapi_from g s l.
Proof.
  intros H. revert s. induction l as [ | x l IH ]; intros s; [ reflexivity | ].
  cbn [mapi_from]. now rewrite H, IH.
Qed.

Lemma mapi_from_fst {A : Type} (s : nat) (l : list A) :
  mapi_from (fun a (_ : nat) => a) s l = l.
Proof.
  revert s. induction l as [ | x l IH ]; intros s; [ reflexivity | ].
  cbn [mapi_from]. now rewrite IH.
Qed.

Lemma mapi_from_snd {A B : Type} (g : nat -> B) (s : nat) (l : list A) :
  mapi_from (fun (_ : A) i => g i) s l = map g (seq s (length l)).
Proof.
  revert s. induction l as [ | x l IH ]; intros s; [ reflexivity | ].
  cbn [mapi_from length seq map]. now rewrite IH.
Qed.

Lemma mapi_from_nth_error {A B : Type} (f : A -> nat -> B) (s : nat) (l : list A) (k : nat) :
  nth_error (mapi_from f s l) k = option_map (fun a => f a (s + k)%nat) (nth_error l k).
Proof.
  revert s k. induction l as [ | x l IH ]; intros s k.
  - now destruct k.
  - destruct k as [ | k ]; cbn [mapi_from nth_error option_map].
    + now rewrite Nat.add_0_r.
    + rewrite IH. now rewrite Nat.add_succ_r.
Qed.

Lemma mapi_from_In {A B : Type} (f : A -> nat -> B) (s : nat) (l : list A) (b : B) :
  In b (mapi_from f s l) <->
  exists k a, nth_error l k = Some a /\ b = f a (s + k)%nat.
Proof.
  split.
  - intros H. apply In_nth_error in H. destruct H as [k Hk].
    rewrite mapi_from_nth_error in Hk.
    destruct (nth_error l k) as [ a | ] eqn:E; [ | discriminate ].
    injection Hk as <-. now exists k, a.
  - intros [k [a [Hk ->]]]. apply nth_error_In with k.
    rewrite mapi_from_nth_error, Hk. reflexivity.
Qed.

(** Pairs tagged with increasing indices stand in index order. *)
Lemma mapi_from_tagged_sorted {A : Type} (s : nat) (l : list A) :
  StronglySorted (fun a b : A * nat => (snd a < snd b)%nat)
                 (mapi_from (fun v i => (v, i)) s l).
Proof.
  revert s. induction l as [ | x l IH ]; intros s; cbn [mapi_from]; constructor.
  - apply IH.
  - apply Forall_forall. intros b Hb. apply mapi_from_In in Hb.
    destruct Hb as [k [a [_ ->]]]. cbn. lia.
Qed.

(** ** The ranks of Spearman's correlation, on reals *)

Definition Rtagged (x : list R) : list (R * nat) := mapi (fun v i => (v, i)) x.

Definition RbyValue (x : list R) : list (R * nat) :=
  sort_by (fun a b => IFin (fst a - fst b)) (Rtagged x).

Definition Rranked (x : list R) : list (R * nat * nat) :=
  mapi (fun d p => (d, p)) (RbyValue x).

Definition RbyIndex (x : list R) : list (R * nat * nat) :=
  sort_by (fun a b => IFin (INR (snd (fst a)) - INR (snd (fst b)))) (Rranked x).

(** The rank of the element at sort position [p] is [p + 1]. *)
Definition Rranks (x : list R) : list R :=
  map (fun e => (INR (snd e) + 1)%R) (RbyIndex x).

Lemma ideal_ranks (x : list R) : ranks (fin x) = fin (Rranks x).
Proof.
  unfold ranks, Rranks, RbyIndex, Rranked, RbyValue, Rtagged, mapi.
  rewrite mapi_from_map.
  rewrite (mapi_from_ext (fun (a : R) i => (IFin a, i))
             (fun a i => (fun d : R * nat => (IFin (fst d), snd d)) (a, i)))
    by reflexivity.
  rewrite <- (map_mapi_from (fun d : R * nat => (IFin (fst d), snd d))
                            (fun v i => (v, i)) 0 x).
  rewrite sort_by_map. rewrite mapi_from_map.
  rewrite (sort_by_ext _ (fun a b : R * nat => IFin (fst a - fst b)))
    by reflexivity.
  set (byValue := sort_by (fun a b : R * nat => IFin (fst a - fst b))
                          (mapi_from (fun v i => (v, i)) 0 x)).
  rewrite (mapi_from_ext
             (fun (a : R * nat) i => ((IFin (fst a), snd a), jadd (ofnat i) one))
             (fun a i => (fun e : R * nat * nat =>
                            ((IFin (fst (fst e)), snd (fst e)), IFin (INR (snd e) + 1)))
                           (a, i))).
  2:{ intros a i. cbn [fst snd]. rewrite ideal_ofnat. unfold one. now ideal_ops. }
  rewrite <- (map_mapi_from
                (fun e : R * nat * nat =>
                   ((IFin (fst (fst e)), snd (fst e)), IFin (INR (snd e) + 1)))
                (fun d p => (d, p)) 0 byValue).
  rewrite sort_by_map.
  rewrite (sort_by_ext _ (fun a b : R * nat * nat =>
                            IFin (INR (snd (fst a)) - INR (snd (fst b))))).
  2:{ intros a b. cbn [fst snd]. rewrite !ideal_ofnat. now ideal_ops. }
  rewrite !map_map. reflexivity.
Qed.

(** Value first, input position second. *)
Definition lexord (a b : R * nat) : Prop :=
  (fst a < fst b)%R \/ (fst a = fst b /\ (snd a <= snd b)%nat).

Lemma Rltb_true_inv (a b : R) : Rltb a b = true -> (a < b)%R.
Proof. unfold Rltb. destruct (Rlt_dec a b); [ auto | discriminate ]. Qed.

Lemma Rltb_false_inv (a b : R) : Rltb a b = false -> (b <= a)%R.
Proof. unfold Rltb. destruct (Rlt_dec a b); [ discriminate | lra ]. Qed.

Lemma RbyValue_sorted (x : list R) : StronglySorted lexord (RbyValue x).
Proof.
  unfold RbyValue.
  apply sort_by_sorted with (pre := fun a b : R * nat => (snd a < snd b)%nat).
  - intros a b c [H1 | [H1 H1']] [H2 | [H2 H2']]; unfold lexord;
      [ left; lra | left; lra | left; lra | right; split; [ lra | lia ] ].
  - intros a b H. unfold zero in H. cbn [jnan ofZ jadd jsub jmul jdiv jneg jsqrt jabs jexp jltb jleb IdealNum] in H; autorewrite with ideal in H. apply Rltb_true_inv in H.
    left. lra.
  - intros a b H Hpre. unfold zero in H. cbn [jnan ofZ jadd jsub jmul jdiv jneg jsqrt jabs jexp jltb jleb IdealNum] in H; autorewrite with ideal in H. apply Rltb_false_inv in H.
    unfold lexord. destruct (Rle_lt_or_eq_dec (fst a) (fst b)) as [ | E ]; [ lra | now left | ].
    right. split; [ exact E | lia ].
  - apply mapi_from_tagged_sorted.
Qed.

Lemma RbyValue_perm (x : list R) : Permutation (RbyValue x) (Rtagged x).
Proof. apply sort_by_perm. Qed.

Lemma RbyIndex_perm (x : list R) : Permutation (RbyIndex x) (Rranked x).
Proof. apply sort_by_perm. Qed.

Lemma Rranked_length (x : list R) : length (Rranked x) = length x.
Proof.
  unfold Rranked, mapi. rewrite mapi_from_length.
  rewrite (Permutation_length (RbyValue_perm x)).
  apply mapi_from_length.
Qed.

(** The sort positions handed out are 0, ..., n - 1. *)
Lemma Rranked_positions (x : list R) :
  map snd (Rranked x) = seq 0 (length x).
Proof.
  unfold Rranked, mapi. rewrite map_mapi_from. cbn [snd].
  rewrite (mapi_from_snd (fun i => i)), map_id.
  rewrite (Permutation_length (RbyValue_perm x)).
  unfold Rtagged, mapi. now rewrite mapi_from_length.
Qed.

Lemma Rranked_tags (x : list R) :
  Permutation (map (fun e : R * nat * nat => snd (fst e)) (Rranked x)) (seq 0 (length x)).
Proof.
  unfold Rranked, mapi. rewrite map_mapi_from. cbn [fst snd].
  rewrite <- (map_mapi_from (fun a : R * nat => snd a) (fun a (_ : nat) => a)).
  rewrite mapi_from_fst.
  rewrite (Permutation_map _ (RbyValue_perm x)).
  unfold Rtagged, mapi. rewrite map_mapi_from. cbn [snd].
  now rewrite (mapi_from_snd (fun i => i)), map_id.
Qed.

(** After the second sort the element of input position [k] stands at [k]. *)
Lemma RbyIndex_tags (x : list R) :
  map (fun e : R * nat * nat => snd (fst e)) (RbyIndex x) = seq 0 (length x).
Proof.
  apply sorted_perm_seq.
  - assert (H : StronglySorted (fun a b : R * nat * nat => (snd (fst a) <= snd (fst b))%nat)
                               (RbyIndex x)).
    { unfold RbyIndex. apply sort_by_sorted with (pre := fun _ _ => True).
      - intros a b c. lia.
      - intros a b H. unfold zero in H. cbn [jnan ofZ jadd jsub jmul jdiv jneg jsqrt jabs jexp jltb jleb IdealNum] in H; autorewrite with ideal in H. apply Rltb_true_inv in H.
        assert (INR (snd (fst b)) < INR (snd (fst a)))%R by lra.
        apply INR_lt in H0. lia.
      - intros a b H _. unfold zero in H. cbn [jnan ofZ jadd jsub jmul jdiv jneg jsqrt jabs jexp jltb jleb IdealNum] in H; autorewrite with ideal in H. apply Rltb_false_inv in H.
        apply INR_le. lra.
      - generalize (Rranked x). intros l. induction l; constructor; [ assumption | ].
        apply Forall_forall. intros; exact I. }
    induction H as [ | e l Hs IH He ]; cbn [map]; constructor; [ exact IH | ].
    rewrite Forall_map. exact He.
  - rewrite (Permutation_map _ (RbyIndex_perm x)). apply Rranked_tags.
Qed.

(** The ranks are 1, ..., n in some arrangement: no two elements share a
    rank, tied or not. *)
Lemma Rranks_perm (x : list R) :
  Permutation (Rranks x) (map (fun p => INR p + 1)%R (seq 0 (length x))).
Proof.
  unfold Rranks. rewrite <- Rranked_positions, map_map.
  apply Permutation_map, RbyIndex_perm.
Qed.

Lemma Rranks_length (x : list R) : length (Rranks x) = length x.
Proof.
  rewrite (Permutation_length (Rranks_perm x)). now rewrite length_map, length_seq.
Qed.

(** The rank at input position [i] is the sort position of [(x_i, i)],
    plus one. *)
Lemma Rranks_nth (x : list R) (i : nat) (a r : R) :
  nth_error x i = Some a -> nth_error (Rranks x) i = Some r ->
  exists p, r = (INR p + 1)%R /\ nth_error (RbyValue x) p = Some (a, i).
Proof.
  intros Ha Hr. unfold Rranks in Hr. rewrite nth_error_map in Hr.
  destruct (nth_error (RbyIndex x) i) as [ [[v k] p] | ] eqn:E; [ | discriminate ].
  cbn in Hr. injection Hr as <-.
  assert (Hk : k = i).
  { pose proof (RbyIndex_tags x) as T.
    apply (f_equal (fun l => nth_error l i)) in T.
    rewrite nth_error_map, E in T. cbn in T.
    assert (Hi : (i < length x)%nat) by (apply nth_error_Some; congruence).
    rewrite (nth_error_nth' _ 0%nat) in T by now rewrite length_seq.
    rewrite seq_nth in T by exact Hi. now injection T. }
  subst k. exists p. split; [ reflexivity | ].
  apply nth_error_In in E.
  apply (Permutation_in _ (RbyIndex_perm x)) in E.
  unfold Rranked, mapi in E. apply mapi_from_In in E.
  destruct E as [q [d [Hq Hd]]]. injection Hd as <- ->. cbn [Nat.add].
  rewrite Hq. f_equal.
  apply nth_error_In in Hq. apply (Permutation_in _ (RbyValue_perm x)) in Hq.
  unfold Rtagged, mapi in Hq. apply mapi_from_In in Hq.
  destruct Hq as [k [w [Hk Hw]]]. injection Hw as -> ->. cbn [Nat.add] in *.
  congruence.
Qed.

(** Rank 1 is the smallest: a smaller value has the smaller rank, and of
    two equal values the one that comes first in the input has it (ties
    are not averaged). *)
Lemma Rranks_order (x : list R) (i j : nat) (a b ri rj : R) :
  nth_error x i = Some a -> nth_error x j = Some b ->
  nth_error (Rranks x) i = Some ri -> nth_error (Rranks x) j = Some rj ->
  (a < b)%R \/ (a = b /\ (i < j)%nat) ->
  (ri < rj)%R.
Proof.
  intros Ha Hb Hri Hrj Hlt.
  destruct (Rranks_nth x i Ha Hri) as [p [-> Hp]].
  destruct (Rranks_nth x j Hb Hrj) as [q [-> Hq]].
  assert (Hpq : (p < q)%nat).
  { destruct (lt_eq_lt_dec p q) as [[ H | H ] | H ]; [ exact H | | ].
    - subst q. rewrite Hp in Hq. injection Hq as E1 E2. subst. exfalso.
      destruct Hlt as [ Hl | [_ Hl] ]; [ lra | lia ].
    - pose proof (StronglySorted_nth_error (RbyValue_sorted x) H Hq Hp) as Ho.
      unfold lexord in Ho. cbn [fst snd] in Ho. exfalso.
      destruct Ho as [ Ho | [Ho Ho'] ], Hlt as [ Hl | [Hl Hl'] ]; try lra; lia. }
  apply lt_INR in Hpq. lra.
Qed.

(** ** Spearman's coefficient *)

(** Cauchy-Schwarz on a list of pairs. *)
Lemma cauchy_schwarz (l : list (R * R)) :
  (Rsum (map (fun p => fst p * snd p)%R l) * Rsum (map (fun p => fst p * snd p)%R l)
   <= Rsum (map (fun p => fst p * fst p)%R l) * Rsum (map (fun p => snd p * snd p)%R l))%R
  /\ (0 <= Rsum (map (fun p => fst p * fst p)%R l))%R
  /\ (0 <= Rsum (map (fun p => snd p * snd p)%R l))%R.
Proof.
  unfold Rsum. induction l as [ | [a b] l IH ]; cbn [map fold_right fst snd].
  - lra.
  - set (S := fold_right Rplus 0%R (map (fun p : R * R => (fst p * snd p)%R) l)) in *.
    set (A := fold_right Rplus 0%R (map (fun p : R * R => (fst p * fst p)%R) l)) in *.
    set (B := fold_right Rplus 0%R (map (fun p : R * R => (snd p * snd p)%R) l)) in *.
    destruct IH as [HS [HA HB]].
    pose proof (Rle_0_sqr a) as Ha. pose proof (Rle_0_sqr b) as Hb.
    unfold Rsqr in Ha, Hb.
    split; [ | split; lra ].
    set (U := (A * (b * b) + B * (a * a))%R).
    set (V := (2 * S * (a * b))%R).
    assert (Hu : (0 <= U)%R).
    { unfold U. apply Rplus_le_le_0_compat; apply Rmult_le_pos; assumption. }
    assert (Hsq : (V * V <= U * U)%R).
    { pose proof (Rle_0_sqr (A * (b * b) - B * (a * a))) as H1. unfold Rsqr in H1.
      assert (H2 : (0 <= (A * B - S * S) * ((a * a) * (b * b)))%R).
      { apply Rmult_le_pos; [ lra | now apply Rmult_le_pos ]. }
      assert (E : (U * U - V * V
                   = (A * (b * b) - B * (a * a)) * (A * (b * b) - B * (a * a))
                     + 4 * ((A * B - S * S) * ((a * a) * (b * b))))%R)
        by (unfold U, V; ring).
      lra. }
    assert (Hle : (V <= U)%R).
    { destruct (Rle_dec V U) as [ | n ]; [ assumption | ].
      exfalso.
      assert (H3 : (0 < (V - U) * (V + U))%R) by (apply Rmult_lt_0_compat; lra).
      assert (E : ((V - U) * (V + U) = V * V - U * U)%R) by ring.
      lra. }
    assert (E : ((a * a + A) * (b * b + B) - (a * b + S) * (a * b + S)
                 = (A * B - S * S) + (U - V))%R) by (unfold U, V; ring).
    lra.
Qed.

Lemma Rsum_combine_fst (f : R -> R) (a b : list R) :
  length a = length b ->
  Rsum (map (fun p => f (fst p)) (combine a b)) = Rsum (map f a).
Proof.
  revert b. induction a as [ | x a IH ]; intros [ | y b ] H; try discriminate;
    [ reflexivity | ].
  unfold Rsum in *. cbn [combine map fold_right fst]. rewrite IH; [ reflexivity | ].
  now injection H.
Qed.

Lemma Rsum_combine_snd (f : R -> R) (a b : list R) :
  length a = length b ->
  Rsum (map (fun p => f (snd p)) (combine a b)) = Rsum (map f b).
Proof.
  revert b. induction a as [ | x a IH ]; intros [ | y b ] H; try discriminate;
    [ reflexivity | ].
  unfold Rsum in *. cbn [combine map fold_right snd]. rewrite IH; [ reflexivity | ].
  now injection H.
Qed.

(** A sum of squared deviations vanishes only on a constant series. *)
Lemma Rsumsq_zero (m : R) (l : list R) :
  (Rsumsq m l <= 0)%R -> forall v, In v l -> v = m.
Proof.
  induction l as [ | x l IH ]; intros H v Hv; [ contradiction | ].
  pose proof (Rsumsq_nonneg m l) as Hl.
  unfold Rsumsq, Rsum in *. cbn [map fold_right] in H.
  pose proof (Rle_0_sqr (x - m)) as Hx. unfold Rsqr in Hx.
  destruct Hv as [ <- | Hv ].
  - assert (E : ((x - m) * (x - m) = 0)%R) by lra.
    apply Rmult_integral in E. destruct E; lra.
  - apply IH; [ lra | exact Hv ].
Qed.

(** The covariance and the variances of two rank series. *)
Lemma Rsum_all_equal (c : R) (l : list R) :
  (forall v, In v l -> v = c) -> Rsum l = (INR (length l) * c)%R.
Proof.
  intros H. rewrite <- (Rsum_const c l). f_equal.
  rewrite <- (map_id l) at 1. apply map_ext_in. intros v Hv. now apply H.
Qed.

Lemma Rsumsq_all_equal (m : R) (l : list R) :
  (forall v, In v l -> v = m) -> Rsumsq m l = 0%R.
Proof.
  intros H. unfold Rsumsq.
  rewrite (map_ext_in _ (fun _ => 0%R)).
  - rewrite Rsum_const. lra.
  - intros v Hv. rewrite (H v Hv). lra.
Qed.

Definition Rcov (mx my : R) (rx ry : list R) : R :=
  Rsum (map (fun p => (fst p - mx) * (snd p - my))%R (combine rx ry)).

Definition Rmean (l : list R) : R := (Rsum l / INR (length l))%R.

Definition Rspearman (x y : list R) : R :=
  let rx := Rranks x in
  let ry := Rranks y in
  (Rcov (Rmean rx) (Rmean ry) rx ry
   / sqrt (Rsumsq (Rmean rx) rx * Rsumsq (Rmean ry) ry))%R.

(** With ranks 1 and 2 both present, the ranks are not constant. *)
Lemma Rranks_variance_pos (x : list R) :
  (2 <= length x)%nat -> (0 < Rsumsq (Rmean (Rranks x)) (Rranks x))%R.
Proof.
  intros Hn. pose proof (Rsumsq_nonneg (Rmean (Rranks x)) (Rranks x)) as H0.
  destruct (Rle_lt_or_eq_dec _ _ H0) as [ | E ]; [ assumption | ].
  exfalso.
  assert (Hin : forall p, (p < length x)%nat -> In (INR p + 1)%R (Rranks x)).
  { intros p Hp. apply (Permutation_in _ (Permutation_sym (Rranks_perm x))).
    apply (in_map (fun p => (INR p + 1)%R)). apply in_seq. lia. }
  assert (Hz : (Rsumsq (Rmean (Rranks x)) (Rranks x) <= 0)%R) by lra.
  pose proof (Rsumsq_zero _ _ Hz _ (Hin 0%nat ltac:(lia))) as E0.
  pose proof (Rsumsq_zero _ _ Hz _ (Hin 1%nat ltac:(lia))) as E1.
  cbn [INR] in E0, E1. lra.
Qed.

(** The coefficient on finite series of one length n >= 1: the quotient of
    the covariance of the ranks by the root of the product of their
    variances, as numbers of the instance. *)
Lemma ideal_spearman (x y : list R) :
  length x = length y -> (1 <= length x)%nat ->
  let rx := Rranks x in
  let ry := Rranks y in
  spearmanCorrelation (fin x) (fin y)
  = ideal_div (IFin (Rcov (Rmean rx) (Rmean ry) rx ry))
              (IFin (sqrt (Rsumsq (Rmean rx) rx * Rsumsq (Rmean ry) ry))).
Proof.
  intros Hlen Hn rx ry. unfold spearmanCorrelation.
  rewrite !ideal_ranks. fold rx ry.
  assert (Hlx : length rx = length x) by apply Rranks_length.
  assert (Hly : length ry = length y) by apply Rranks_length.
  assert (Hrx : rx <> []) by (intros E; rewrite E in Hlx; cbn in Hlx; lia).
  assert (Hry : ry <> []) by (intros E; rewrite E in Hly; cbn in Hly; lia).
  rewrite (ideal_mean Hrx), (ideal_mean Hry). fold (Rmean rx) (Rmean ry).
  rewrite !ideal_sumsq_dev. unfold mapi.
  rewrite (fold_mapi_get
             (fun s r q => jadd s (jmul (jsub r (IFin (Rmean rx))) (jsub q (IFin (Rmean ry)))))
             (fin rx) (fin ry) [] zero) by (rewrite !length_map; lia).
  rewrite combine_fin. unfold zero. change (@ofZ ideal IdealNum 0%Z) with (IFin 0).
  rewrite (ideal_fold_fin _ (fun p => (fin_val (fst p) - Rmean rx)
                                      * (fin_val (snd p) - Rmean ry))%R).
  2:{ intros s p Hp. apply in_map_iff in Hp. destruct Hp as [[a b] [<- _]].
      cbn [fst snd fin_val]. now ideal_ops. }
  rewrite map_map. cbn [fst snd fin_val]. ideal_ops.
  rewrite ideal_sqrt_fin.
  - unfold Rcov. f_equal. f_equal. lra.
  - apply Rmult_le_pos; apply Rsumsq_nonneg.
Qed.

Lemma Rcov_bound (mx my : R) (rx ry : list R) :
  length rx = length ry ->
  (Rcov mx my rx ry * Rcov mx my rx ry <= Rsumsq mx rx * Rsumsq my ry)%R.
Proof.
  intros Hlen.
  destruct (cauchy_schwarz
              (map (fun p : R * R => ((fst p - mx)%R, (snd p - my)%R)) (combine rx ry)))
    as [H _].
  rewrite !map_map in H. cbn [fst snd] in H.
  rewrite (Rsum_combine_fst (fun v => (v - mx) * (v - mx))%R rx ry Hlen) in H.
  rewrite (Rsum_combine_snd (fun v => (v - my) * (v - my))%R rx ry Hlen) in H.
  exact H.
Qed.

Lemma Rspearman_bounds (x y : list R) :
  length x = length y -> (2 <= length x)%nat ->
  (0 < sqrt (Rsumsq (Rmean (Rranks x)) (Rranks x)
             * Rsumsq (Rmean (Rranks y)) (Rranks y)))%R
  /\ (-1 <= Rspearman x y <= 1)%R.
Proof.
  intros Hlen Hn. unfold Rspearman.
  set (rx := Rranks x). set (ry := Rranks y).
  set (vx := Rsumsq (Rmean rx) rx). set (vy := Rsumsq (Rmean ry) ry).
  set (c := Rcov (Rmean rx) (Rmean ry) rx ry).
  assert (Hvx : (0 < vx)%R) by (apply Rranks_variance_pos; exact Hn).
  assert (Hvy : (0 < vy)%R) by (apply Rranks_variance_pos; rewrite <- Hlen; exact Hn).
  assert (Hv : (0 < vx * vy)%R) by now apply Rmult_lt_0_compat.
  assert (Hs : (0 < sqrt (vx * vy))%R) by now apply sqrt_lt_R0.
  split; [ exact Hs | ].
  assert (Hc : (c * c <= vx * vy)%R).
  { apply Rcov_bound. unfold rx, ry. rewrite !Rranks_length. exact Hlen. }
  assert (Hss : (sqrt (vx * vy) * sqrt (vx * vy) = vx * vy)%R)
    by (apply sqrt_sqrt; lra).
  set (s := sqrt (vx * vy)) in *.
  assert (Hcs : (- s <= c <= s)%R).
  { split.
    - destruct (Rle_dec (- s) c) as [ | n ]; [ assumption | ]. exfalso.
      assert (H3 : (0 < (- c - s) * (- c + s))%R) by (apply Rmult_lt_0_compat; lra).
      assert (E : ((- c - s) * (- c + s) = c * c - s * s)%R) by ring. lra.
    - destruct (Rle_dec c s) as [ | n ]; [ assumption | ]. exfalso.
      assert (H3 : (0 < (c - s) * (c + s))%R) by (apply Rmult_lt_0_compat; lra).
      assert (E : ((c - s) * (c + s) = c * c - s * s)%R) by ring. lra. }
  assert (Hi : (0 < / s)%R) by now apply Rinv_0_lt_compat.
  unfold Rdiv. split.
  - apply Rmult_le_reg_r with s; [ exact Hs | ].
    rewrite Rmult_assoc, Rinv_l by lra. lra.
  - apply Rmult_le_reg_r with s; [ exact Hs | ].
    rewrite Rmult_assoc, Rinv_l by lra. lra.
Qed.

Section SpearmanExample.

Local Existing Instance Float64.


End SpearmanExample.



(** ** The normality check on reals *)

Definition Ra : list R :=
  [5739 / 10000; 3291 / 10000; 2141 / 10000; 1224 / 10000; 399 / 10000]%R.

Definition Rsorted (data : list R) : list R :=
  sort_by (fun a b => IFin (a - b)) data.

Definition Rnumerator (s : list R) : R :=
  Rsum (map (fun i => nth i Ra 0 * (nth (length s - 1 - i) s 0 - nth i s 0))%R
            (seq 0 (shapiro_pairs (length s)))).

Definition RW (data : list R) : R :=
  let q := (Rnumerator (Rsorted data) / sqrt (Rsumsq (Rmean data) data))%R in
  (q * q)%R.

Lemma Rsum_perm (l l' : list R) : Permutation l l' -> Rsum l = Rsum l'.
Proof.
  unfold Rsum. induction 1; cbn [fold_right]; lra.
Qed.

Lemma Rsumsq_perm (m : R) (l l' : list R) :
  Permutation l l' -> Rsumsq m l = Rsumsq m l'.
Proof. intros H. unfold Rsumsq. apply Rsum_perm. now apply Permutation_map. Qed.

Lemma Rsum_le {A : Type} (f g : A -> R) (l : list A) :
  (forall x, In x l -> (f x <= g x)%R) -> (Rsum (map f l) <= Rsum (map g l))%R.
Proof.
  unfold Rsum. induction l as [ | x l IH ]; intros H; cbn [map fold_right]; [ lra | ].
  pose proof (H x (or_introl eq_refl)).
  assert (fold_right Rplus 0 (map f l) <= fold_right Rplus 0 (map g l))%R
    by (apply IH; intros; apply H; now right).
  lra.
Qed.

Lemma Rsum_plus {A : Type} (f g : A -> R) (l : list A) :
  Rsum (map (fun x => f x + g x)%R l) = (Rsum (map f l) + Rsum (map g l))%R.
Proof.
  unfold Rsum. induction l as [ | x l IH ]; cbn [map fold_right]; [ lra | ].
  rewrite IH. lra.
Qed.

Lemma Rsum_scale {A : Type} (c : R) (f : A -> R) (l : list A) :
  Rsum (map (fun x => c * f x)%R l) = (c * Rsum (map f l))%R.
Proof.
  unfold Rsum. induction l as [ | x l IH ]; cbn [map fold_right]; [ lra | ].
  rewrite IH. lra.
Qed.

Lemma Rsum_nonneg (l : list R) : Forall (fun v => (0 <= v)%R) l -> (0 <= Rsum l)%R.
Proof.
  unfold Rsum. induction 1; cbn [fold_right]; lra.
Qed.

Lemma ideal_sorted (data : list R) :
  sort_by (fun a b => jsub a b) (fin data) = fin (Rsorted data).
Proof.
  rewrite sort_by_map. unfold Rsorted. f_equal.
Qed.

Lemma Rsorted_perm (data : list R) : Permutation (Rsorted data) data.
Proof. apply sort_by_perm. Qed.

Lemma Rsorted_sorted (data : list R) : StronglySorted Rle (Rsorted data).
Proof.
  unfold Rsorted. apply sort_by_sorted with (pre := fun _ _ => True).
  - intros a b c. lra.
  - intros a b H. unfold zero in H.
    cbn [ofZ jltb IdealNum] in H. autorewrite with ideal in H.
    apply Rltb_true_inv in H. lra.
  - intros a b H _. unfold zero in H.
    cbn [ofZ jltb IdealNum] in H. autorewrite with ideal in H.
    apply Rltb_false_inv in H. lra.
  - induction data; constructor; [ assumption | ].
    apply Forall_forall. intros; exact I.
Qed.

(** Two sorted arrangements of the same values are the same list. *)
Lemma sorted_perm_unique (l l' : list R) :
  StronglySorted Rle l -> StronglySorted Rle l' -> Permutation l l' -> l = l'.
Proof.
  intros Hs. revert l'. induction Hs as [ | h t Hs IH Hh ]; intros l' Hs' Hp.
  - now apply Permutation_nil in Hp.
  - destruct Hs' as [ | h' t' Hs' Hh' ].
    + apply Permutation_sym, Permutation_nil in Hp. discriminate.
    + assert (E : h = h').
      { assert (H1 : In h (h' :: t'))
          by (eapply Permutation_in; [ exact Hp | now left ]).
        assert (H2 : In h' (h :: t))
          by (eapply Permutation_in; [ symmetry; exact Hp | now left ]).
        rewrite Forall_forall in Hh, Hh'.
        destruct H1 as [ -> | H1 ]; [ reflexivity | ].
        destruct H2 as [ -> | H2 ]; [ reflexivity | ].
        pose proof (Hh _ H2). pose proof (Hh' _ H1). lra. }
      subst h'. f_equal. apply IH; [ exact Hs' | ].
      now apply Permutation_cons_inv in Hp.
Qed.

Lemma get_fin (s : list R) (j : nat) :
  (j < length s)%nat -> get (fin s) j = IFin (nth j s 0%R).
Proof.
  intros Hj. unfold get. cbn [jnan IdealNum].
  rewrite (nth_indep _ INaN (IFin 0)) by now rewrite length_map.
  apply map_nth.
Qed.

Lemma get_shapiro_a (i : nat) :
  (i < 5)%nat -> get shapiro_a i = IFin (nth i Ra 0%R).
Proof.
  intros Hi. unfold get, shapiro_a.
  do 5 (destruct i as [ | i ]; [ cbn [nth Ra]; ideal_lits; f_equal; lra | ]).
  lia.
Qed.

Lemma shapiro_pairs_bounds (n : nat) :
  (shapiro_pairs n <= 5)%nat /\ (2 * shapiro_pairs n <= n)%nat.
Proof.
  unfold shapiro_pairs. split; [ apply Nat.le_min_l | ].
  pose proof (Nat.le_min_r 5 (n / 2)).
  pose proof (Nat.div_mod_eq n 2). lia.
Qed.

Lemma ideal_shapiro_numerator (s : list R) :
  shapiro_numerator (fin s) = IFin (Rnumerator s).
Proof.
  unfold shapiro_numerator, Rnumerator. rewrite length_map.
  destruct (shapiro_pairs_bounds (length s)) as [H5 H2].
  unfold zero. change (@ofZ ideal IdealNum 0%Z) with (IFin 0).
  rewrite (ideal_fold_fin _
             (fun i => nth i Ra 0 * (nth (length s - 1 - i) s 0 - nth i s 0))%R).
  - f_equal. lra.
  - intros a i Hi. apply in_seq in Hi.
    rewrite get_shapiro_a by lia. rewrite !get_fin by lia. now ideal_ops.
Qed.

Lemma map_nth_seq {A : Type} (d : A) (s : list A) (k : nat) :
  (k <= length s)%nat -> map (fun i => nth i s d) (seq 0 k) = firstn k s.
Proof.
  revert k. induction s as [ | x s IH ]; intros k Hk.
  - cbn in Hk. assert (k = 0%nat) by lia. now subst.
  - destruct k as [ | k ]; [ reflexivity | ].
    cbn [seq map firstn nth]. f_equal.
    rewrite <- seq_shift, map_map. cbn [nth]. apply IH. cbn in Hk. lia.
Qed.

Lemma map_nth_seq_rev {A : Type} (d : A) (s : list A) (k : nat) :
  (k <= length s)%nat ->
  map (fun i => nth (length s - 1 - i) s d) (seq 0 k) = firstn k (rev s).
Proof.
  intros Hk. rewrite <- (map_nth_seq d) by now rewrite length_rev.
  apply map_ext_in. intros i Hi. apply in_seq in Hi.
  rewrite rev_nth by lia. f_equal. lia.
Qed.

(** The [k] first and the [k] last elements of a series of length at
    least [2 k] are different elements of it. *)
Lemma tails_le (g : R -> R) (s : list R) (k : nat) :
  (forall v, 0 <= g v)%R -> (2 * k <= length s)%nat ->
  (Rsum (map (fun i => g (nth (length s - 1 - i) s 0) + g (nth i s 0))%R (seq 0 k))
   <= Rsum (map g s))%R.
Proof.
  intros Hg Hk.
  rewrite (Rsum_plus (fun i => g (nth (length s - 1 - i) s 0%R))
                     (fun i => g (nth i s 0%R))).
  rewrite <- (map_map (fun i => nth (length s - 1 - i) s 0%R) g).
  rewrite <- (map_map (fun i => nth i s 0%R) g).
  rewrite map_nth_seq_rev, map_nth_seq by lia.
  rewrite firstn_rev, map_rev.
  rewrite (Rsum_perm (Permutation_sym (Permutation_rev _))).
  pose proof (firstn_skipn k s) as E1.
  pose proof (firstn_skipn (length s - 2 * k) (skipn k s)) as E2.
  rewrite skipn_skipn in E2.
  replace (length s - 2 * k + k)%nat with (length s - k)%nat in E2 by lia.
  assert (Hs : Rsum (map g s)
               = (Rsum (map g (firstn k s))
                  + (Rsum (map g (firstn (length s - 2 * k) (skipn k s)))
                     + Rsum (map g (skipn (length s - k) s))))%R).
  { rewrite <- !Rsum_app, <- !map_app, E2, E1. reflexivity. }
  rewrite Hs.
  assert (0 <= Rsum (map g (firstn (length s - 2 * k) (skipn k s))))%R.
  { apply Rsum_nonneg. apply Forall_forall. intros v Hv.
    apply in_map_iff in Hv. destruct Hv as [w [<- _]]. apply Hg. }
  lra.
Qed.

Lemma Ra_squares (k : nat) :
  (k <= 5)%nat ->
  (0 <= Rsum (map (fun i => nth i Ra 0 * nth i Ra 0)%R (seq 0 k))
   <= 5000806 / 10000000)%R.
Proof.
  intros Hk. unfold Rsum.
  do 6 (destruct k as [ | k ]; [ cbn [seq map fold_right nth Ra]; lra | ]).
  lia.
Qed.

(** The squared weighted tail sum is at most 2 * (sum of the squared
    coefficients) = 1.0001612 times the sum of squared deviations, whatever
    the centre. *)
Lemma Rnumerator_bound (s : list R) (m : R) :
  (Rnumerator s * Rnumerator s <= 10001612 / 10000000 * Rsumsq m s)%R.
Proof.
  destruct (shapiro_pairs_bounds (length s)) as [H5 H2].
  set (k := shapiro_pairs (length s)) in *.
  destruct (cauchy_schwarz
              (map (fun i => (nth i Ra 0%R,
                              (nth (length s - 1 - i) s 0 - nth i s 0)%R)) (seq 0 k)))
    as [Hcs [HA HD]].
  repeat rewrite map_map in Hcs. rewrite map_map in HA, HD.
  cbn [fst snd] in Hcs, HA, HD.
  fold k in Hcs. change (Rsum (map (fun i => nth i Ra 0
                          * (nth (length s - 1 - i) s 0 - nth i s 0))%R (seq 0 k)))
    with (Rnumerator s) in Hcs.
  destruct (Ra_squares H5) as [_ HA2].
  set (A2 := Rsum (map (fun i => nth i Ra 0 * nth i Ra 0)%R (seq 0 k))) in *.
  set (D2 := Rsum (map (fun i => (nth (length s - 1 - i) s 0 - nth i s 0)
                                 * (nth (length s - 1 - i) s 0 - nth i s 0))%R
                       (seq 0 k))) in *.
  assert (HD2 : (D2 <= 2 * Rsumsq m s)%R).
  { unfold D2.
    eapply Rle_trans;
      [ apply (Rsum_le _ (fun i => 2 * ((fun v => (v - m) * (v - m)) (nth (length s - 1 - i) s 0)
                                        + (fun v => (v - m) * (v - m)) (nth i s 0)))%R) | ].
    - intros i _. cbn beta.
      set (p := nth (length s - 1 - i) s 0%R). set (q := nth i s 0%R).
      pose proof (Rle_0_sqr ((p - m) + (q - m))) as Hsq. unfold Rsqr in Hsq.
      assert (E : (2 * ((p - m) * (p - m) + (q - m) * (q - m)) - (p - q) * (p - q)
                   = ((p - m) + (q - m)) * ((p - m) + (q - m)))%R) by ring.
      lra.
    - rewrite (Rsum_scale 2).
      pose proof (tails_le (fun v => (v - m) * (v - m))%R s k) as Ht.
      cbn beta in Ht. unfold Rsumsq.
      assert (Hg : forall v, (0 <= (v - m) * (v - m))%R).
      { intros v. pose proof (Rle_0_sqr (v - m)) as Hv. now unfold Rsqr in Hv. }
      specialize (Ht Hg H2). lra. }
  assert (Hprod : (A2 * D2 <= 5000806 / 10000000 * (2 * Rsumsq m s))%R).
  { apply Rmult_le_compat; assumption. }
  eapply Rle_trans; [ exact Hcs | ].
  eapply Rle_trans; [ exact Hprod | ].
  pose proof (Rsumsq_nonneg m s). lra.
Qed.

(** The ladder from W to p, on reals. *)
Definition Rshapiro_ladder (w : R) : R :=
  if Rlt_dec 0.95 w then 0.7%R
  else if Rlt_dec 0.90 w then 0.2%R
  else if Rlt_dec 0.85 w then 0.05%R
  else 0.01%R.

Lemma ideal_shapiro_p (w : R) : shapiro_p (IFin w) = IFin (Rshapiro_ladder w).
Proof.
  unfold shapiro_p, Rshapiro_ladder. ideal_lits. ideal_ops. unfold Rltb.
  repeat match goal with
         | |- context [Rlt_dec ?a ?b] => destruct (Rlt_dec a b); try lra
         end; f_equal; lra.
Qed.

(** NaN compares false with every threshold. *)
Lemma ideal_shapiro_p_nan : shapiro_p INaN = IFin 0.01.
Proof.
  unfold shapiro_p. ideal_lits. cbn [jltb IdealNum].
  change (ideal_ltb (IFin (95 / 100)) INaN) with false.
  change (ideal_ltb (IFin (90 / 100)) INaN) with false.
  change (ideal_ltb (IFin (85 / 100)) INaN) with false.
  cbn iota. f_equal; try lra.
Qed.

Lemma Rnumerator_constant (s : list R) (m : R) :
  (forall v, In v s -> v = m) -> Rnumerator s = 0%R.
Proof.
  intros H. unfold Rnumerator.
  destruct (shapiro_pairs_bounds (length s)) as [_ H2].
  rewrite (map_ext_in _ (fun _ => 0%R)).
  - rewrite Rsum_const. lra.
  - intros i Hi. apply in_seq in Hi.
    rewrite (H (nth (length s - 1 - i) s 0%R)) by (apply nth_In; lia).
    rewrite (H (nth i s 0%R)) by (apply nth_In; lia). lra.
Qed.

Lemma ideal_shapiro (data : list R) :
  data <> [] ->
  let W := sq (ideal_div (IFin (Rnumerator (Rsorted data)))
                         (IFin (sqrt (Rsumsq (Rmean data) data)))) in
  shapiroWilkTest (fin data) = {| sw_W := W; sw_p := shapiro_p W |}.
Proof.
  intros Hne W. unfold shapiroWilkTest.
  rewrite ideal_sorted, ideal_shapiro_numerator, (ideal_mean Hne).
  fold (Rmean data). rewrite ideal_sumsq_dev. ideal_ops.
  rewrite ideal_sqrt_fin by apply Rsumsq_nonneg. reflexivity.
Qed.

Section ShapiroExample.

Local Existing Instance Float64.

(** Ten values proportional to the coefficient table, mirrored. *)
Definition shapiro_table_series : list float :=
  floats [-5739; -3291; -2141; -1224; -399; 399; 1224; 2141; 3291; 5739]%Z.

(** C6, counterexample: on binary64 the statistic of this series of
    length 10 is above 1 (its p is 0.7), and the statistic of the constant
    series [5, 5] is NaN (its p is 0.01). *)
Lemma C6_W_leaves_unit_interval :
  (one <? sw_W (shapiroWilkTest shapiro_table_series))%js = true
  /\ sw_p (shapiroWilkTest shapiro_table_series) = lit 7 1
  /\ is_nan (sw_W (shapiroWilkTest (floats [5; 5]%Z))) = true
  /\ sw_p (shapiroWilkTest (floats [5; 5]%Z)) = lit 1 2.
Proof. repeat split; vm_compute; reflexivity. Qed.

End ShapiroExample.

(** C6, as the code has it.  On exact real arithmetic, for a series of
    length n >= 2 with sum of squared deviations SS, and s its values in
    ascending order: the statistic weights the min(5, floor(n/2)) pairs
    s[n-1-i] - s[i] of order statistics by the coefficient table; when
    SS > 0 it is the number W = (weighted sum / sqrt SS)^2, which lies in
    [0, 1.0001612] (twice the sum of the squared coefficients; it can
    exceed 1); when SS = 0 (a constant series) W is NaN.  On every
    instance p is the ladder of the computed W: 0.7 if W > 0.95, 0.2 if
    W > 0.90, 0.05 if W > 0.85, else 0.01 (so 0.01 for NaN).  On binary64
    the rounded W of the table series is above 1, between 1.0001612 and
    1.0001613, and the constant series [0.1, 0.1, 0.1] gets W = 0. *)
Theorem C6_shapiro_statistic_range
    (data s : list R) (Hn : (2 <= length data)%nat)
    (Hperm : Permutation s data) (Hsorted : StronglySorted Rle s) :
  let r := shapiroWilkTest (fin data) in
  let SS := Rsumsq (Rmean data) data in
  let T := Rsum (map (fun i => nth i Ra 0 * (nth (length s - 1 - i) s 0 - nth i s 0))%R
                     (seq 0 (Nat.min 5 (length s / 2)))) in
  let W := (T / sqrt SS * (T / sqrt SS))%R in
  (forall (F : Type) (num : JSNumber F) (x : list F),
     sw_p (shapiroWilkTest x) = shapiro_p (sw_W (shapiroWilkTest x)))
  /\ ((0 < SS)%R ->
      sw_W r = IFin W
      /\ (0 <= W <= 10001612 / 10000000)%R
      /\ sw_p r = IFin (Rshapiro_ladder W))
  /\ (SS = 0%R -> sw_W r = INaN /\ sw_p r = IFin 0.01)
  /\ (@jltb float Float64 (@one float Float64)
         (sw_W (@shapiroWilkTest float Float64 shapiro_table_series)) = true
      /\ @jltb float Float64 (@lit float Float64 10001612 7)
           (sw_W (@shapiroWilkTest float Float64 shapiro_table_series)) = true
      /\ @shapiroWilkTest float Float64
           [@lit float Float64 1 1; @lit float Float64 1 1; @lit float Float64 1 1]
         = {| sw_W := @zero float Float64; sw_p := @lit float Float64 1 2 |}).
Proof.
  intros r SS T W.
  assert (Hs : s = Rsorted data).
  { apply sorted_perm_unique; [ exact Hsorted | apply Rsorted_sorted | ].
    rewrite Hperm. symmetry. apply Rsorted_perm. }
  assert (HT : T = Rnumerator (Rsorted data)) by (unfold T, Rnumerator; now rewrite Hs).
  assert (HW : W = RW data) by (unfold W, RW; now rewrite HT).
  assert (Hne : data <> []) by (intros E; rewrite E in Hn; cbn in Hn; lia).
  pose proof (ideal_shapiro Hne) as Hr. cbn zeta in Hr. fold SS in Hr.
  split; [ reflexivity | ].
  unfold r. rewrite Hr. cbn [sw_W sw_p].
  split; [ | split ].
  - intros Hpos. rewrite HW.
    assert (Hsq : (0 < sqrt SS)%R) by now apply sqrt_lt_R0.
    rewrite ideal_div_fin by lra. unfold sq. ideal_ops.
    fold (RW data). split; [ reflexivity | ]. split.
    + unfold RW. fold SS.
      set (q := (Rnumerator (Rsorted data) / sqrt SS)%R).
      pose proof (Rle_0_sqr q) as Hq. unfold Rsqr in Hq. split; [ exact Hq | ].
      assert (E : (q * q * SS = Rnumerator (Rsorted data) * Rnumerator (Rsorted data))%R).
      { unfold q. rewrite <- (sqrt_sqrt SS) at 3 by lra. field. lra. }
      pose proof (Rnumerator_bound (Rsorted data) (Rmean data)) as Hb.
      rewrite (Rsumsq_perm _ (Rsorted_perm data)) in Hb. fold SS in Hb.
      rewrite <- E in Hb.
      apply Rmult_le_reg_r with SS; [ exact Hpos | exact Hb ].
    + apply ideal_shapiro_p.
  - intros Hz.
    assert (Hc : forall v, In v (Rsorted data) -> v = Rmean data).
    { intros v Hv. apply (Rsumsq_zero (Rmean data) data); [ fold SS; lra | ].
      apply (Permutation_in _ (Rsorted_perm data)). exact Hv. }
    rewrite (Rnumerator_constant _ Hc), Hz, sqrt_0.
    rewrite ideal_div_zero_zero by reflexivity.
    unfold sq. ideal_ops. split; [ reflexivity | apply ideal_shapiro_p_nan ].
  - repeat split; vm_compute; reflexivity.
Qed.

(** The theorem at the series [2; 1], in ascending order [1; 2]: one pair,
    SS = 1/2, W = 0.5739^2 * 2. *)
Lemma C6_shapiro_witness :
  (2 <= length [2; 1]%R)%nat
  /\ Permutation [1; 2]%R [2; 1]%R /\ StronglySorted Rle [1; 2]%R
  /\ sw_W (shapiroWilkTest (fin [2; 1]%R))
     = IFin ((5739 / 10000 * (2 - 1) + 0) / sqrt (Rsumsq (Rmean [2; 1]%R) [2; 1]%R)
             * ((5739 / 10000 * (2 - 1) + 0) / sqrt (Rsumsq (Rmean [2; 1]%R) [2; 1]%R))).
Proof.
  assert (Hp : Permutation [1; 2]%R [2; 1]%R) by apply perm_swap.
  assert (Hs : StronglySorted Rle [1; 2]%R).
  { repeat constructor. lra. }
  split; [ apply le_n | ]. split; [ exact Hp | ]. split; [ exact Hs | ].
  destruct (@C6_shapiro_statistic_range [2; 1]%R [1; 2]%R (le_n 2) Hp Hs) as [_ [H _]].
  apply H. unfold Rsumsq, Rmean, Rsum. cbn [map fold_right length INR]. lra.
Defined.

(** ** Wilcoxon: the ranks *)

(** Two absolute differences the ranking loop takes for tied: they are
    within [1e-10] of each other; and one that lies below another
    without being tied with it. *)
Definition Rtied_with (x v : R) : bool := Rltb (Rabs (v - x)) Reps.
Definition Rbelow (x v : R) : bool := Rleb (v + Reps) x.

(** The midrank of [x] among [vals]: the average of the ranks
    [below + 1, ..., below + tied] that [x] and the values tied with it
    occupy in ascending order. *)
Definition Rmidrank (vals : list R) (x : R) : R :=
  (INR (length (filter (Rbelow x) vals))
   + (INR (length (filter (Rtied_with x) vals)) + 1) / 2)%R.

(** The sum of the midranks of the positive differences. *)
Definition RwPlus (nz : list R) : R :=
  Rsum (map (fun d => Rmidrank (map Rabs nz) (Rabs d)) (filter (fun d => Rltb 0 d) nz)).

(** "Tied" sorts the values into groups: being within [1e-10] of each
    other is transitive on them. *)
Definition tie_groups (vals : list R) : Prop :=
  forall x y z, In x vals -> In y vals -> In z vals ->
    (Rabs (x - y) < Reps)%R -> (Rabs (y - z) < Reps)%R -> (Rabs (x - z) < Reps)%R.

(** The inner [while] on reals. *)
Fixpoint Rrun (v0 : R) (l : list (R * nat)) : nat :=
  match l with
  | [] => O
  | x :: l' => if Rltb (Rabs (Rabs (fst x) - v0)) Reps then S (Rrun v0 l') else O
  end.

Definition item_of (a : R * nat) : WItem ideal := Ritem (fst a) (snd a).

Lemma tie_run_items (v0 : R) (l : list (R * nat)) :
  tie_run (IFin v0) (map item_of l) = Rrun v0 l.
Proof.
  induction l as [ | x l IH ]; [ reflexivity | ].
  cbn [map tie_run Rrun]. unfold item_of at 1, Ritem at 1. cbn [it_val].
  rewrite ideal_eps. ideal_ops. now rewrite IH.
Qed.

Lemma Rrun_le (v0 : R) (l : list (R * nat)) : (Rrun v0 l <= length l)%nat.
Proof.
  induction l as [ | x l IH ]; cbn [Rrun length]; [ lia | ].
  destruct (Rltb _ _); lia.
Qed.

(** The run is made of values tied with [v0] ... *)
Lemma Rrun_firstn (v0 : R) (l : list (R * nat)) :
  Forall (fun x => (Rabs (Rabs (fst x) - v0) < Reps)%R) (firstn (Rrun v0 l) l).
Proof.
  induction l as [ | x l IH ]; cbn [Rrun]; [ constructor | ].
  destruct (Rltb _ _) eqn:E; cbn [firstn]; constructor; [ | exact IH ].
  now apply Rltb_true_inv.
Qed.

(** ... and, in ascending order, what follows lies [1e-10] or more above. *)
Lemma Rrun_skipn (v0 : R) (l : list (R * nat)) :
  StronglySorted (fun x y => (Rabs (fst x) <= Rabs (fst y))%R) l ->
  Forall (fun x => (v0 <= Rabs (fst x))%R) l ->
  Forall (fun x => (v0 + Reps <= Rabs (fst x))%R) (skipn (Rrun v0 l) l).
Proof.
  induction l as [ | x l IH ]; intros Hs Hge; cbn [Rrun]; [ constructor | ].
  inversion Hs as [ | ? ? Hs' Hx ]; subst. inversion Hge as [ | ? ? Hx0 Hge' ]; subst.
  destruct (Rltb _ _) eqn:E; cbn [skipn]; [ now apply IH | ].
  apply Rltb_false_inv in E.
  assert (Hx1 : (v0 + Reps <= Rabs (fst x))%R).
  { rewrite Rabs_right in E by lra. lra. }
  constructor; [ exact Hx1 | ].
  eapply Forall_impl; [ | exact Hx ]. cbn beta. intros y Hy. lra.
Qed.

Lemma filter_none {A : Type} (p : A -> bool) (l : list A) :
  Forall (fun x => p x = false) l -> filter p l = [].
Proof.
  induction 1 as [ | x l Hx _ IH ]; [ reflexivity | ].
  cbn [filter]. now rewrite Hx, IH.
Qed.

Lemma Permutation_filter_length {A : Type} (p : A -> bool) (l l' : list A) :
  Permutation l l' -> length (filter p l) = length (filter p l').
Proof.
  induction 1 as [ | x l l' _ IH | x y l | l l' l'' _ IH1 _ IH2 ]; cbn [filter].
  - reflexivity.
  - destruct (p x); cbn [length]; now rewrite IH.
  - destruct (p x), (p y); reflexivity.
  - now rewrite IH1.
Qed.

Lemma Permutation_filter_keep {A : Type} (p : A -> bool) (l l' : list A) :
  Permutation l l' -> Permutation (filter p l) (filter p l').
Proof.
  induction 1 as [ | x l l' _ IH | x y l | l l' l'' _ IH1 _ IH2 ]; cbn [filter].
  - constructor.
  - destruct (p x); [ now constructor | exact IH ].
  - destruct (p x), (p y); try reflexivity. apply perm_swap.
  - now rewrite IH1.
Qed.

Lemma Rmidrank_perm (vals vals' : list R) (x : R) :
  Permutation vals vals' -> Rmidrank vals x = Rmidrank vals' x.
Proof.
  intros H. unfold Rmidrank.
  now rewrite (Permutation_filter_length (Rbelow x) H),
              (Permutation_filter_length (Rtied_with x) H).
Qed.

Definition abs_of (a : R * nat) : R := Rabs (fst a).

(** In a list in ascending order, cut in three: what was ranked before,
    the run of values tied with the first value [v0] of the rest, and
    what lies [1e-10] or more above [v0]; the midrank of a value of the
    run counts the first part below and the run as tied. *)
Lemma Rmidrank_of_run (pre run rest : list (R * nat)) (v0 x : R) :
  tie_groups (map abs_of (pre ++ run ++ rest)) ->
  Forall (fun p => (Rabs (abs_of p - v0) >= Reps)%R /\ (abs_of p <= v0)%R) pre ->
  Forall (fun y => (Rabs (abs_of y - v0) < Reps)%R) run ->
  Forall (fun z => (v0 + Reps <= abs_of z)%R) rest ->
  In v0 (map abs_of run) -> In x (map abs_of run) ->
  Rmidrank (map abs_of (pre ++ run ++ rest)) x
  = (INR (length pre) + (INR (length run) + 1) / 2)%R.
Proof.
  intros Hg Hpre Hrun Hrest Hv0 Hx.
  assert (Hin : forall l, incl l (pre ++ run ++ rest) ->
                  forall y, In y l -> In (abs_of y) (map abs_of (pre ++ run ++ rest))).
  { intros l Hl y Hy. apply in_map. now apply Hl. }
  assert (Hxin : In x (map abs_of (pre ++ run ++ rest))).
  { rewrite !map_app, !in_app_iff. right. now left. }
  assert (Hvin : In v0 (map abs_of (pre ++ run ++ rest))).
  { rewrite !map_app, !in_app_iff. right. now left. }
  assert (Hxv : (Rabs (x - v0) < Reps)%R).
  { apply in_map_iff in Hx. destruct Hx as [y [<- Hy]].
    rewrite Forall_forall in Hrun. now apply Hrun. }
  assert (Hvx : (Rabs (v0 - x) < Reps)%R) by (rewrite Rabs_minus_sym; exact Hxv).
  unfold Rmidrank. rewrite !map_app, !filter_app, !length_app.
  (* below *)
  rewrite (filter_all (Rbelow x) (l := map abs_of pre)).
  2:{ apply Forall_map. apply Forall_forall. intros p Hp.
      rewrite Forall_forall in Hpre. destruct (Hpre p Hp) as [Hp1 Hp2].
      unfold Rbelow. apply Rleb_true.
      assert (Hp3 : (v0 - abs_of p >= Reps)%R).
      { destruct Hp2 as [ Hlt | Heq ].
        - rewrite Rabs_left in Hp1 by lra. lra.
        - rewrite Heq in Hp1. replace (v0 - v0)%R with 0%R in Hp1 by lra.
          rewrite Rabs_R0 in Hp1. pose proof Reps_pos. lra. }
      destruct (Rle_lt_dec (abs_of p + Reps) x) as [ Hle | Hlt ]; [ exact Hle | ].
      exfalso.
      (* p would be tied with x, hence with v0 *)
      assert (Ht : (Rabs (abs_of p - x) < Reps)%R).
      { unfold Rabs in Hxv |- *.
        destruct (Rcase_abs (x - v0)), (Rcase_abs (abs_of p - x)); lra. }
      assert (Ht' : (Rabs (abs_of p - v0) < Reps)%R).
      { apply (Hg (abs_of p) x v0); try assumption.
        apply (Hin pre); [ | exact Hp ]. intros q Hq. apply in_app_iff. now left. }
      lra. }
  rewrite (filter_none (Rbelow x) (l := map abs_of run)).
  2:{ apply Forall_map. apply Forall_forall. intros y Hy.
      unfold Rbelow. apply Rleb_false.
      rewrite Forall_forall in Hrun.
      assert (Ht : (Rabs (abs_of y - x) < Reps)%R).
      { apply (Hg (abs_of y) v0 x); try assumption; [ | now apply Hrun ].
        apply (Hin run); [ | exact Hy ].
        intros q Hq. apply in_app_iff. right. apply in_app_iff. now left. }
      unfold Rabs in Ht. destruct (Rcase_abs (abs_of y - x)); lra. }
  rewrite (filter_none (Rbelow x) (l := map abs_of rest)).
  2:{ apply Forall_map. eapply Forall_impl; [ | exact Hrest ]. cbn beta.
      intros z Hz. unfold Rbelow. apply Rleb_false.
      unfold Rabs in Hxv. destruct (Rcase_abs (x - v0)); unfold Reps in *; lra. }
  (* tied *)
  rewrite (filter_none (Rtied_with x) (l := map abs_of pre)).
  2:{ apply Forall_map. apply Forall_forall. intros p Hp.
      unfold Rtied_with. apply Rltb_false.
      destruct (Rle_lt_dec Reps (Rabs (abs_of p - x))) as [ Hle | Hlt ]; [ exact Hle | ].
      exfalso. rewrite Forall_forall in Hpre. destruct (Hpre p Hp) as [Hp1 _].
      assert (Ht : (Rabs (abs_of p - v0) < Reps)%R).
      { apply (Hg (abs_of p) x v0); try assumption.
        apply (Hin pre); [ | exact Hp ]. intros q Hq. apply in_app_iff. now left. }
      lra. }
  rewrite (filter_all (Rtied_with x) (l := map abs_of run)).
  2:{ apply Forall_map. apply Forall_forall. intros y Hy.
      unfold Rtied_with. apply Rltb_true.
      rewrite Forall_forall in Hrun.
      apply (Hg (abs_of y) v0 x); try assumption; [ | now apply Hrun ].
      apply (Hin run); [ | exact Hy ].
      intros q Hq. apply in_app_iff. right. apply in_app_iff. now left. }
  rewrite (filter_none (Rtied_with x) (l := map abs_of rest)).
  2:{ apply Forall_map. apply Forall_forall. intros z Hz.
      unfold Rtied_with. apply Rltb_false.
      destruct (Rle_lt_dec Reps (Rabs (abs_of z - x))) as [ Hle | Hlt ]; [ exact Hle | ].
      exfalso. rewrite Forall_forall in Hrest. pose proof (Hrest z Hz) as Hz1.
      assert (Ht : (Rabs (abs_of z - v0) < Reps)%R).
      { apply (Hg (abs_of z) x v0); try assumption.
        apply (Hin rest); [ | exact Hz ].
        intros q Hq. apply in_app_iff. right. apply in_app_iff. now right. }
      rewrite Rabs_right in Ht by (pose proof Reps_pos; lra). lra. }
  cbn [length]. rewrite !length_map, !Nat.add_0_r. reflexivity.
Qed.

Lemma StronglySorted_app_parts {A : Type} (ord : A -> A -> Prop) (l1 l2 : list A) :
  StronglySorted ord (l1 ++ l2) ->
  StronglySorted ord l2 /\ (forall x y, In x l1 -> In y l2 -> ord x y).
Proof.
  induction l1 as [ | a l1 IH ]; cbn [app]; intros H.
  - split; [ exact H | intros x y [] ].
  - inversion H as [ | ? ? Hs Ha ]; subst. destruct (IH Hs) as [H2 Hc].
    split; [ exact H2 | ].
    intros x y [ <- | Hx ] Hy; [ | now apply Hc ].
    rewrite Forall_forall in Ha. apply Ha. apply in_app_iff. now right.
Qed.

Definition abs_le (x y : R * nat) : Prop := (abs_of x <= abs_of y)%R.

(** The ranking loop on items in ascending order of absolute value, when
    "tied" sorts the values into groups: it ends, and every item gets the
    midrank of its absolute value among all of them. *)
Lemma assign_ranks_midranks (fuel : nat) :
  forall (pre rest : list (R * nat)),
    StronglySorted abs_le (pre ++ rest) ->
    tie_groups (map abs_of (pre ++ rest)) ->
    (forall p r, In p pre -> In r rest -> (Rabs (abs_of p - abs_of r) >= Reps)%R) ->
    (length rest < fuel)%nat ->
    assign_ranks fuel (map item_of rest) (IFin (1 + INR (length pre)))
    = Some (map (fun a => {| it_item := item_of a;
                             it_rank := IFin (Rmidrank (map abs_of (pre ++ rest))
                                                       (abs_of a)) |}) rest).
Proof.
  induction fuel as [ | fuel IH ]; intros pre rest Hs Hg Hsep Hlen; [ lia | ].
  destruct rest as [ | r0 tl ]; [ reflexivity | ].
  cbn [assign_ranks]. change (map item_of (r0 :: tl)) with (item_of r0 :: map item_of tl).
  cbn iota.
  change (item_of r0 :: map item_of tl) with (map item_of (r0 :: tl)).
  change (it_val (item_of r0)) with (IFin (abs_of r0)).
  rewrite tie_run_items.
  set (v0 := abs_of r0). set (rest := r0 :: tl) in *.
  set (run := Rrun v0 rest).
  assert (Hrun1 : (1 <= run)%nat).
  { unfold run, rest. cbn [Rrun]. fold (abs_of r0). fold v0.
    rewrite Rltb_true; [ lia | ].
    replace (v0 - v0)%R with 0%R by lra. rewrite Rabs_R0. apply Reps_pos. }
  assert (Hrun2 : (run <= length rest)%nat) by apply Rrun_le.
  destruct (StronglySorted_app_parts pre rest Hs) as [Hs2 Hcross].
  assert (Hge : Forall (fun x => (v0 <= Rabs (fst x))%R) rest).
  { unfold rest. constructor; [ unfold v0, abs_of; lra | ].
    inversion Hs2 as [ | ? ? _ Hr0 ]; subst. exact Hr0. }
  pose proof (Rrun_firstn v0 rest) as Hfirst. fold run in Hfirst.
  pose proof (Rrun_skipn Hs2 Hge) as Hskip. fold run in Hskip.
  assert (Hsplit : firstn run rest ++ skipn run rest = rest) by apply firstn_skipn.
  assert (Hlf : length (firstn run rest) = run).
  { rewrite length_firstn. lia. }
  assert (Hpre : Forall (fun p => (Rabs (abs_of p - v0) >= Reps)%R /\ (abs_of p <= v0)%R) pre).
  { apply Forall_forall. intros p Hp. split.
    - apply Hsep; [ exact Hp | now left ].
    - apply (Hcross p r0 Hp). now left. }
  assert (Hv0 : In v0 (map abs_of (firstn run rest))).
  { unfold rest. destruct run as [ | k ]; [ lia | ]. cbn [firstn map]. now left. }
  assert (Hall : pre ++ rest = pre ++ firstn run rest ++ skipn run rest)
    by now rewrite Hsplit.
  (* the rest of the loop *)
  assert (Hsep' : forall p r, In p (pre ++ firstn run rest) -> In r (skipn run rest) ->
                    (Rabs (abs_of p - abs_of r) >= Reps)%R).
  { intros p r Hp Hr.
    assert (Hr' : In r rest) by (rewrite <- Hsplit; apply in_app_iff; now right).
    apply in_app_iff in Hp. destruct Hp as [ Hp | Hp ]; [ now apply Hsep | ].
    rewrite Forall_forall in Hfirst, Hskip.
    pose proof (Hfirst p Hp) as Hp1. pose proof (Hskip r Hr) as Hr1.
    fold (abs_of p) in Hp1. fold (abs_of r) in Hr1.
    destruct (Rle_lt_dec Reps (Rabs (abs_of p - abs_of r))) as [ Hle | Hlt ]; [ lra | ].
    exfalso.
    assert (Ht : (Rabs (abs_of r - v0) < Reps)%R).
    { apply (Hg (abs_of r) (abs_of p) v0).
      - apply in_map, in_app_iff. now right.
      - apply in_map, in_app_iff. right. rewrite <- Hsplit. apply in_app_iff. now left.
      - apply in_map, in_app_iff. right. now left.
      - rewrite Rabs_minus_sym. exact Hlt.
      - exact Hp1. }
    rewrite Rabs_right in Ht by (pose proof Reps_pos; lra). lra. }
  assert (Hlen' : (length (skipn run rest) < fuel)%nat).
  { rewrite length_skipn. unfold rest in *. cbn [length] in *. lia. }
  specialize (IH (pre ++ firstn run rest) (skipn run rest)).
  rewrite <- app_assoc, <- Hall in IH.
  specialize (IH Hs Hg Hsep' Hlen').
  rewrite length_app, Hlf, plus_INR in IH.
  rewrite skipn_map. rewrite ideal_ofnat. unfold one, two. ideal_ops.
  replace (1 + INR (length pre) + INR run)%R
    with (1 + (INR (length pre) + INR run))%R by lra.
  rewrite IH. rewrite ideal_div_fin by lra.
  f_equal.
  set (F := fun a : R * nat =>
              {| it_item := item_of a;
                 it_rank := IFin (Rmidrank (map abs_of (pre ++ rest)) (abs_of a)) |}).
  replace (map F rest) with (map F (firstn run rest) ++ map F (skipn run rest))
    by (rewrite <- map_app; now rewrite Hsplit).
  f_equal. rewrite firstn_map, map_map.
  apply map_ext_in. intros a Ha. unfold F. f_equal. f_equal.
  rewrite Hall.
  rewrite (@Rmidrank_of_run pre (firstn run rest) (skipn run rest) v0 (abs_of a)).
  - rewrite Hlf. field.
  - now rewrite <- Hall.
  - exact Hpre.
  - exact Hfirst.
  - exact Hskip.
  - exact Hv0.
  - now apply in_map.
Qed.

Definition Rindexed (nz : list R) : list (R * nat) := mapi (fun d i => (d, i)) nz.

Lemma Rindexed_fst (nz : list R) : map fst (Rindexed nz) = nz.
Proof.
  unfold Rindexed, mapi. rewrite map_mapi_from. cbn [fst]. apply mapi_from_fst.
Qed.

Lemma Rindexed_items (nz : list R) : mapi Ritem nz = map item_of (Rindexed nz).
Proof.
  unfold Rindexed, mapi. rewrite map_mapi_from. reflexivity.
Qed.

(** The items in the order the code's sort leaves them in. *)
Definition RbyAbs (nz : list R) : list (R * nat) :=
  sort_by (fun x y => IFin (abs_of x - abs_of y)) (Rindexed nz).

Lemma RbyAbs_items (nz : list R) :
  sort_by (fun x y => jsub (it_val x) (it_val y)) (mapi Ritem nz)
  = map item_of (RbyAbs nz).
Proof. rewrite Rindexed_items, sort_by_map. reflexivity. Qed.

Lemma RbyAbs_perm (nz : list R) : Permutation (RbyAbs nz) (Rindexed nz).
Proof. apply sort_by_perm. Qed.

Lemma RbyAbs_sorted (nz : list R) : StronglySorted abs_le (RbyAbs nz).
Proof.
  unfold RbyAbs. apply sort_by_sorted with (pre := fun _ _ => True).
  - intros x y z. unfold abs_le. lra.
  - intros x y H. unfold zero in H.
    cbn [ofZ jltb IdealNum] in H. autorewrite with ideal in H.
    apply Rltb_true_inv in H. unfold abs_le. lra.
  - intros x y H _. unfold zero in H.
    cbn [ofZ jltb IdealNum] in H. autorewrite with ideal in H.
    apply Rltb_false_inv in H. unfold abs_le. lra.
  - induction (Rindexed nz); constructor; [ assumption | ].
    apply Forall_forall. intros; exact I.
Qed.

Lemma RbyAbs_values (nz : list R) : Permutation (map abs_of (RbyAbs nz)) (map Rabs nz).
Proof.
  rewrite (Permutation_map abs_of (RbyAbs_perm nz)).
  unfold abs_of. rewrite <- (map_map fst Rabs), Rindexed_fst. reflexivity.
Qed.

(** On real series of one length with n >= 1 kept differences, when
    "tied" sorts their absolute values into groups, W+ is the sum of the
    midranks of the positive kept differences. *)
Lemma ideal_wilcoxon_midranks (a b : list R) :
  length a = length b ->
  (1 <= length (Rnonzero a b))%nat ->
  tie_groups (map Rabs (Rnonzero a b)) ->
  exists w,
    wilcoxonSignedRank (fin a) (fin b) = Some w
    /\ w_W w = IFin (RwPlus (Rnonzero a b)).
Proof.
  intros Hlen Hn Hg. unfold wilcoxonSignedRank.
  rewrite (ideal_diffs_of _ _ Hlen).
  rewrite (filter_fin (fun d => Rltb Reps (Rabs d))).
  2:{ intros x. rewrite ideal_eps. now ideal_ops. }
  fold (Rnonzero a b). set (nz := Rnonzero a b) in *.
  rewrite length_map.
  destruct (Nat.eqb (length nz) 0) eqn:E; [ apply Nat.eqb_eq in E; lia | ].
  rewrite ideal_wilcoxon_items, RbyAbs_items.
  set (sl := RbyAbs nz).
  assert (Hl : length sl = length nz).
  { unfold sl. rewrite (Permutation_length (RbyAbs_perm nz)).
    unfold Rindexed, mapi. apply mapi_from_length. }
  assert (Hg' : tie_groups (map abs_of sl)).
  { intros x y z Hx Hy Hz. apply Hg;
      eapply Permutation_in; try apply RbyAbs_values; assumption. }
  pose proof (@assign_ranks_midranks (S (length nz)) [] sl) as Hr.
  cbn [app length INR] in Hr.
  specialize (Hr (RbyAbs_sorted nz) Hg' ltac:(intros p r []) ltac:(lia)).
  unfold one at 1. change (@ofZ ideal IdealNum 1%Z) with (IFin 1).
  replace (IFin 1) with (IFin (1 + 0)) by (f_equal; lra).
  rewrite Hr.
  set (M := Rmidrank (map abs_of sl)).
  set (F := fun a0 : R * nat => {| it_item := item_of a0; it_rank := IFin (M (abs_of a0)) |}).
  set (pos := filter (fun it => (it_sign (it_item it) >? 0)%Z) (map F sl)).
  assert (Hpos : Forall fin_rank pos).
  { apply Forall_forall. intros x Hx. apply filter_In in Hx. destruct Hx as [Hx _].
    apply in_map_iff in Hx. destruct Hx as [y [<- _]]. eexists. reflexivity. }
  rewrite (ideal_rank_sum Hpos).
  eexists. split; [ reflexivity | ]. cbn [w_W]. f_equal.
  unfold pos. rewrite filter_map_swap, map_map.
  unfold F, rank_val. cbn [it_item it_rank fin_val].
  assert (Hq : forall a0 : R * nat,
             (it_sign (item_of a0) >? 0)%Z = Rltb 0 (fst a0)).
  { intros a0. unfold item_of, Ritem, Rltb. cbn [it_sign].
    destruct (Rlt_dec 0 (fst a0)); reflexivity. }
  rewrite (filter_ext _ _ Hq).
  apply eq_trans
    with (y := Rsum (map (fun x => M (abs_of x))
                         (filter (fun a0 => Rltb 0 (fst a0)) (Rindexed nz)))).
  - apply Rsum_perm, Permutation_map, Permutation_filter_keep, RbyAbs_perm.
  - unfold RwPlus.
    replace (filter (fun d => Rltb 0 d) nz)
      with (filter (fun d => Rltb 0 d) (map fst (Rindexed nz)))
      by now rewrite Rindexed_fst.
    rewrite filter_map_swap, map_map.
    f_equal. apply map_ext. intros a0. unfold M, abs_of.
    apply Rmidrank_perm. apply RbyAbs_values.
Qed.

(** Three differences in a chain: each absolute value is within [1e-10]
    of the next, the last is not within [1e-10] of the first. *)
Definition chain_a : list R := [1; 0; 1 + 12 / 100000000000]%R.
Definition chain_b : list R := [0; 1 + 6 / 100000000000; 0]%R.

Lemma Rnonzero_chain :
  Rnonzero chain_a chain_b
  = [1 - 0; 0 - (1 + 6 / 100000000000); 1 + 12 / 100000000000 - 0]%R.
Proof.
  unfold Rnonzero, Rdiffs, chain_a, chain_b. cbn [combine map fst snd].
  repeat (cbn [filter]; rewrite Rltb_true
            by (unfold Reps, Rabs; destruct (Rcase_abs _); lra)).
  reflexivity.
Qed.

(** Deciding comparisons of concrete reals, and evaluating the code on
    them. *)
Ltac Rside :=
  unfold abs_of, Reps; cbn [fst snd]; unfold Rabs;
  repeat match goal with |- context [Rcase_abs ?e] => destruct (Rcase_abs e) end; lra.

Ltac Rbools :=
  repeat first [ rewrite Rltb_true by Rside | rewrite Rltb_false by Rside
               | rewrite Rleb_true by Rside | rewrite Rleb_false by Rside ].

Ltac ideal_eval :=
  repeat progress
    (cbn [insert_by tie_run assign_ranks map firstn skipn app it_val it_item it_rank
          it_sign filter fold_left item_of Ritem fst snd];
     unfold zero, one, two;
     rewrite ?ideal_eps, ?ideal_ofnat;
     cbn [jnan ofZ jadd jsub jmul jdiv jneg jsqrt jabs jexp jltb jleb IdealNum];
     autorewrite with ideal;
     Rbools).

Lemma RbyAbs_chain :
  RbyAbs [1 - 0; 0 - (1 + 6 / 100000000000); 1 + 12 / 100000000000 - 0]%R
  = [((1 - 0)%R, 0%nat); ((0 - (1 + 6 / 100000000000))%R, 1%nat);
     ((1 + 12 / 100000000000 - 0)%R, 2%nat)].
Proof.
  unfold RbyAbs, Rindexed, mapi. cbn [mapi_from sort_by fold_right].
  ideal_eval. reflexivity.
Qed.

Lemma RwPlus_chain :
  RwPlus [1 - 0; 0 - (1 + 6 / 100000000000); 1 + 12 / 100000000000 - 0]%R = 4%R.
Proof.
  unfold RwPlus. cbn [filter map]. Rbools. cbn [map Rsum fold_right].
  unfold Rmidrank, Rbelow, Rtied_with. cbn [filter]. Rbools.
  cbn [length INR]. lra.
Qed.

Section ChainExample.

Local Existing Instance Float64.


End ChainExample.


(** The differences 3, -1 and 2 of a = [3; 0; 2], b = [0; 1; 0]. *)
Lemma Rnonzero_mixed : Rnonzero [3; 0; 2]%R [0; 1; 0]%R = [3 - 0; 0 - 1; 2 - 0]%R.
Proof.
  unfold Rnonzero, Rdiffs. cbn [combine map fst snd].
  repeat (cbn [filter]; rewrite Rltb_true
            by (unfold Reps, Rabs; destruct (Rcase_abs _); lra)).
  reflexivity.
Qed.

Lemma tie_groups_mixed : tie_groups (map Rabs [3 - 0; 0 - 1; 2 - 0]%R).
Proof.
  assert (E : map Rabs [3 - 0; 0 - 1; 2 - 0]%R = [3; 1; 2]%R).
  { cbn [map]. rewrite (Rabs_right (3 - 0)), (Rabs_left (0 - 1)), (Rabs_right (2 - 0))
      by lra. repeat f_equal; lra. }
  rewrite E. intros x y z Hx Hy Hz Hxy Hyz. cbn [In] in Hx, Hy, Hz.
  unfold Reps in *.
  destruct Hx as [ <- | [ <- | [ <- | [] ] ] ];
    destruct Hy as [ <- | [ <- | [ <- | [] ] ] ];
    destruct Hz as [ <- | [ <- | [ <- | [] ] ] ];
    unfold Rabs in *;
    repeat match goal with
           | H : context [Rcase_abs ?e] |- _ => destruct (Rcase_abs e)
           | |- context [Rcase_abs ?e] => destruct (Rcase_abs e)
           end; lra.
Qed.

(** The midranks of 3 and 2 among 3, 1, 2 are 3 and 2. *)
Lemma RwPlus_mixed : RwPlus [3 - 0; 0 - 1; 2 - 0]%R = 5%R.
Proof.
  unfold RwPlus. cbn [filter map]. Rbools. cbn [map Rsum fold_right].
  unfold Rmidrank, Rbelow, Rtied_with. cbn [filter]. Rbools.
  cbn [length INR]. lra.
Qed.


(** ** The p-values *)

Lemma ideal_div_by_zero (a b : R) :
  a <> 0%R -> b = 0%R -> ideal_div (IFin a) (IFin b) = IInf (Rltb a 0).
Proof.
  intros Ha Hb. unfold ideal_div. now rewrite (Rzerob_true Hb), (Rzerob_false Ha).
Qed.

Lemma ideal_mul_inf_pos (s : bool) (q : R) :
  (0 < q)%R -> ideal_mul (IInf s) (IFin q) = IInf s.
Proof.
  intros Hq. unfold ideal_mul. rewrite Rzerob_false by lra.
  rewrite Rltb_false by lra. now destruct s.
Qed.

Lemma ideal_mul_pos_inf (s : bool) (q : R) :
  (0 < q)%R -> ideal_mul (IFin q) (IInf s) = IInf s.
Proof.
  intros Hq. unfold ideal_mul. rewrite Rzerob_false by lra.
  rewrite Rltb_false by lra. now destruct s.
Qed.

(** At +Infinity the tail mass is 0 and the two-tailed expression is 0. *)
Lemma ideal_two_tailed_inf : two_tailed (IInf false) = IFin 0.
Proof.
  unfold two_tailed, normalCDF, normalCDF_prob. ideal_lits. unfold one, two, zero.
  cbn [jnan ofZ jadd jsub jmul jdiv jneg jsqrt jabs jexp jltb jleb IdealNum].
  change (ideal_abs (IInf false)) with (IInf false).
  change (ideal_neg (IInf false)) with (IInf true).
  rewrite ideal_mul_pos_inf by lra.
  change (ideal_mul (IInf true) (IInf false)) with (IInf true).
  change (ideal_add (IFin 1) (IInf false)) with (IInf false).
  change (ideal_div (IFin 1) (IInf false)) with (IFin 0).
  change (ideal_div (IInf true) (IFin 2)) with (IInf (xorb true (Rltb 2 0))).
  rewrite Rltb_false by lra. cbn [xorb].
  change (ideal_exp (IInf true)) with (IFin 0).
  change (ideal_leb (IFin 0) (IInf false)) with true. cbn iota.
  autorewrite with ideal. f_equal. lra.
Qed.

Lemma ideal_two_tailed_nan : two_tailed INaN = INaN.
Proof.
  unfold two_tailed, normalCDF, normalCDF_prob. ideal_lits. unfold one, two, zero.
  ideal_ops. reflexivity.
Qed.

(** The p-value of the paired t-test on real series of one length n, by
    cases: with n >= 2 and a non-zero difference it is a number in [0, 1]
    (0 when the differences are all equal, t being infinite); with fewer
    than two pairs, or no non-zero difference, it is NaN. *)
Lemma ideal_pairedTTest_p (a b : list R) :
  length a = length b ->
  ((2 <= length a)%nat -> (exists v, In v (Rdiffs a b) /\ v <> 0%R) ->
   in_unit_interval (tt_p (pairedTTest (fin a) (fin b))))
  /\ ((length a < 2)%nat \/ (forall v, In v (Rdiffs a b) -> v = 0%R) ->
      tt_p (pairedTTest (fin a) (fin b)) = INaN).
Proof.
  intros Hlen. set (d := Rdiffs a b).
  assert (Hd : length d = length a) by (apply Rdiffs_length; exact Hlen).
  unfold pairedTTest. cbn [tt_p]. rewrite (ideal_diffs_of _ _ Hlen). fold d.
  rewrite ideal_len, length_map, Hd.
  destruct (Nat.eq_dec (length a) 0) as [ E0 | E0 ].
  { (* no pair: the mean is 0/0 *)
    split; [ lia | ]. intros _.
    assert (Ed : d = []) by (destruct d; [ reflexivity | cbn in Hd; lia ]).
    rewrite Ed, E0. unfold mean, sumsq_dev, len, one, zero.
    cbn [map fold_left length Z.of_nat INR]. ideal_ops.
    rewrite ideal_div_zero_zero by reflexivity. ideal_ops.
    apply ideal_two_tailed_nan. }
  assert (Hne : d <> []) by (intros E; rewrite E in Hd; cbn in Hd; lia).
  assert (Hn1 : (1 <= INR (length a))%R).
  { change 1%R with (INR 1). apply le_INR. lia. }
  rewrite (ideal_mean Hne). fold (Rmean d). rewrite ideal_sumsq_dev.
  set (n := INR (length a)) in *. set (m := Rmean d). set (SS := Rsumsq m d).
  assert (HSS : (0 <= SS)%R) by apply Rsumsq_nonneg.
  unfold one. ideal_ops.
  assert (Hsn : (0 < sqrt n)%R) by (apply sqrt_lt_R0; lra).
  destruct (Nat.eq_dec (length a) 1) as [ E1 | E1 ].
  { (* one pair: 0/0 under the root *)
    split; [ lia | ]. intros _.
    assert (Hn : n = 1%R) by (unfold n; rewrite E1; reflexivity).
    assert (HS0 : SS = 0%R).
    { destruct d as [ | x [ | y d' ] ]; try (cbn in Hd; lia).
      unfold SS, m, Rsumsq, Rmean, Rsum. cbn [map fold_right length INR]. field. }
    rewrite ideal_div_zero_zero by lra. ideal_ops.
    apply ideal_two_tailed_nan. }
  assert (Hn2 : (2 <= n)%R).
  { unfold n. change 2%R with (INR 2). apply le_INR. lia. }
  assert (Hq : (0 < n / (n - 1))%R).
  { apply Rmult_lt_0_compat; [ lra | ]. apply Rinv_0_lt_compat. lra. }
  assert (Hsq : (0 < sqrt (n / (n - 1)))%R) by now apply sqrt_lt_R0.
  rewrite (ideal_div_fin SS) by lra.
  rewrite ideal_sqrt_fin
    by (apply Rmult_le_pos; [ exact HSS | apply Rlt_le, Rinv_0_lt_compat; lra ]).
  rewrite (ideal_sqrt_fin (a := n)) by lra.
  rewrite (ideal_div_fin (sqrt (SS / (n - 1)))) by lra.
  rewrite (ideal_div_fin n) by lra.
  rewrite (ideal_sqrt_fin (a := (n / (n - 1))%R)) by lra.
  destruct (Rle_lt_or_eq_dec _ _ HSS) as [ Hpos | Hz ].
  - (* the differences are not all equal: t is a real number *)
    assert (Hs1 : (0 < sqrt (SS / (n - 1)))%R).
    { apply sqrt_lt_R0. apply Rmult_lt_0_compat; [ exact Hpos | ].
      apply Rinv_0_lt_compat. lra. }
    assert (Hden : (0 < sqrt (SS / (n - 1)) / sqrt n)%R).
    { apply Rmult_lt_0_compat; [ exact Hs1 | now apply Rinv_0_lt_compat ]. }
    rewrite ideal_div_fin by lra. ideal_ops.
    split.
    + intros _ _.
      assert (Hs : (0 <= Rabs (m / (sqrt (SS / (n - 1)) / sqrt n)) * sqrt (n / (n - 1)))%R).
      { apply Rmult_le_pos; [ apply Rabs_pos | apply sqrt_pos ]. }
      destruct (ideal_two_tailed Hs) as [E B].
      eexists. split; [ exact E | exact B ].
    + intros [ Hlt | Hall ]; [ lia | ].
      exfalso. assert (Hm0 : m = 0%R).
      { unfold m, Rmean. rewrite (@Rsum_all_equal 0%R d Hall), Hd. fold n. field. lra. }
      assert (SS = 0%R); [ | lra ].
      unfold SS. rewrite Hm0. now apply Rsumsq_all_equal.
  - (* all differences equal [m]: the standard deviation is 0 *)
    assert (Hc : forall v, In v d -> v = m).
    { intros v Hv. apply (Rsumsq_zero m d); [ fold SS; lra | exact Hv ]. }
    assert (Hden : (sqrt (SS / (n - 1)) / sqrt n = 0)%R).
    { rewrite <- Hz. unfold Rdiv. rewrite Rmult_0_l, sqrt_0. apply Rmult_0_l. }
    split.
    + intros _ [v [Hv Hv0]].
      assert (Hm0 : m <> 0%R) by (rewrite <- (Hc v Hv); exact Hv0).
      rewrite (ideal_div_by_zero Hm0 Hden).
      change (ideal_abs (IInf (Rltb m 0))) with (IInf false).
      rewrite ideal_mul_inf_pos by exact Hsq.
      rewrite ideal_two_tailed_inf. exists 0%R. split; [ reflexivity | lra ].
    + intros [ Hlt | Hall ]; [ lia | ].
      assert (Hm0 : m = 0%R).
      { unfold m, Rmean. rewrite (@Rsum_all_equal 0%R d Hall), Hd. fold n. field. lra. }
      rewrite ideal_div_zero_zero by assumption. ideal_ops.
      apply ideal_two_tailed_nan.
Qed.

Section PValueExample.

Local Existing Instance Float64.

(** C10, counterexample: on binary64 the two series [7, 9] and [7, 9]
    give t = 0/0, and the p-value of the paired t-test is NaN, neither at
    least 0 nor at most 1. *)
Lemma C10_identical_series_p_is_nan :
  let p := tt_p (pairedTTest (floats [7; 9]%Z) (floats [7; 9]%Z)) in
  is_nan p = true /\ (zero <=? p)%js = false /\ (p <=? one)%js = false.
Proof. repeat split; vm_compute; reflexivity. Qed.

End PValueExample.

(** C10, as the code has it, on exact real arithmetic: at every real the
    normal-CDF approximation returns a number in [0, 1], and so does
    2 * (1 - normalCDF(|s|)); the p-value of [wilcoxonSignedRank] is in
    [0, 1] on all real series of one length; the p-value of [pairedTTest]
    is in [0, 1] when there are at least two pairs and a non-zero
    difference, and is NaN otherwise, with fewer than two pairs or with no
    non-zero difference (t = 0/0). *)
Theorem C10_p_values_in_unit_interval
    (x : R) (a b : list R) (Hlen : length a = length b) :
  in_unit_interval (normalCDF (IFin x))
  /\ in_unit_interval (two_tailed (jabs (IFin x)))
  /\ (exists w, wilcoxonSignedRank (fin a) (fin b) = Some w
                /\ in_unit_interval (w_p w))
  /\ ((2 <= length a)%nat -> (exists v, In v (Rdiffs a b) /\ v <> 0%R) ->
      in_unit_interval (tt_p (pairedTTest (fin a) (fin b))))
  /\ ((length a < 2)%nat \/ (forall v, In v (Rdiffs a b) -> v = 0%R) ->
      tt_p (pairedTTest (fin a) (fin b)) = INaN).
Proof.
  split; [ | split; [ | split ] ].
  - eexists. split; [ apply ideal_normalCDF | apply RnormalCDF_bounds ].
  - ideal_ops. destruct (ideal_two_tailed (Rabs_pos x)) as [E B].
    eexists. split; [ exact E | exact B ].
  - destruct (ideal_wilcoxon_returns a b Hlen) as [w [Hw [_ [H0 H1]]]].
    exists w. split; [ exact Hw | ].
    destruct (length (Rnonzero a b)) as [ | k ] eqn:E.
    + rewrite (H0 eq_refl). cbn [w_p]. exists 1%R. split; [ reflexivity | lra ].
    + destruct (H1 ltac:(lia)) as [wPlus [_ [Hz [Hp _]]]].
      rewrite Hp, Hz. ideal_ops.
      destruct (ideal_two_tailed (Rabs_pos (Rwilcoxon_z wPlus (S k)))) as [E' B].
      eexists. split; [ exact E' | exact B ].
  - exact (ideal_pairedTTest_p a b Hlen).
Qed.

(** The theorem at x = 0 and at the series [3, 5] and [1, 1], whose
    differences 2 and 4 are not zero. *)
Lemma C10_p_values_witness :
  length [3; 5]%R = length [1; 1]%R
  /\ in_unit_interval (normalCDF (IFin 0))
  /\ in_unit_interval (tt_p (pairedTTest (fin [3; 5]%R) (fin [1; 1]%R))).
Proof.
  split; [ reflexivity | ].
  destruct (@C10_p_values_in_unit_interval 0 [3; 5]%R [1; 1]%R eq_refl)
    as [H1 [_ [_ [H2 _]]]].
  split; [ exact H1 | ].
  apply H2; [ apply le_n | ].
  exists (3 - 1)%R. split; [ now left | lra ].
Defined.

(** * Further properties of the code *)

(** ** The record aggregator: participants and conditions *)

Lemma distinct_step_NoDup {A : Type} (eqb : A -> A -> bool)
    (eqb_eq : forall a b, eqb a b = true <-> a = b) (l acc : list A) :
  NoDup acc ->
  NoDup (fold_left (fun acc x => if existsb (eqb x) acc then acc else acc ++ [x]) l acc).
Proof.
  revert acc. induction l as [ | y l IH ]; intros acc Hacc; cbn [fold_left];
    [ exact Hacc | ].
  apply IH. destruct (existsb (eqb y) acc) eqn:E; [ exact Hacc | ].
  apply NoDup_app; [ exact Hacc | repeat constructor; intros [] | ].
  intros x Hx [ E' | [] ]. subst x.
  assert (existsb (eqb y) acc = true); [ | congruence ].
  apply existsb_exists. exists y. split; [ exact Hx | now apply eqb_eq ].
Qed.

Lemma distinct_NoDup {A : Type} (eqb : A -> A -> bool)
    (eqb_eq : forall a b, eqb a b = true <-> a = b) (l : list A) :
  NoDup (distinct eqb l).
Proof. apply distinct_step_NoDup; [ exact eqb_eq | constructor ]. Qed.

Section AggregatorRecords.

Context {F : Type} {num : JSNumber F}.
Local Open Scope string_scope.

(** [processedData] holds exactly one record for each participant that
    occurs in the raw table, and none for anybody else; without a table it
    is empty. *)
Theorem processedData_one_record_per_participant (raw : list (TrialRow F)) :
  NoDup (map (@participant F) (processedData (Some raw)))
  /\ (forall p, In p (map (@participant F) (processedData (Some raw)))
                <-> In p (map (@row_participant F) raw))
  /\ processedData (None : option (list (TrialRow F))) = [].
Proof.
  unfold processedData. rewrite map_map. cbn [process_participant participant].
  rewrite map_id. split; [ | split ].
  - apply distinct_NoDup, String.eqb_eq.
  - intros p. apply distinct_In, String.eqb_eq.
  - reflexivity.
Qed.

(** Every record carries one entry per condition of the table, in the
    same order for all participants, and the entry of a condition in which
    the participant has no row is the zero entry: aggregate 0, every
    category 0, scale factor 1, total 0. *)
Theorem processedData_conditions (raw : list (TrialRow F)) (r : ProcessedRow F)
    (Hr : In r (processedData (Some raw))) :
  map fst (conds r) = distinct String.eqb (map (@row_condition F) raw)
  /\ (forall c e, In (c, e) (conds r) ->
        e = aggregate (rows_of raw (participant r) c))
  /\ (forall c, In c (map (@row_condition F) raw) ->
        rows_of raw (participant r) c = [] ->
        lookup (conds r) c
        = Some {| ce_value := zero;
                  ce_normalized :=
                    {| angry := zero; disgusted := zero; fearful := zero;
                       happy := zero; neutral := zero; sad := zero;
                       surprised := zero |};
                  ce_scaleFactor := Some one; ce_totalSum := Some zero |}).
Proof.
  unfold processedData in Hr. apply in_map_iff in Hr. destruct Hr as [p [<- _]].
  cbn [process_participant conds participant]. split; [ | split ].
  - rewrite map_map. cbn [fst]. apply map_id.
  - intros c e H. apply in_map_iff in H. destruct H as [c' [E _]].
    injection E as <- <-. reflexivity.
  - intros c Hc Hrows.
    rewrite (lookup_map_key (fun c => aggregate (rows_of raw p c))).
    destruct (in_dec string_dec c (distinct String.eqb (map (@row_condition F) raw)))
      as [ _ | n ].
    + now rewrite Hrows.
    + exfalso. apply n. apply distinct_In; [ apply String.eqb_eq | exact Hc ].
Qed.

End AggregatorRecords.

(** The theorem at the second participant of [four_participants]. *)
Lemma processedData_conditions_witness :
  let pd := @processedData float Float64 (Some four_participants) in
  let r := nth 1 pd {| participant := ""; conds := []; delta := float_ofZ 0 |} in
  In r pd /\ map fst (conds r) = ["C1"%string; "C2"%string].
Proof.
  intros pd r.
  assert (Hin : In r pd) by (vm_compute; right; left; reflexivity).
  split; [ exact Hin | ].
  destruct (@processedData_conditions float Float64 four_participants r Hin) as [H _].
  rewrite H. vm_compute. reflexivity.
Defined.

(** ** The record aggregator: normalisation of raw seconds *)

(** A finite number that is not negative. *)
Definition nonneg_fin (x : ideal) : Prop := exists v, x = IFin v /\ (0 <= v)%R.

Definition nonneg_cells (rows : list (TrialRow ideal)) : Prop :=
  Forall (fun r => Forall (fun kv : string * ideal => nonneg_fin (snd kv)) (row_cells r))
         rows.

Lemma lookup_Forall {A : Type} (P : A -> Prop) (cells : list (string * A))
    (col : string) (v : A) :
  Forall (fun kv => P (snd kv)) cells -> lookup cells col = Some v -> P v.
Proof.
  induction 1 as [ | [k w] cells Hw _ IH ]; cbn [lookup]; [ discriminate | ].
  destruct (String.eqb k col); [ | exact IH ].
  intros E. injection E as <-. exact Hw.
Qed.

Lemma nonneg_fin_zero : nonneg_fin zero.
Proof. exists 0%R. split; [ reflexivity | lra ]. Qed.

Lemma cell_or_zero_nonneg (r : TrialRow ideal) (col : string) :
  Forall (fun kv : string * ideal => nonneg_fin (snd kv)) (row_cells r) ->
  nonneg_fin (cell_or_zero r col).
Proof.
  intros H. unfold cell_or_zero.
  destruct (lookup (row_cells r) col) eqn:E1;
    [ exact (lookup_Forall _ _ H E1) | ].
  destruct (lookup (row_cells r) (toLowerCase col)) eqn:E2;
    [ exact (lookup_Forall _ _ H E2) | apply nonneg_fin_zero ].
Qed.

(** The average of a column over finite non-negative cells is a finite
    non-negative number. *)
Lemma avg_nonneg (rows : list (TrialRow ideal)) (col : string) :
  rows <> [] -> nonneg_cells rows -> nonneg_fin (avg rows col).
Proof.
  intros Hne Hc. unfold avg, zero. rewrite ideal_len.
  change (@ofZ ideal IdealNum 0%Z) with (IFin 0).
  rewrite (ideal_fold_fin _ (fun r => fin_val (cell_or_zero r col))).
  - assert (Hn : (0 < INR (length rows))%R).
    { destruct rows; [ contradiction | ]. apply lt_0_INR. cbn. lia. }
    ideal_ops. rewrite ideal_div_fin by lra.
    eexists. split; [ reflexivity | ].
    apply Rmult_le_pos; [ | apply Rlt_le, Rinv_0_lt_compat; exact Hn ].
    assert (0 <= Rsum (map (fun r => fin_val (cell_or_zero r col)) rows))%R; [ | lra ].
    apply Rsum_nonneg. apply Forall_forall. intros v Hv.
    apply in_map_iff in Hv. destruct Hv as [r [<- Hr]].
    unfold nonneg_cells in Hc. rewrite Forall_forall in Hc.
    destruct (cell_or_zero_nonneg r col (Hc r Hr)) as [w [-> Hw]]. exact Hw.
  - intros s r Hr. unfold nonneg_cells in Hc. rewrite Forall_forall in Hc.
    destruct (cell_or_zero_nonneg r col (Hc r Hr)) as [w [-> Hw]]. now ideal_ops.
Qed.

Lemma jor_nonneg (a b : ideal) : nonneg_fin a -> nonneg_fin b -> nonneg_fin (jor a b).
Proof. intros Ha Hb. unfold jor. now destruct (truthy a). Qed.

Definition normalized_sum (n : Normalized ideal) : ideal :=
  (angry n + disgusted n + fearful n + happy n + neutral n + sad n + surprised n)%js.

(** One row of raw seconds whose rescaling rounds upwards on binary64. *)
Definition raw_seconds_rounding_row : TrialRow float :=
  {| row_participant := "P1"; row_condition := "C1";
     row_cells := [("Angry"%string, float_ofZ 2); ("Happy"%string, float_ofZ 16);
                   ("Sad"%string, float_ofZ 13)] |}.

(** Raw seconds (no normalised column on the first row), finite and not
    negative, on exact real arithmetic: the averages are rescaled so that
    the seven categories add up to the 120 s window whenever their total is
    positive, and the aggregate is then a percentage between 0 and 100;
    with a zero total the scale is 1 and everything stays 0.  On binary64
    the bounds hold up to rounding only: one row with Angry = 2,
    Happy = 16, Sad = 13 gets an aggregate above 100. *)
Theorem aggregate_raw_seconds_budget
    (row0 : TrialRow ideal) (rest : list (TrialRow ideal))
    (Hcells : nonneg_cells (row0 :: rest))
    (Hraw : has_col row0 "Angry (seconds)_norm" = false
            /\ has_col row0 "Angry_norm" = false
            /\ has_col row0 "angry" = false) :
  let e := aggregate (row0 :: rest) in
  (exists T s v,
     ce_totalSum e = Some (IFin T)
     /\ ce_scaleFactor e = Some (IFin s)
     /\ ce_value e = IFin v
     /\ normalized_sum (ce_normalized e) = IFin (T * s)
     /\ ((0 < T)%R -> s = (120 / T)%R /\ (T * s = 120)%R /\ (0 <= v <= 100)%R)
     /\ ((T <= 0)%R -> s = 1%R /\ T = 0%R /\ v = 0%R))
  /\ @jltb float Float64 (float_ofZ 100)
       (ce_value (@aggregate float Float64 [raw_seconds_rounding_row])) = true.
Proof.
  intros e. split; [ | vm_compute; reflexivity ].
  destruct Hraw as [H1 [H2 H3]].
  assert (Hne : row0 :: rest <> []) by discriminate.
  assert (Hr : forall a b, nonneg_fin (jor (jor (avg (row0 :: rest) a)
                                                (avg (row0 :: rest) b)) zero)).
  { intros a b. apply jor_nonneg; [ apply jor_nonneg | apply nonneg_fin_zero ];
      now apply avg_nonneg. }
  unfold e, aggregate. rewrite H1, H2, H3. cbn [orb]. cbv zeta.
  destruct (Hr "Angry"%string "angry"%string) as [a1 [-> P1]].
  destruct (Hr "Disgusted"%string "disgusted"%string) as [a2 [-> P2]].
  destruct (Hr "Fearful"%string "fearful"%string) as [a3 [-> P3]].
  destruct (Hr "Happy"%string "happy"%string) as [a4 [-> P4]].
  destruct (Hr "Neutral"%string "neutral"%string) as [a5 [-> P5]].
  destruct (Hr "Sad"%string "sad"%string) as [a6 [-> P6]].
  destruct (Hr "Surprised"%string "surprised"%string) as [a7 [-> P7]].
  cbn [ce_totalSum ce_scaleFactor ce_value ce_normalized].
  unfold nonNeutralPercent, normalized_sum, zero, one.
  cbn [angry disgusted fearful happy neutral sad surprised].
  ideal_ops. set (T := (a1 + a2 + a3 + a4 + a5 + a6 + a7)%R).
  unfold Rltb. destruct (Rlt_dec 0 T) as [ Hpos | Hnp ].
  - rewrite ideal_div_fin by lra. ideal_ops.
    rewrite !ideal_div_fin by lra. ideal_ops.
    exists T, (120 / T)%R. eexists.
    split; [ reflexivity | ]. split; [ reflexivity | ]. split; [ reflexivity | ].
    split; [ f_equal; unfold T; ring | ].
    split; [ | intros; lra ].
    intros _. split; [ reflexivity | ]. split; [ field; lra | ].
    assert (Hi : (0 < / T)%R) by now apply Rinv_0_lt_compat.
    set (N := (a1 + a2 + a3 + a4 + a6 + a7)%R).
    assert (HN : (0 <= N <= T)%R) by (unfold N, T; lra).
    replace ((a1 * (120 / T) + a2 * (120 / T) + a3 * (120 / T) + a4 * (120 / T)
              + a6 * (120 / T) + a7 * (120 / T)) / 120 * 100)%R
      with (100 * (N * / T))%R by (unfold N; field; lra).
    assert (Hq : (0 <= N * / T <= 1)%R).
    { split; [ apply Rmult_le_pos; lra | ].
      apply Rmult_le_reg_r with T; [ exact Hpos | ].
      rewrite Rmult_assoc, Rinv_l by lra. lra. }
    lra.
  - ideal_ops. rewrite !ideal_div_fin by lra. ideal_ops.
    exists T, 1%R. eexists.
    split; [ reflexivity | ]. split; [ reflexivity | ]. split; [ reflexivity | ].
    split; [ f_equal; unfold T; ring | ].
    split; [ intros; lra | ].
    intros _. split; [ reflexivity | ].
    assert (HT : T = 0%R) by (unfold T in *; lra).
    split; [ exact HT | ].
    assert (a1 = 0 /\ a2 = 0 /\ a3 = 0 /\ a4 = 0 /\ a6 = 0 /\ a7 = 0)%R
      as [-> [-> [-> [-> [-> ->]]]]] by (unfold T in HT; repeat split; lra).
    field.
Qed.

(** The theorem at one row with 30 s angry and 30 s neutral. *)
Definition raw_seconds_row : TrialRow ideal :=
  {| row_participant := "P1"; row_condition := "C1";
     row_cells := [("Angry"%string, IFin 30); ("Neutral"%string, IFin 30)] |}.

Lemma aggregate_raw_seconds_witness :
  nonneg_cells [raw_seconds_row]
  /\ (has_col raw_seconds_row "Angry (seconds)_norm" = false
      /\ has_col raw_seconds_row "Angry_norm" = false
      /\ has_col raw_seconds_row "angry" = false)
  /\ exists T s v,
       ce_totalSum (aggregate [raw_seconds_row]) = Some (IFin T)
       /\ ce_scaleFactor (aggregate [raw_seconds_row]) = Some (IFin s)
       /\ ce_value (aggregate [raw_seconds_row]) = IFin v.
Proof.
  assert (Hc : nonneg_cells [raw_seconds_row]).
  { repeat constructor; cbn [snd]; eexists; (split; [ reflexivity | lra ]). }
  assert (Hr : has_col raw_seconds_row "Angry (seconds)_norm" = false
               /\ has_col raw_seconds_row "Angry_norm" = false
               /\ has_col raw_seconds_row "angry" = false)
    by (repeat split; reflexivity).
  split; [ exact Hc | ]. split; [ exact Hr | ].
  destruct (@aggregate_raw_seconds_budget raw_seconds_row [] Hc Hr)
    as [[T [s [v [H1 [H2 [H3 _]]]]]] _].
  exists T, s, v. repeat split; assumption.
Defined.

(** ** The record aggregator: column aliases *)

Section AliasFacts.

Context {F : Type} {num : JSNumber F}.
Local Open Scope string_scope.

Lemma getCol_loop_spec (row0 : TrialRow F) (names : list string) (first : string) :
  (exists n, In n names
             /\ (has_col row0 n = true \/ has_col row0 (toLowerCase n) = true))
  /\ has_col row0 (getCol_loop row0 names first) = true
  \/ (forall n, In n names ->
                has_col row0 n = false /\ has_col row0 (toLowerCase n) = false)
     /\ getCol_loop row0 names first = first.
Proof.
  induction names as [ | n names IH ]; cbn [getCol_loop].
  - right. split; [ intros n [] | reflexivity ].
  - destruct (has_col row0 n) eqn:E1.
    + left. split; [ exists n; split; [ now left | now left ] | exact E1 ].
    + destruct (has_col row0 (toLowerCase n)) eqn:E2.
      * left. split; [ exists n; split; [ now left | now right ] | exact E2 ].
      * destruct IH as [ [[m [Hm Hc]] Hres] | [Hnone Hres] ].
        -- left. split; [ exists m; split; [ now right | exact Hc ] | exact Hres ].
        -- right. split; [ | exact Hres ].
           intros m [ <- | Hm ]; [ now split | now apply Hnone ].
Qed.

(** The column a category is read from: the first alias that is a column
    of the first row, as spelled or in lower case; when no alias is, the
    first alias itself. *)
Theorem getCol_resolves (row0 : TrialRow F) (names : list string) :
  ((exists n, In n names
              /\ (has_col row0 n = true \/ has_col row0 (toLowerCase n) = true))
   -> has_col row0 (getCol row0 names) = true)
  /\ ((forall n, In n names ->
                 has_col row0 n = false /\ has_col row0 (toLowerCase n) = false)
      -> getCol row0 names = hd "" names).
Proof.
  unfold getCol.
  destruct (getCol_loop_spec row0 names (hd "" names))
    as [ [[m [Hm Hc]] Hres] | [Hnone Hres] ]; split.
  - intros _. exact Hres.
  - intros Hall. destruct (Hall m Hm) as [H1 H2]. destruct Hc; congruence.
  - intros [m [Hm Hc]]. destruct (Hnone m Hm) as [H1 H2]. destruct Hc; congruence.
  - intros _. exact Hres.
Qed.

End AliasFacts.

Lemma toLowerCase_idempotent (s : string) : toLowerCase (toLowerCase s) = toLowerCase s.
Proof.
  induction s as [ | c s IH ]; [ reflexivity | ].
  cbn [toLowerCase]. rewrite IH. f_equal.
  unfold lower_ascii at 1.
  destruct ((65 <=? nat_of_ascii (lower_ascii c))%nat
            && (nat_of_ascii (lower_ascii c) <=? 90)%nat) eqn:E; [ | reflexivity ].
  exfalso. apply andb_prop in E. destruct E as [E1 E2].
  apply Nat.leb_le in E1. apply Nat.leb_le in E2.
  unfold lower_ascii in E1, E2.
  destruct ((65 <=? nat_of_ascii c)%nat && (nat_of_ascii c <=? 90)%nat) eqn:E3.
  - apply andb_prop in E3. destruct E3 as [E4 E5].
    apply Nat.leb_le in E4. apply Nat.leb_le in E5.
    rewrite nat_ascii_embedding in E1, E2 by lia. lia.
  - apply andb_false_iff in E3. destruct E3 as [E3 | E3];
      apply Nat.leb_gt in E3; lia.
Qed.

(** A column no row has, neither as spelled nor in lower case, averages
    to 0: a missing category is read as zero. *)
Theorem avg_missing_column (rows : list (TrialRow ideal)) (col : string)
    (Hne : rows <> [])
    (Hmiss : forall r, In r rows ->
               has_col r col = false /\ has_col r (toLowerCase col) = false) :
  avg rows col = IFin 0.
Proof.
  unfold avg, zero. rewrite ideal_len.
  change (@ofZ ideal IdealNum 0%Z) with (IFin 0).
  rewrite (ideal_fold_fin _ (fun _ => 0%R)).
  - rewrite Rsum_const. ideal_ops.
    rewrite ideal_div_fin.
    + f_equal. field. destruct rows; [ contradiction | ]. apply not_0_INR. discriminate.
    + destruct rows; [ contradiction | ]. apply not_0_INR. discriminate.
  - intros s r Hr. destruct (Hmiss r Hr) as [H1 H2].
    unfold cell_or_zero, has_col in *.
    destruct (lookup (row_cells r) col); [ discriminate | ].
    destruct (lookup (row_cells r) (toLowerCase col)); [ discriminate | ].
    unfold zero. now ideal_ops.
Qed.

Lemma avg_missing_column_witness :
  [raw_seconds_row] <> []
  /\ avg [raw_seconds_row] "Happy" = IFin 0.
Proof.
  assert (Hne : [raw_seconds_row] <> []) by discriminate.
  split; [ exact Hne | ].
  apply (@avg_missing_column [raw_seconds_row] "Happy"%string Hne).
  intros r [ <- | [] ]. split; reflexivity.
Defined.

(** ** Descriptive statistics on finite series *)

Lemma ideal_std (l : list R) :
  (2 <= length l)%nat ->
  std (fin l) = IFin (sqrt (Rsumsq (Rmean l) l / (INR (length l) - 1)))
  /\ (0 <= Rsumsq (Rmean l) l / (INR (length l) - 1))%R.
Proof.
  intros Hn.
  assert (Hne : l <> []) by (intros E; rewrite E in Hn; cbn in Hn; lia).
  assert (Hn2 : (2 <= INR (length l))%R).
  { change 2%R with (INR 2). now apply le_INR. }
  assert (Hq : (0 <= Rsumsq (Rmean l) l / (INR (length l) - 1))%R).
  { apply Rmult_le_pos; [ apply Rsumsq_nonneg | ].
    apply Rlt_le, Rinv_0_lt_compat. lra. }
  split; [ | exact Hq ].
  unfold std. rewrite (ideal_mean Hne). fold (Rmean l).
  rewrite ideal_sumsq_dev, ideal_len, length_map. unfold one. ideal_ops.
  rewrite ideal_div_fin by lra. now apply ideal_sqrt_fin.
Qed.

(** On exact real arithmetic, for n >= 2 values [std] is a number, not
    negative, and it is 0 exactly when all the values are equal.  On
    binary64 a constant series whose computed mean is not the common
    value has a positive [std]: the mean of [0.1, 0.1, 0.1] is above 0.1
    and the standard deviation is above 0. *)
Theorem std_zero_iff_constant (l : list R) (Hn : (2 <= length l)%nat) :
  (exists s,
     std (fin l) = IFin s /\ (0 <= s)%R
     /\ (s = 0%R <-> forall v w, In v l -> In w l -> v = w))
  /\ (@jltb float Float64 (@lit float Float64 1 1)
        (@mean float Float64
           [@lit float Float64 1 1; @lit float Float64 1 1; @lit float Float64 1 1]) = true
      /\ @jltb float Float64 (@zero float Float64)
           (@std float Float64
              [@lit float Float64 1 1; @lit float Float64 1 1; @lit float Float64 1 1])
         = true).
Proof.
  split; [ | split; vm_compute; reflexivity ].
  destruct (ideal_std l Hn) as [Hs Hq].
  assert (Hn2 : (2 <= INR (length l))%R).
  { change 2%R with (INR 2). now apply le_INR. }
  eexists. split; [ exact Hs | ]. split; [ apply sqrt_pos | ].
  split.
  - intros Hz. apply sqrt_eq_0 in Hz; [ | exact Hq ].
    assert (HSS : Rsumsq (Rmean l) l = 0%R).
    { apply Rmult_integral in Hz. destruct Hz as [ Hz | Hz ]; [ exact Hz | ].
      exfalso. assert (0 < / (INR (length l) - 1))%R by (apply Rinv_0_lt_compat; lra).
      lra. }
    intros v w Hv Hw.
    rewrite (Rsumsq_zero (Rmean l) l) with (v := v) by (lra || assumption).
    rewrite (Rsumsq_zero (Rmean l) l) with (v := w) by (lra || assumption).
    reflexivity.
  - intros Hall.
    destruct l as [ | c l' ] eqn:El; [ cbn in Hn; lia | ]. rewrite <- El in *.
    assert (Hc : forall v, In v l -> v = c).
    { intros v Hv. apply Hall; [ exact Hv | rewrite El; now left ]. }
    assert (Hm : Rmean l = c).
    { unfold Rmean. rewrite (@Rsum_all_equal c l Hc). field. lra. }
    rewrite Hm, (@Rsumsq_all_equal c l Hc).
    unfold Rdiv. rewrite Rmult_0_l. apply sqrt_0.
Qed.

Lemma std_zero_iff_constant_witness :
  (2 <= length [5; 5; 5; 5]%R)%nat
  /\ exists s, std (fin [5; 5; 5; 5]%R) = IFin s /\ s = 0%R.
Proof.
  assert (Hn : (2 <= length [5; 5; 5; 5]%R)%nat) by (cbn; lia).
  split; [ exact Hn | ].
  destruct (@std_zero_iff_constant [5; 5; 5; 5]%R Hn) as [[s [Hs [_ [_ Hz]]]] _].
  exists s. split; [ exact Hs | ].
  apply Hz. intros v w Hv Hw. cbn [In] in Hv, Hw.
  repeat (destruct Hv as [ <- | Hv ]; [ | ]);
    repeat (destruct Hw as [ <- | Hw ]; [ reflexivity | ]); contradiction.
Defined.

Lemma ideal_infinity : infinity = IInf false.
Proof.
  unfold infinity, one, zero. cbn [ofZ jdiv IdealNum]. unfold ideal_div.
  rewrite (Rzerob_true (a := 0%R)) by reflexivity.
  rewrite (Rzerob_false (a := 1%R)) by lra.
  now rewrite Rltb_false by lra.
Qed.

Lemma ideal_is_nan_fin (a : R) : is_nan (IFin a) = false.
Proof. unfold is_nan. ideal_ops. now rewrite Rleb_true by lra. Qed.

Lemma Rfold_min_spec (l : list R) (x : R) :
  In (fold_left Rmin l x) (x :: l)
  /\ forall v, In v (x :: l) -> (fold_left Rmin l x <= v)%R.
Proof.
  revert x. induction l as [ | y l IH ]; intros x; cbn [fold_left].
  - split; [ now left | ]. intros v [ <- | [] ]. lra.
  - destruct (IH (Rmin x y)) as [Hin Hle]. split.
    + destruct Hin as [ E | Hin ]; [ | now right; right ].
      rewrite <- E. unfold Rmin. destruct (Rle_dec x y); [ now left | now right; left ].
    + intros v Hv.
      assert (Hm : (fold_left Rmin l (Rmin x y) <= Rmin x y)%R) by (apply Hle; now left).
      destruct Hv as [ <- | [ <- | Hv ] ].
      * pose proof (Rmin_l x y). lra.
      * pose proof (Rmin_r x y). lra.
      * apply Hle. now right.
Qed.

Lemma Rfold_max_spec (l : list R) (x : R) :
  In (fold_left Rmax l x) (x :: l)
  /\ forall v, In v (x :: l) -> (v <= fold_left Rmax l x)%R.
Proof.
  revert x. induction l as [ | y l IH ]; intros x; cbn [fold_left].
  - split; [ now left | ]. intros v [ <- | [] ]. lra.
  - destruct (IH (Rmax x y)) as [Hin Hle]. split.
    + destruct Hin as [ E | Hin ]; [ | now right; right ].
      rewrite <- E. unfold Rmax. destruct (Rle_dec x y); [ now right; left | now left ].
    + intros v Hv.
      assert (Hm : (Rmax x y <= fold_left Rmax l (Rmax x y))%R) by (apply Hle; now left).
      destruct Hv as [ <- | [ <- | Hv ] ].
      * pose proof (Rmax_l x y). lra.
      * pose proof (Rmax_r x y). lra.
      * apply Hle. now right.
Qed.

Lemma ideal_min_step (l : list R) (m : R) :
  fold_left (fun m v => if is_nan m || is_nan v then jnan
                        else if jltb v m then v
                        else if jltb m v then m
                        else if is_neg_zero v then v else m) (fin l) (IFin m)
  = IFin (fold_left Rmin l m).
Proof.
  revert m. induction l as [ | y l IH ]; intros m; [ reflexivity | ].
  cbn [map fold_left]. rewrite !ideal_is_nan_fin. cbn [orb]. ideal_ops.
  unfold Rltb.
  destruct (Rlt_dec y m) as [ H | H ]; [ | destruct (Rlt_dec m y) as [ H' | H' ];
                                           [ | destruct (is_neg_zero (IFin y)) ] ];
    rewrite IH; f_equal; f_equal; unfold Rmin; destruct (Rle_dec m y); lra.
Qed.

Lemma ideal_max_step (l : list R) (m : R) :
  fold_left (fun m v => if is_nan m || is_nan v then jnan
                        else if jltb m v then v
                        else if jltb v m then m
                        else if is_pos_zero v then v else m) (fin l) (IFin m)
  = IFin (fold_left Rmax l m).
Proof.
  revert m. induction l as [ | y l IH ]; intros m; [ reflexivity | ].
  cbn [map fold_left]. rewrite !ideal_is_nan_fin. cbn [orb]. ideal_ops.
  unfold Rltb.
  destruct (Rlt_dec m y) as [ H | H ]; [ | destruct (Rlt_dec y m) as [ H' | H' ];
                                           [ | destruct (is_pos_zero (IFin y)) ] ];
    rewrite IH; f_equal; f_equal; unfold Rmax; destruct (Rle_dec m y); lra.
Qed.

Lemma ideal_math_min (x : R) (l : list R) :
  math_min (fin (x :: l)) = IFin (fold_left Rmin l x).
Proof.
  unfold math_min. rewrite ideal_infinity. cbn [map fold_left].
  rewrite ideal_is_nan_fin.
  change (is_nan (IInf false)) with false. cbn [orb].
  change (jltb (IFin x) (IInf false)) with true. cbn iota.
  apply ideal_min_step.
Qed.

Lemma ideal_math_max (x : R) (l : list R) :
  math_max (fin (x :: l)) = IFin (fold_left Rmax l x).
Proof.
  unfold math_max. rewrite ideal_infinity. cbn [map fold_left].
  rewrite ideal_is_nan_fin.
  change (jneg (IInf false)) with (IInf true).
  change (is_nan (IInf true)) with false. cbn [orb].
  change (jltb (IInf true) (IFin x)) with true. cbn iota.
  apply ideal_max_step.
Qed.

(** The descriptive statistics of a non-empty series, on exact real
    arithmetic: min and max are values of the series that bound all of it,
    and the mean lies between them.  On binary64 the rounded mean can
    leave that range: for [0.1, 0.1, 0.1] min and max are 0.1 and the mean
    is above the max. *)
Theorem describe_min_mean_max (l : list R) (Hne : l <> []) :
  (exists mn mean mx,
     d_min (describe (fin l)) = IFin mn
     /\ d_mean (describe (fin l)) = IFin mean
     /\ d_max (describe (fin l)) = IFin mx
     /\ In mn l /\ In mx l
     /\ (forall v, In v l -> (mn <= v <= mx)%R)
     /\ (mn <= mean <= mx)%R)
  /\ (let tenths := [@lit float Float64 1 1; @lit float Float64 1 1;
                      @lit float Float64 1 1] in
      d_min (@describe float Float64 tenths) = @lit float Float64 1 1
      /\ d_max (@describe float Float64 tenths) = @lit float Float64 1 1
      /\ @jltb float Float64 (d_max (@describe float Float64 tenths))
           (d_mean (@describe float Float64 tenths)) = true).
Proof.
  split; [ | repeat split; vm_compute; reflexivity ].
  destruct l as [ | x l ]; [ contradiction | ].
  destruct (Rfold_min_spec l x) as [Hmin_in Hmin].
  destruct (Rfold_max_spec l x) as [Hmax_in Hmax].
  exists (fold_left Rmin l x), (Rmean (x :: l)), (fold_left Rmax l x).
  cbn [describe d_min d_mean d_max].
  split; [ apply ideal_math_min | ].
  split; [ now rewrite ideal_mean by discriminate | ].
  split; [ apply ideal_math_max | ].
  split; [ exact Hmin_in | ]. split; [ exact Hmax_in | ].
  split; [ intros v Hv; split; [ now apply Hmin | now apply Hmax ] | ].
  set (mn := fold_left Rmin l x) in *. set (mx := fold_left Rmax l x) in *.
  assert (Hn : (0 < INR (length (x :: l)))%R) by (apply lt_0_INR; cbn; lia).
  assert (Hlo : (INR (length (x :: l)) * mn <= Rsum (x :: l))%R).
  { rewrite <- (Rsum_const mn (x :: l)). rewrite <- (map_id (x :: l)) at 2.
    apply Rsum_le. intros v Hv. now apply Hmin. }
  assert (Hhi : (Rsum (x :: l) <= INR (length (x :: l)) * mx)%R).
  { rewrite <- (Rsum_const mx (x :: l)). rewrite <- (map_id (x :: l)) at 1.
    apply Rsum_le. intros v Hv. now apply Hmax. }
  unfold Rmean, Rdiv. set (n := INR (length (x :: l))) in *.
  assert (Hi : (0 < / n)%R) by now apply Rinv_0_lt_compat.
  split.
  - apply Rmult_le_reg_r with n; [ exact Hn | ].
    rewrite Rmult_assoc, Rinv_l by lra. lra.
  - apply Rmult_le_reg_r with n; [ exact Hn | ].
    rewrite Rmult_assoc, Rinv_l by lra. lra.
Qed.

Lemma describe_min_mean_max_witness :
  [1; 4]%R <> []
  /\ exists mn mean mx,
       d_min (describe (fin [1; 4]%R)) = IFin mn
       /\ d_mean (describe (fin [1; 4]%R)) = IFin mean
       /\ d_max (describe (fin [1; 4]%R)) = IFin mx
       /\ (mn <= mean <= mx)%R.
Proof.
  assert (Hne : [1; 4]%R <> []) by discriminate.
  split; [ exact Hne | ].
  destruct (@describe_min_mean_max [1; 4]%R Hne)
    as [[mn [mean [mx [H1 [H2 [H3 [_ [_ [_ H4]]]]]]]]] _].
  exists mn, mean, mx. repeat split; assumption || apply H4.
Defined.

(** ** The descriptive report and its fallback *)

Section StatsFacts.

Context {F : Type} {num : JSNumber F}.
Local Open Scope string_scope.

(** Where [stats] takes its numbers from.  With at least one participant
    record the aggregated table is never looked at.  With none, a row of
    the table serves for the condition [c] as soon as what it holds under
    the lower-case key [condition] names [c], whatever it holds under
    [Condition]; the report is [null] unless there is such a row for C1
    and for C2, and then the means and the two SDs are the cells of the
    first such rows read through [parseFloat] (which on binary64 turns a
    cell -0 into 0), the mean of Delta is the difference of the two means,
    and everything else is NaN. *)
Theorem stats_sources
    (r : ProcessedRow F) (rows : list (ProcessedRow F))
    (aggregated : list (AggregatedRow F)) :
  stats (r :: rows) (Some aggregated) = stats (r :: rows) None
  /\ (forall (c s : string) (a : AggregatedRow F),
        ag_condition a = Some s -> includes s c = true -> names_condition c a = true)
  /\ (find (names_condition "C1") aggregated = None
      \/ find (names_condition "C2") aggregated = None ->
      stats ([] : list (ProcessedRow F)) (Some aggregated) = null)
  /\ (forall c1 c2,
        find (names_condition "C1") aggregated = Some c1 ->
        find (names_condition "C2") aggregated = Some c2 ->
        exists s,
          stats ([] : list (ProcessedRow F)) (Some aggregated) = value s
          /\ d_mean (st_C1 s)
             = parseFloat (first_cell (ag_cells c1) ["Mean"; "mean"; "Mean (%)"])
          /\ d_mean (st_C2 s) = parseFloat (first_cell (ag_cells c2) ["Mean"; "mean"])
          /\ d_std (st_C1 s) = parseFloat (first_cell (ag_cells c1) ["SD"; "sd"])
          /\ d_std (st_C2 s) = parseFloat (first_cell (ag_cells c2) ["SD"; "sd"])
          /\ d_mean (st_Delta s) = jsub (d_mean (st_C1 s)) (d_mean (st_C2 s))
          /\ d_std (st_Delta s) = jnan
          /\ d_min (st_C1 s) = jnan /\ d_max (st_C1 s) = jnan
          /\ d_min (st_C2 s) = jnan /\ d_max (st_C2 s) = jnan
          /\ d_min (st_Delta s) = jnan /\ d_max (st_Delta s) = jnan)
  /\ @parseFloat float Float64 (PrimFloat.opp (float_ofZ 0)) = float_ofZ 0.
Proof.
  split; [ reflexivity | ]. split; [ | split; [ | split ] ].
  4: { vm_compute. reflexivity. }
  - intros c s a Ha Hs. unfold names_condition. rewrite Ha.
    assert (E : str_or (Some s) "" = s).
    { unfold str_or. destruct (String.eqb s "") eqn:E; [ | reflexivity ].
      apply String.eqb_eq in E. now subst s. }
    rewrite E, Hs. apply orb_true_r.
  - intros H. unfold stats, stats_from_aggregated.
    destruct H as [ H | H ]; rewrite H; [ reflexivity | ].
    destruct (find (names_condition "C1") aggregated); reflexivity.
  - intros c1 c2 H1 H2. unfold stats, stats_from_aggregated. rewrite H1, H2.
    eexists. split; [ reflexivity | ]. cbn. repeat split.
Qed.

End StatsFacts.

(** ** The paired t-test *)


Lemma ideal_cohensD (a b : list R) :
  length a = length b -> (1 <= length a)%nat ->
  let d := Rdiffs a b in
  (0 < Rsumsq (Rmean d) d)%R ->
  cohensD (fin a) (fin b)
  = IFin (Rmean d / sqrt (Rsumsq (Rmean d) d / INR (length a))).
Proof.
  intros Hlen Hn d Hvar.
  assert (Hd : length d = length a) by (apply Rdiffs_length; exact Hlen).
  assert (Hne : d <> []) by (intros E; rewrite E in Hd; cbn in Hd; lia).
  assert (Hn1 : (1 <= INR (length a))%R).
  { change 1%R with (INR 1). now apply le_INR. }
  unfold cohensD. rewrite (ideal_diffs_of _ _ Hlen). fold d.
  rewrite (ideal_mean Hne). fold (Rmean d).
  rewrite ideal_sumsq_dev, ideal_len, length_map, Hd. ideal_ops.
  rewrite ideal_div_fin by lra.
  assert (Hq : (0 < Rsumsq (Rmean d) d / INR (length a))%R).
  { apply Rmult_lt_0_compat; [ exact Hvar | ]. apply Rinv_0_lt_compat. lra. }
  rewrite ideal_sqrt_fin by lra.
  apply ideal_div_fin. apply Rgt_not_eq. now apply sqrt_lt_R0.
Qed.

(** The t-test on real series of one length n >= 2 whose differences are
    not all equal, on exact real arithmetic: the fields are numbers,
    df = n - 1, the standard deviation of the differences is their [std],
    and the statistic is Cohen's d times sqrt(n - 1).  On binary64 the last
    identity holds up to rounding only: for a = [1.1, 2.3, 4.7, 5.2] and
    b = [0.3, 0.7, 0.1, 0.9] the computed t is above the computed
    d * sqrt 3. *)
Theorem pairedTTest_fields
    (a b : list R) (Hlen : length a = length b) (Hn : (2 <= length a)%nat)
    (Hvar : (0 < Rsumsq (Rmean (Rdiffs a b)) (Rdiffs a b))%R) :
  let d := Rdiffs a b in
  let n := INR (length a) in
  let r := pairedTTest (fin a) (fin b) in
  (exists t cd,
     tt_t r = IFin t
     /\ cohensD (fin a) (fin b) = IFin cd
     /\ t = (cd * sqrt (n - 1))%R
     /\ tt_df r = IFin (n - 1)
     /\ tt_meanDiff r = IFin (Rmean d)
     /\ tt_sdDiff r = std (fin d)
     /\ tt_sdDiff r = IFin (sqrt (Rsumsq (Rmean d) d / (n - 1))))
  /\ (let fa := [@lit float Float64 11 1; @lit float Float64 23 1;
                  @lit float Float64 47 1; @lit float Float64 52 1] in
      let fb := [@lit float Float64 3 1; @lit float Float64 7 1;
                  @lit float Float64 1 1; @lit float Float64 9 1] in
      @jltb float Float64
        (@jmul float Float64 (@cohensD float Float64 fa fb)
           (@jsqrt float Float64 (float_ofZ 3)))
        (tt_t (@pairedTTest float Float64 fa fb)) = true).
Proof.
  intros d n r. split; [ | vm_compute; reflexivity ].
  assert (Hd : length d = length a) by (apply Rdiffs_length; exact Hlen).
  assert (Hn2 : (2 <= n)%R).
  { unfold n. change 2%R with (INR 2). now apply le_INR. }
  assert (Hne : d <> []) by (intros E; rewrite E in Hd; cbn in Hd; lia).
  assert (Hd2 : (2 <= length d)%nat) by lia.
  destruct (ideal_std d Hd2) as [Hstd Hq]. rewrite Hd in Hstd, Hq. fold n in Hstd, Hq.
  set (SS := Rsumsq (Rmean d) d) in *.
  assert (Hs1 : (0 < sqrt (SS / (n - 1)))%R).
  { apply sqrt_lt_R0. apply Rmult_lt_0_compat; [ exact Hvar | ].
    apply Rinv_0_lt_compat. lra. }
  assert (Hs2 : (0 < sqrt (SS / n))%R).
  { apply sqrt_lt_R0. apply Rmult_lt_0_compat; [ exact Hvar | ].
    apply Rinv_0_lt_compat. lra. }
  assert (Hsn : (0 < sqrt n)%R) by (apply sqrt_lt_R0; lra).
  assert (Hsn1 : (0 < sqrt (n - 1))%R) by (apply sqrt_lt_R0; lra).
  assert (HsS : (0 < sqrt SS)%R) by now apply sqrt_lt_R0.
  assert (Ht : tt_t r = IFin (Rmean d / (sqrt (SS / (n - 1)) / sqrt n))
               /\ tt_df r = IFin (n - 1)
               /\ tt_meanDiff r = IFin (Rmean d)
               /\ tt_sdDiff r = IFin (sqrt (SS / (n - 1)))).
  { unfold r, pairedTTest. cbn [tt_t tt_df tt_meanDiff tt_sdDiff].
    rewrite (ideal_diffs_of _ _ Hlen). fold d.
    rewrite (ideal_mean Hne). fold (Rmean d).
    rewrite ideal_sumsq_dev, ideal_len, length_map, Hd. fold n SS.
    unfold one. ideal_ops.
    rewrite (ideal_div_fin SS) by lra.
    rewrite ideal_sqrt_fin by exact Hq.
    rewrite (ideal_sqrt_fin (a := n)) by lra.
    rewrite (ideal_div_fin (sqrt (SS / (n - 1)))) by lra.
    rewrite ideal_div_fin.
    - repeat split.
    - apply Rgt_not_eq. apply Rmult_lt_0_compat; [ exact Hs1 | ].
      now apply Rinv_0_lt_compat. }
  destruct Ht as [Ht [Hdf [Hm Hsd]]].
  pose proof (ideal_cohensD a b Hlen ltac:(lia) Hvar) as Hcd.
  fold d n SS in Hcd.
  eexists. eexists. split; [ exact Ht | ]. split; [ exact Hcd | ].
  split.
  - rewrite (sqrt_div_alt SS (n - 1)) by lra.
    rewrite (sqrt_div_alt SS n) by lra.
    assert (E : (sqrt n * sqrt n = n)%R) by (apply sqrt_sqrt; lra).
    assert (E1 : (sqrt (n - 1) * sqrt (n - 1) = n - 1)%R) by (apply sqrt_sqrt; lra).
    field. repeat split; lra.
  - split; [ exact Hdf | ]. split; [ exact Hm | ].
    split; [ now rewrite Hsd, Hstd | exact Hsd ].
Qed.

Lemma pairedTTest_fields_witness :
  length [3; 5]%R = length [1; 1]%R /\ (2 <= length [3; 5]%R)%nat
  /\ (0 < Rsumsq (Rmean (Rdiffs [3; 5]%R [1; 1]%R)) (Rdiffs [3; 5]%R [1; 1]%R))%R
  /\ tt_df (pairedTTest (fin [3; 5]%R) (fin [1; 1]%R)) = IFin (INR 2 - 1).
Proof.
  assert (Hv : (0 < Rsumsq (Rmean (Rdiffs [3; 5]%R [1; 1]%R))
                           (Rdiffs [3; 5]%R [1; 1]%R))%R).
  { unfold Rsumsq, Rmean, Rdiffs, Rsum.
    cbn [combine map fst snd fold_right length INR]. lra. }
  split; [ reflexivity | ]. split; [ apply le_n | ]. split; [ exact Hv | ].
  destruct (@pairedTTest_fields [3; 5]%R [1; 1]%R eq_refl (le_n 2) Hv)
    as [[t [cd [_ [_ [_ [H _]]]]]] _].
  exact H.
Defined.

(** ** Identical series *)

Lemma Rsum_zeros (l : list R) : (forall v, In v l -> v = 0%R) -> Rsum l = 0%R.
Proof. intros H. rewrite (@Rsum_all_equal 0%R l H). lra. Qed.

(** When the two series agree pair by pair (n >= 1) the differences carry
    no information, and the tests answer differently: the t statistic, its
    p-value and Cohen's d are NaN (0/0), Wilcoxon returns
    {W = 0, z = 0, p = 1, n = 0}. *)
Theorem identical_series
    (a b : list R) (Hlen : length a = length b) (Hn : (1 <= length a)%nat)
    (Hsame : forall d, In d (Rdiffs a b) -> d = 0%R) :
  tt_t (pairedTTest (fin a) (fin b)) = INaN
  /\ tt_p (pairedTTest (fin a) (fin b)) = INaN
  /\ cohensD (fin a) (fin b) = INaN
  /\ wilcoxonSignedRank (fin a) (fin b)
     = Some {| w_W := IFin 0; w_z := IFin 0; w_p := IFin 1; w_n := 0 |}.
Proof.
  set (d := Rdiffs a b) in *.
  assert (Hd : length d = length a) by (apply Rdiffs_length; exact Hlen).
  assert (Hne : d <> []) by (intros E; rewrite E in Hd; cbn in Hd; lia).
  assert (Hn1 : (1 <= INR (length a))%R).
  { change 1%R with (INR 1). now apply le_INR. }
  assert (Hm : Rmean d = 0%R).
  { unfold Rmean. rewrite (Rsum_zeros d Hsame). unfold Rdiv. apply Rmult_0_l. }
  assert (HSS : Rsumsq (Rmean d) d = 0%R).
  { rewrite Hm. apply Rsumsq_all_equal. exact Hsame. }
  assert (Ht : tt_t (pairedTTest (fin a) (fin b)) = INaN).
  { unfold pairedTTest. cbn [tt_t]. rewrite (ideal_diffs_of _ _ Hlen). fold d.
    rewrite (ideal_mean Hne). fold (Rmean d).
    rewrite ideal_sumsq_dev, ideal_len, length_map, Hd, HSS, Hm.
    unfold one. ideal_ops.
    destruct (Req_EM_T (INR (length a) - 1) 0) as [ E | E ].
    - rewrite (ideal_div_zero_zero (a := 0%R) (b := (INR (length a) - 1)%R))
        by (reflexivity || exact E).
      now ideal_ops.
    - rewrite (ideal_div_fin 0) by exact E.
      replace (0 / (INR (length a) - 1))%R with 0%R by (field; exact E).
      rewrite ideal_sqrt_fin by lra. rewrite sqrt_0.
      rewrite (ideal_sqrt_fin (a := INR (length a))) by lra.
      assert (0 < sqrt (INR (length a)))%R by (apply sqrt_lt_R0; lra).
      rewrite (ideal_div_fin 0) by lra.
      replace (0 / sqrt (INR (length a)))%R with 0%R by (field; lra).
      now rewrite ideal_div_zero_zero by reflexivity. }
  split; [ exact Ht | ]. split; [ | split ].
  - unfold pairedTTest in *. cbn [tt_t tt_p] in *. rewrite Ht.
    unfold two_tailed, normalCDF, normalCDF_prob. ideal_lits.
    unfold one, two, zero. ideal_ops. reflexivity.
  - unfold cohensD. rewrite (ideal_diffs_of _ _ Hlen). fold d.
    rewrite (ideal_mean Hne). fold (Rmean d).
    rewrite ideal_sumsq_dev, ideal_len, length_map, Hd, HSS, Hm. ideal_ops.
    rewrite (ideal_div_fin 0) by lra.
    replace (0 / INR (length a))%R with 0%R by (field; lra).
    rewrite ideal_sqrt_fin by lra. rewrite sqrt_0.
    now rewrite ideal_div_zero_zero by reflexivity.
  - destruct (ideal_wilcoxon_returns a b Hlen) as [w [Hw [_ [H0 _]]]].
    rewrite Hw. f_equal. apply H0.
    unfold Rnonzero. fold d.
    assert (E : filter (fun x => Rltb Reps (Rabs x)) d = []).
    { clear - Hsame. induction d as [ | x d IH ]; [ reflexivity | ].
      cbn [filter]. rewrite (Hsame x (or_introl eq_refl)).
      rewrite Rabs_R0, Rltb_false by (unfold Reps; lra).
      apply IH. intros v Hv. apply Hsame. now right. }
    now rewrite E.
Qed.

Lemma identical_series_witness :
  length [7; 9]%R = length [7; 9]%R /\ (1 <= length [7; 9]%R)%nat
  /\ cohensD (fin [7; 9]%R) (fin [7; 9]%R) = INaN.
Proof.
  split; [ reflexivity | ]. split; [ cbn; lia | ].
  assert (Hs : forall d, In d (Rdiffs [7; 9]%R [7; 9]%R) -> d = 0%R).
  { intros d Hd. unfold Rdiffs in Hd. cbn [combine map fst snd In] in Hd.
    destruct Hd as [ <- | [ <- | [] ] ]; lra. }
  destruct (@identical_series [7; 9]%R [7; 9]%R eq_refl ltac:(cbn; lia) Hs)
    as [_ [_ [H _]]].
  exact H.
Defined.

(** ** A common shift of both series *)

Lemma Rdiffs_shift (c : R) (a b : list R) :
  Rdiffs (map (fun v => v + c)%R a) (map (fun v => v + c)%R b) = Rdiffs a b.
Proof.
  unfold Rdiffs. revert b. induction a as [ | x a IH ]; intros [ | y b ];
    try reflexivity.
  cbn [map combine fst snd]. f_equal; [ lra | apply IH ].
Qed.

(** The paired tests see the two series only through their differences:
    adding one constant to every value of both series changes none of the
    results of [pairedTTest], [cohensD] and [wilcoxonSignedRank]. *)
Theorem paired_tests_shift_invariant
    (c : R) (a b : list R) (Hlen : length a = length b) :
  let a' := map (fun v => v + c)%R a in
  let b' := map (fun v => v + c)%R b in
  pairedTTest (fin a') (fin b') = pairedTTest (fin a) (fin b)
  /\ cohensD (fin a') (fin b') = cohensD (fin a) (fin b)
  /\ wilcoxonSignedRank (fin a') (fin b') = wilcoxonSignedRank (fin a) (fin b).
Proof.
  intros a' b'.
  assert (E : diffs_of (fin a') (fin b') = diffs_of (fin a) (fin b)).
  { rewrite !ideal_diffs_of by (unfold a', b'; rewrite ?length_map; exact Hlen).
    unfold a', b'. now rewrite Rdiffs_shift. }
  unfold pairedTTest, cohensD, wilcoxonSignedRank. rewrite E. repeat split.
Qed.

Lemma paired_tests_shift_witness :
  length [3; 5]%R = length [1; 1]%R
  /\ cohensD (fin (map (fun v => v + 10)%R [3; 5]%R)) (fin (map (fun v => v + 10)%R [1; 1]%R))
     = cohensD (fin [3; 5]%R) (fin [1; 1]%R).
Proof.
  split; [ reflexivity | ].
  destruct (@paired_tests_shift_invariant 10 [3; 5]%R [1; 1]%R eq_refl) as [_ [H _]].
  exact H.
Defined.

(** ** The range of W+ *)

(** The ranks the loop hands out are at least the rank it starts from. *)
Lemma assign_ranks_lower (fuel : nat) :
  forall (rest : list (WItem ideal)) (rank : R) (ranked : list (WRanked ideal)),
    Forall fin_item rest ->
    assign_ranks fuel rest (IFin rank) = Some ranked ->
    Forall (fun x => (rank <= rank_val x)%R) ranked.
Proof.
  induction fuel as [ | fuel IH ]; intros rest rank ranked Hfin H; [ discriminate | ].
  destruct rest as [ | it0 tl ]; cbn [assign_ranks] in H.
  - injection H as <-. constructor.
  - set (run := tie_run (it_val it0) (it0 :: tl)) in *.
    assert (Hrun1 : (1 <= run)%nat).
    { unfold run. rewrite tie_run_head by now inversion Hfin. lia. }
    assert (Hfin' : Forall fin_item (skipn run (it0 :: tl))).
    { rewrite <- (firstn_skipn run (it0 :: tl)) in Hfin. now apply Forall_app in Hfin. }
    rewrite ideal_ofnat in H. unfold one, two in H.
    cbn [jnan ofZ jadd jsub jmul jdiv IdealNum] in H. autorewrite with ideal in H.
    destruct (assign_ranks fuel (skipn run (it0 :: tl)) (IFin (rank + INR run)))
      as [ tlr | ] eqn:E; [ | discriminate ].
    injection H as <-.
    assert (Hr : (1 <= INR run)%R) by (change 1%R with (INR 1); now apply le_INR).
    apply Forall_app. split.
    + apply Forall_forall. intros x Hx. apply in_map_iff in Hx.
      destruct Hx as [y [<- _]]. unfold rank_val. cbn [it_rank].
      rewrite ideal_div_fin by lra. cbn [fin_val]. lra.
    + specialize (IH _ _ _ Hfin' E).
      eapply Forall_impl; [ | exact IH ]. cbn beta. intros x Hx. lra.
Qed.

Lemma Rsum_filter_le {A : Type} (p : A -> bool) (f : A -> R) (l : list A) :
  Forall (fun x => (0 <= f x)%R) l ->
  (0 <= Rsum (map f (filter p l)) <= Rsum (map f l))%R.
Proof.
  unfold Rsum. induction 1 as [ | x l Hx _ IH ]; cbn [filter map fold_right]; [ lra | ].
  destruct (p x); cbn [map fold_right]; lra.
Qed.

(** On real series of one length, on exact real arithmetic, the test
    returns and W+ is a number between 0 and the whole rank sum n(n+1)/2,
    n the number of kept differences.  On binary64 the test returns
    whenever every difference it keeps is finite; a difference can
    overflow, and then the test does not return: a = [2^1023, 1] and
    b = [-2^1023, 0] have the first difference Infinity, on which the
    ranking loop never ends. *)
Theorem wilcoxon_W_range (a b : list R) (Hlen : length a = length b) :
  (exists w wPlus,
     wilcoxonSignedRank (fin a) (fin b) = Some w
     /\ w_W w = IFin wPlus
     /\ (0 <= wPlus <= INR (w_n w) * (INR (w_n w) + 1) / 2)%R)
  /\ (forall fa fb : list float,
        (forall d, In d (@diffs_of float Float64 fa fb) ->
                   @jltb float Float64 (@eps float Float64) (PrimFloat.abs d) = true ->
                   float_finite (PrimFloat.abs d) = true) ->
        exists w, @wilcoxonSignedRank float Float64 fa fb = Some w)
  /\ @wilcoxonSignedRank float Float64
       [0x1p1023%float; float_ofZ 1] [PrimFloat.opp 0x1p1023%float; float_ofZ 0] = None.
Proof.
  split; [ | split; [ | vm_compute; reflexivity ] ].
  2:{ intros fa fb H. apply wilcoxon_returns. intros d Hd Hk.
      rewrite float_self_tied. now apply H. }
  unfold wilcoxonSignedRank.
  rewrite (ideal_diffs_of _ _ Hlen).
  rewrite (filter_fin (fun d => Rltb Reps (Rabs d))).
  2:{ intros x. rewrite ideal_eps. now ideal_ops. }
  fold (Rnonzero a b). set (nz := Rnonzero a b).
  rewrite length_map. destruct (Nat.eqb (length nz) 0) eqn:E.
  - eexists. exists 0%R. split; [ reflexivity | ]. cbn [w_W w_n INR].
    split; [ reflexivity | lra ].
  - apply Nat.eqb_neq in E. rewrite ideal_wilcoxon_items.
    set (items := sort_by (fun x y => jsub (it_val x) (it_val y)) (mapi Ritem nz)).
    assert (Hfin : Forall fin_item items).
    { apply sort_by_Forall. apply mapi_from_Forall.
      intros x k _. eexists. reflexivity. }
    assert (Hl : length items = length nz).
    { unfold items. rewrite sort_by_length. apply mapi_from_length. }
    destruct (@assign_ranks_total (S (length nz)) items 1 Hfin ltac:(lia))
      as [ranked [Hr [Hi [Hf Hs]]]].
    pose proof (assign_ranks_lower _ _ Hfin Hr) as Hlow.
    unfold one at 1. change (@ofZ ideal IdealNum 1%Z) with (IFin 1).
    rewrite Hr.
    set (pos := filter (fun it => (it_sign (it_item it) >? 0)%Z) ranked).
    assert (Hpos : Forall fin_rank pos).
    { apply Forall_forall. intros x Hx. apply filter_In in Hx.
      rewrite Forall_forall in Hf. now apply Hf. }
    rewrite (ideal_rank_sum Hpos).
    eexists. eexists. split; [ reflexivity | ]. cbn [w_W w_n].
    split; [ reflexivity | ].
    assert (Hnn : Forall (fun x => (0 <= rank_val x)%R) ranked).
    { eapply Forall_impl; [ | exact Hlow ]. cbn beta. intros x Hx. lra. }
    pose proof (Rsum_filter_le (fun it => (it_sign (it_item it) >? 0)%Z) rank_val Hnn)
      as Hb.
    fold pos in Hb. rewrite Hs, Hl in Hb.
    replace (INR (length nz) * (INR (length nz) + 1) / 2)%R
      with (INR (length nz) * 1
            + INR (length nz) * (INR (length nz) - 1) / 2)%R by field.
    exact Hb.
Qed.

Lemma wilcoxon_W_range_witness :
  length [3; 5]%R = length [1; 1]%R
  /\ exists w wPlus,
       wilcoxonSignedRank (fin [3; 5]%R) (fin [1; 1]%R) = Some w
       /\ w_W w = IFin wPlus /\ (0 <= wPlus)%R.
Proof.
  split; [ reflexivity | ].
  destruct (@wilcoxon_W_range [3; 5]%R [1; 1]%R eq_refl)
    as [[w [wPlus [H1 [H2 [H3 _]]]]] _].
  exists w, wPlus. repeat split; assumption.
Defined.

(** ** Symmetry of the normal CDF approximation *)

Lemma Rprob_even (x : R) : Rprob (- x) = Rprob x.
Proof.
  unfold Rprob. rewrite Rabs_Ropp.
  replace (- - x * - x / 2)%R with (- x * x / 2)%R by field. reflexivity.
Qed.

(** On exact real arithmetic, away from 0 the approximation is
    complement-symmetric, normalCDF(-x) = 1 - normalCDF(x); at 0 it
    returns 1 - 0.49999985..., a little above one half, and it is at least
    one half from 0 on and at most one half below 0.  On binary64 the
    symmetry is lost in the tails, where 1 - prob rounds to 1: with the
    exponential of this development normalCDF(-10) is positive and
    1 - normalCDF(10) is 0. *)
Theorem normalCDF_symmetry (x : R) (Hx : x <> 0%R) :
  (exists c c',
     normalCDF (IFin x) = IFin c /\ normalCDF (IFin (- x)) = IFin c'
     /\ (c + c' = 1)%R
     /\ ((0 < x)%R -> (1 / 2 <= c)%R /\ (c' <= 1 / 2)%R)
     /\ exists c0, normalCDF (IFin 0) = IFin c0 /\ (1 / 2 < c0 < 50000015 / 100000000)%R)
  /\ (@jltb float Float64 (@zero float Float64)
        (@normalCDF float Float64 (float_ofZ (-10))) = true
      /\ @jsub float Float64 (@one float Float64) (@normalCDF float Float64 (float_ofZ 10))
         = @zero float Float64).
Proof.
  split; [ | split; vm_compute; reflexivity ].
  exists (RnormalCDF x), (RnormalCDF (- x)).
  split; [ apply ideal_normalCDF | ]. split; [ apply ideal_normalCDF | ].
  pose proof (Rprob_bounds x) as Hb. pose proof (Rprob_even x) as He.
  unfold RnormalCDF. rewrite He.
  split; [ | split ].
  - destruct (Rle_dec 0 x), (Rle_dec 0 (- x)); lra.
  - intros Hpos. destruct (Rle_dec 0 x), (Rle_dec 0 (- x)); lra.
  - exists (RnormalCDF 0). split; [ apply ideal_normalCDF | ].
    unfold RnormalCDF. destruct (Rle_dec 0 0) as [ _ | n ]; [ | lra ].
    unfold Rprob, Rpoly. rewrite Rabs_R0.
    replace (- 0 * 0 / 2)%R with 0%R by field. rewrite exp_0.
    replace (1 / (1 + 2316419 / 10000000 * 0))%R with 1%R by field.
    lra.
Qed.

Lemma normalCDF_symmetry_witness :
  1%R <> 0%R
  /\ exists c c', normalCDF (IFin 1) = IFin c /\ normalCDF (IFin (- 1)) = IFin c'
                  /\ (c + c' = 1)%R.
Proof.
  assert (H1 : 1%R <> 0%R) by lra.
  split; [ exact H1 | ].
  destruct (@normalCDF_symmetry 1 H1) as [[c [c' [Ha [Hb [Hc _]]]]] _].
  exists c, c'. repeat split; assumption.
Defined.

(** ** Chi-square: sign and the perfect fit *)

Lemma Rchi_term_nonneg (o e : R) : (0 <= Rchi_term o e)%R.
Proof.
  unfold Rchi_term. destruct (Rlt_dec 0 e) as [ He | ]; [ | lra ].
  pose proof (Rle_0_sqr (o - e)) as H. unfold Rsqr in H.
  apply Rmult_le_pos; [ exact H | ]. apply Rlt_le. now apply Rinv_0_lt_compat.
Qed.

(** For real observed and expected series of one length, on exact real
    arithmetic, the statistic is a number >= 0; when observed equals
    expected it is 0 and p is 0.2, whatever the expected values are
    (non-positive ones are skipped).  On every instance p is one of the
    four values 0.01, 0.05, 0.1, 0.2 of the ladder.  On binary64 the
    statistic can overflow: observed [2^600] against expected [2^-600]
    gives Infinity (and p = 0.01). *)
Theorem chiSquare_nonneg_and_perfect_fit (o e : list R) (Hlen : length o = length e) :
  (exists x,
     chi_chiSq (chiSquareTest (fin o) (fin e)) = IFin x /\ (0 <= x)%R
     /\ (o = e -> x = 0%R /\ chi_p (chiSquareTest (fin o) (fin e)) = IFin 0.2))
  /\ (forall (F : Type) (num : JSNumber F) (fo fe : list F),
        let p := chi_p (chiSquareTest fo fe) in
        p = lit 1 2 \/ p = lit 5 2 \/ p = lit 1 1 \/ p = lit 2 1)
  /\ @chiSquareTest float Float64 [0x1p600%float] [0x1p-600%float]
     = {| chi_chiSq := @infinity float Float64; chi_df := float_ofZ 0;
          chi_p := @lit float Float64 1 2 |}.
Proof.
  split; [ | split; [ | vm_compute; reflexivity ] ].
  2:{ intros F num fo fe p. unfold p, chiSquareTest. cbn [chi_p]. unfold chi_p_ladder.
      match goal with |- context [jltb (lit 921 2) ?c] => generalize c end. intros c.
      destruct (jltb (lit 921 2) c); [ now left | ].
      destruct (jltb (lit 599 2) c); [ now right; left | ].
      destruct (jltb (lit 461 2) c); [ now right; right; left | now right; right; right ]. }
  pose proof (ideal_chiSq o e Hlen) as Hc.
  set (x := Rsum (map (fun p => Rchi_term (fst p) (snd p)) (combine o e))) in *.
  assert (Hp : chi_p (chiSquareTest (fin o) (fin e)) = IFin (Rchi_ladder x)).
  { unfold chiSquareTest in *. cbn [chi_p chi_chiSq] in *. rewrite Hc.
    apply ideal_chi_p_ladder. }
  exists x. split; [ exact Hc | ]. split.
  - unfold x. apply Rsum_nonneg. apply Forall_forall. intros v Hv.
    apply in_map_iff in Hv. destruct Hv as [[a b] [<- _]]. apply Rchi_term_nonneg.
  - intros ->.
    assert (Hx : x = 0%R).
    { unfold x. clear. induction e as [ | v e IH ]; [ reflexivity | ].
      cbn [combine map fst snd]. unfold Rsum in *. cbn [fold_right]. rewrite IH.
      unfold Rchi_term. destruct (Rlt_dec 0 v); [ field; lra | lra ]. }
    split; [ exact Hx | ]. rewrite Hp, Hx. unfold Rchi_ladder.
    destruct (Rlt_dec 9.21 0); [ lra | ].
    destruct (Rlt_dec 5.99 0); [ lra | ].
    destruct (Rlt_dec 4.61 0); [ lra | reflexivity ].
Qed.

Lemma chiSquare_nonneg_witness :
  length [6; 2; 2]%R = length [3; 3; 4]%R
  /\ exists x, chi_chiSq (chiSquareTest (fin [6; 2; 2]%R) (fin [3; 3; 4]%R)) = IFin x
               /\ (0 <= x)%R.
Proof.
  split; [ reflexivity | ].
  destruct (@chiSquare_nonneg_and_perfect_fit [6; 2; 2]%R [3; 3; 4]%R eq_refl)
    as [[x [H1 [H2 _]]] _].
  exists x. split; assumption.
Defined.

(** ** Spearman: a series against itself, and the order of the arguments *)

Lemma combine_self {A : Type} (l : list A) : combine l l = map (fun v => (v, v)) l.
Proof. induction l as [ | x l IH ]; [ reflexivity | ]. cbn. now rewrite IH. Qed.

Lemma Rcov_self (m : R) (r : list R) : Rcov m m r r = Rsumsq m r.
Proof. unfold Rcov, Rsumsq. now rewrite combine_self, map_map. Qed.

Lemma Rcov_sym (mx my : R) (rx ry : list R) : Rcov mx my rx ry = Rcov my mx ry rx.
Proof.
  unfold Rcov, Rsum. revert ry. induction rx as [ | a rx IH ]; intros [ | b ry ];
    try reflexivity.
  cbn [combine map fold_right fst snd]. rewrite IH. lra.
Qed.

(** For series of one length n >= 2 the coefficient of a series with
    itself is exactly 1, and the coefficient does not depend on the order
    of the two arguments. *)
Theorem spearman_self_and_symmetry
    (x y : list R) (Hlen : length x = length y) (Hn : (2 <= length x)%nat) :
  spearmanCorrelation (fin x) (fin x) = IFin 1
  /\ spearmanCorrelation (fin x) (fin y) = spearmanCorrelation (fin y) (fin x).
Proof.
  split.
  - rewrite ideal_spearman by (reflexivity || lia). cbv zeta.
    rewrite Rcov_self.
    pose proof (Rranks_variance_pos x Hn) as Hv.
    set (v := Rsumsq (Rmean (Rranks x)) (Rranks x)) in *.
    rewrite sqrt_square by lra. rewrite ideal_div_fin by lra.
    f_equal. field. lra.
  - rewrite (ideal_spearman x y) by (assumption || lia).
    rewrite (ideal_spearman y x) by (congruence || lia). cbv zeta.
    rewrite (Rcov_sym (Rmean (Rranks x))).
    now rewrite (Rmult_comm (Rsumsq (Rmean (Rranks x)) (Rranks x))).
Qed.

Lemma spearman_self_witness :
  length [3; 3]%R = length [1; 2]%R /\ (2 <= length [3; 3]%R)%nat
  /\ spearmanCorrelation (fin [3; 3]%R) (fin [3; 3]%R) = IFin 1.
Proof.
  split; [ reflexivity | ]. split; [ apply le_n | ].
  destruct (@spearman_self_and_symmetry [3; 3]%R [1; 2]%R eq_refl (le_n 2)) as [H _].
  exact H.
Defined.

(** ** Spearman: only the order of the values matters *)

Lemma sort_by_sign_ext {F : Type} {num : JSNumber F} {A : Type}
    (cmp cmp' : A -> A -> F) (l : list A) :
  (forall x y, jltb zero (cmp x y) = jltb zero (cmp' x y)) ->
  sort_by cmp l = sort_by cmp' l.
Proof.
  intros H. induction l as [ | x l IH ]; [ reflexivity | ].
  cbn [sort_by fold_right]. fold (sort_by cmp l) (sort_by cmp' l). rewrite IH.
  generalize (sort_by cmp' l). intros s.
  induction s as [ | y s IHs ]; [ reflexivity | ].
  cbn [insert_by]. now rewrite H, IHs.
Qed.

Lemma Rranks_increasing_map (f : R -> R) (x : list R) :
  (forall a b, (a < b)%R -> (f a < f b)%R) -> Rranks (map f x) = Rranks x.
Proof.
  intros Hf.
  assert (Hsign : forall a b, Rltb 0 (f a - f b) = Rltb 0 (a - b)).
  { intros a b. unfold Rltb.
    destruct (Rlt_dec 0 (f a - f b)) as [ H1 | H1 ], (Rlt_dec 0 (a - b)) as [ H2 | H2 ];
      try reflexivity; exfalso.
    - destruct (Req_dec a b) as [ -> | Hne ]; [ lra | ].
      assert (a < b)%R by lra. pose proof (Hf a b H). lra.
    - assert (b < a)%R by lra. pose proof (Hf b a H). lra. }
  unfold Rranks, RbyIndex, Rranked, RbyValue, Rtagged, mapi.
  rewrite mapi_from_map.
  rewrite (mapi_from_ext (fun (a : R) i => (f a, i))
             (fun a i => (fun d : R * nat => (f (fst d), snd d)) (a, i)))
    by reflexivity.
  rewrite <- (map_mapi_from (fun d : R * nat => (f (fst d), snd d))
                            (fun v i => (v, i)) 0 x).
  rewrite sort_by_map.
  rewrite (sort_by_sign_ext _ (fun a b : R * nat => IFin (fst a - fst b))).
  2:{ intros a b. cbn [fst snd]. unfold zero. ideal_ops. apply Hsign. }
  set (byValue := sort_by (fun a b : R * nat => IFin (fst a - fst b))
                          (mapi_from (fun v i => (v, i)) 0 x)).
  rewrite mapi_from_map.
  rewrite (mapi_from_ext
             (fun (a : R * nat) p => ((f (fst a), snd a), p))
             (fun a p => (fun e : R * nat * nat =>
                            ((f (fst (fst e)), snd (fst e)), snd e)) (a, p)))
    by reflexivity.
  rewrite <- (map_mapi_from
                (fun e : R * nat * nat => ((f (fst (fst e)), snd (fst e)), snd e))
                (fun d p => (d, p)) 0 byValue).
  rewrite sort_by_map. rewrite map_map. cbn [fst snd]. reflexivity.
Qed.

(** The coefficient depends on the values only through their order: a
    strictly increasing transformation of either series leaves it as it
    is. *)
Theorem spearman_increasing_transform
    (f : R -> R) (x y : list R)
    (Hf : forall a b, (a < b)%R -> (f a < f b)%R) :
  ranks (fin (map f x)) = ranks (fin x)
  /\ spearmanCorrelation (fin (map f x)) (fin y) = spearmanCorrelation (fin x) (fin y)
  /\ spearmanCorrelation (fin y) (fin (map f x)) = spearmanCorrelation (fin y) (fin x).
Proof.
  assert (E : ranks (fin (map f x)) = ranks (fin x)).
  { rewrite !ideal_ranks. now rewrite Rranks_increasing_map. }
  split; [ exact E | ]. unfold spearmanCorrelation. rewrite E. split; reflexivity.
Qed.

Lemma spearman_increasing_witness :
  (forall a b, (a < b)%R -> (2 * a + 1 < 2 * b + 1)%R)
  /\ ranks (fin (map (fun v => 2 * v + 1)%R [3; 1; 2]%R)) = ranks (fin [3; 1; 2]%R).
Proof.
  assert (Hf : forall a b, (a < b)%R -> (2 * a + 1 < 2 * b + 1)%R) by (intros; lra).
  split; [ exact Hf | ].
  destruct (@spearman_increasing_transform (fun v => 2 * v + 1)%R [3; 1; 2]%R [] Hf)
    as [H _].
  exact H.
Defined.

(** ** The per-emotion analysis *)

(** What a computation of the component ends in: a value, a thrown
    TypeError (a property read off [undefined]), or no end at all. *)
Inductive outcome (A : Type) : Type :=
| Returns (a : A) : outcome A
| Throws : outcome A
| Loops : outcome A.
Arguments Throws {A}.
Arguments Loops {A}.

Definition obind {A B : Type} (c : outcome A) (k : A -> outcome B) : outcome B :=
  match c with
  | Returns a => k a
  | Throws => Throws
  | Loops => Loops
  end.

Notation "x <- c ;; k" := (obind c (fun x => k))
  (at level 61, c at next level, right associativity).

(** [arr.map(f)] with a callback that may throw. *)
Fixpoint omap {A B : Type} (f : A -> outcome B) (l : list A) : outcome (list B) :=
  match l with
  | [] => Returns []
  | x :: l' => y <- f x ;; ys <- omap f l' ;; Returns (y :: ys)
  end.

Section Emotions.

Context {F : Type} {num : JSNumber F}.
Local Open Scope string_scope.

(** A row of [wilcoxon_per_emotion.csv]: its name
    ([r.emotion || r.Emotion || r.variable]) and its numeric cells. *)
Record PerEmotionRow : Type :=
  { pe_emotion : string; pe_cells : list (string * F) }.

Record EmotionRow : Type :=
  { em_emotion : string; em_c1_mean : F; em_c2_mean : F; em_diff_mean : F;
    em_W : F; em_z : F; em_p : F; em_p_bonferroni : F }.

(** [a[n1] ?? a[n2] ?? ... ?? dflt] *)
Fixpoint first_cell_or (cells : list (string * F)) (names : list string) (dflt : F) : F :=
  match names with
  | [] => dflt
  | n :: names' =>
      match lookup cells n with
      | Some v => v
      | None => first_cell_or cells names' dflt
      end
  end.

(** [Math.min(p * 6, 1)] *)
Definition bonferroni (p : F) : F := math_min [jmul p (ofZ 6); one].

Definition emotion_from_csv (r : PerEmotionRow) : EmotionRow :=
  {| em_emotion := pe_emotion r;
     em_c1_mean := first_cell_or (pe_cells r) ["c1_mean"; "C1_mean"] zero;
     em_c2_mean := first_cell_or (pe_cells r) ["c2_mean"; "C2_mean"] zero;
     em_diff_mean := first_cell_or (pe_cells r) ["diff_mean"; "diff"] zero;
     em_W := first_cell_or (pe_cells r) ["W"] zero;
     em_z := first_cell_or (pe_cells r) ["z"] zero;
     em_p := first_cell_or (pe_cells r) ["p"] one;
     em_p_bonferroni := bonferroni (first_cell_or (pe_cells r) ["p"] one) |}.

(** [normalized[em]] *)
Definition category (n : Normalized F) (em : string) : F :=
  if String.eqb em "angry" then angry n
  else if String.eqb em "disgusted" then disgusted n
  else if String.eqb em "fearful" then fearful n
  else if String.eqb em "happy" then happy n
  else if String.eqb em "neutral" then neutral n
  else if String.eqb em "sad" then sad n
  else if String.eqb em "surprised" then surprised n
  else jnan.

(** [r.C1_normalized[em]]: reading [em] off a missing [C1_normalized]
    throws. *)
Definition normalized_of (c em : string) (r : ProcessedRow F) : outcome F :=
  match lookup (conds r) c with
  | Some e => Returns (category (ce_normalized e) em)
  | None => Throws
  end.

Definition emotions : list string :=
  ["angry"; "disgusted"; "fearful"; "happy"; "sad"; "surprised"].

Definition emotion_computed (processedData : list (ProcessedRow F)) (em : string)
  : outcome EmotionRow :=
  c1arr <- omap (normalized_of "C1" em) processedData ;;
  c2arr <- omap (normalized_of "C2" em) processedData ;;
  w <- match wilcoxonSignedRank c1arr c2arr with
       | Some w => Returns w
       | None => Loops
       end ;;
  Returns {| em_emotion := em;
             em_c1_mean := mean c1arr;
             em_c2_mean := mean c2arr;
             em_diff_mean := mean (diffs_of c1arr c2arr);
             em_W := w_W w; em_z := w_z w; em_p := w_p w;
             em_p_bonferroni := bonferroni (w_p w) |}.

Definition emotionAnalysis (wilcoxonPerEmotion : option (list PerEmotionRow))
    (processedData : list (ProcessedRow F)) : outcome (list EmotionRow) :=
  let computed :=
    match processedData with
    | [] => Returns []
    | _ :: _ => omap (emotion_computed processedData) emotions
    end in
  match wilcoxonPerEmotion with
  | Some (r :: rows) => Returns (map emotion_from_csv (r :: rows))
  | Some [] => computed
  | None => computed
  end.

End Emotions.

Arguments PerEmotionRow : clear implicits.
Arguments EmotionRow : clear implicits.

Lemma omap_returns {A B : Type} (f : A -> outcome B) (P : A -> B -> Prop) (l : list A) :
  (forall x, In x l -> exists y, f x = Returns y /\ P x y) ->
  exists ys, omap f l = Returns ys /\ Forall2 P l ys.
Proof.
  induction l as [ | x l IH ]; intros H.
  - exists []. split; [ reflexivity | constructor ].
  - destruct (H x (or_introl eq_refl)) as [y [Hy Py]].
    destruct IH as [ys [Hys Pys]]; [ intros; apply H; now right | ].
    exists (y :: ys). cbn [omap]. rewrite Hy, Hys. split; [ reflexivity | now constructor ].
Qed.

Lemma omap_throws {A B : Type} (f : A -> outcome B) (l : list A) :
  (forall x, In x l -> f x <> Loops) ->
  (exists x, In x l /\ f x = Throws) ->
  omap f l = Throws.
Proof.
  induction l as [ | x l IH ]; intros Hn [z [Hz Ht]]; [ contradiction | ].
  cbn [omap]. destruct (f x) as [ y | | ] eqn:E; cbn [obind].
  - destruct Hz as [ -> | Hz ]; [ congruence | ].
    rewrite IH; [ reflexivity | intros; apply Hn; now right | now exists z ].
  - reflexivity.
  - exfalso. apply (Hn x); [ now left | exact E ].
Qed.

Section EmotionSources.

Context {F : Type} {num : JSNumber F}.
Local Open Scope string_scope.

(** Where the per-emotion table comes from.  A non-empty precomputed
    table is taken over row by row, a missing p counting as 1, with
    p_bonferroni = min(6 p, 1); otherwise, without participant records the
    table is empty, and with records of which one has no C1 entry or no C2
    entry (the raw table does not name that condition) the computation
    throws. *)
Theorem emotionAnalysis_sources
    (r : PerEmotionRow F) (rows : list (PerEmotionRow F))
    (pd : list (ProcessedRow F)) :
  (exists out,
     emotionAnalysis (Some (r :: rows)) pd = Returns out
     /\ length out = S (length rows)
     /\ map (@em_emotion F) out = map (@pe_emotion F) (r :: rows)
     /\ Forall (fun e => em_p_bonferroni e = bonferroni (em_p e)) out
     /\ (lookup (pe_cells r) "p" = None ->
         exists e, hd_error out = Some e /\ em_p e = one))
  /\ emotionAnalysis None ([] : list (ProcessedRow F)) = Returns []
  /\ emotionAnalysis (Some []) pd = emotionAnalysis None pd
  /\ ((exists x, In x pd /\ (lookup (conds x) "C1" = None \/ lookup (conds x) "C2" = None))
      -> emotionAnalysis None pd = Throws).
Proof.
  split; [ | split; [ reflexivity | split; [ reflexivity | ] ] ].
  - eexists. split; [ reflexivity | ].
    split; [ now rewrite length_map | ].
    split; [ now rewrite map_map | ].
    split.
    + apply Forall_forall. intros e He. apply in_map_iff in He.
      destruct He as [x [<- _]]. reflexivity.
    + intros Hp. eexists. split; [ reflexivity | ].
      cbn [emotion_from_csv em_p first_cell_or]. now rewrite Hp.
  - intros [x [Hx Hmiss]].
    destruct pd as [ | r0 pd' ]; [ contradiction | ].
    unfold emotionAnalysis, emotions. cbn [omap].
    assert (E : emotion_computed (r0 :: pd') "angry" = Throws).
    { unfold emotion_computed.
      assert (Hnl : forall c y, In y (r0 :: pd') -> normalized_of c "angry" y <> Loops).
      { intros c y _. unfold normalized_of. destruct (lookup (conds y) c); discriminate. }
      destruct (omap (normalized_of "C1" "angry") (r0 :: pd')) as [ c1arr | | ] eqn:E1;
        cbn [obind]; [ | reflexivity | ].
      - assert (E2 : omap (normalized_of "C2" "angry") (r0 :: pd') = Throws).
        { apply omap_throws; [ apply Hnl | ].
          exists x. split; [ exact Hx | ]. unfold normalized_of.
          destruct Hmiss as [ Hm | Hm ]; [ | now rewrite Hm ].
          exfalso.
          assert (E3 : omap (normalized_of "C1" "angry") (r0 :: pd') = Throws).
          { apply omap_throws; [ apply Hnl | ].
            exists x. split; [ exact Hx | ]. unfold normalized_of. now rewrite Hm. }
          congruence. }
        now rewrite E2.
      - exfalso. revert E1. generalize (r0 :: pd'). intros l.
        induction l as [ | y l IH ]; cbn [omap]; [ discriminate | ].
        unfold normalized_of at 1. destruct (lookup (conds y) "C1"); cbn [obind];
          [ | discriminate ].
        destruct (omap (normalized_of "C1" "angry") l); cbn [obind];
          [ discriminate | discriminate | intros _; now apply IH ]. }
    now rewrite E.
Qed.

End EmotionSources.

(** *** The computed branch on finite data *)

Definition nonneg_fields (n : Normalized ideal) : Prop :=
  nonneg_fin (angry n) /\ nonneg_fin (disgusted n) /\ nonneg_fin (fearful n)
  /\ nonneg_fin (happy n) /\ nonneg_fin (neutral n) /\ nonneg_fin (sad n)
  /\ nonneg_fin (surprised n).

Lemma nonneg_fin_mul (a b : ideal) : nonneg_fin a -> nonneg_fin b -> nonneg_fin (jmul a b).
Proof.
  intros [x [-> Hx]] [y [-> Hy]]. exists (x * y)%R. split; [ reflexivity | ].
  now apply Rmult_le_pos.
Qed.

Lemma nonneg_fin_add (a b : ideal) : nonneg_fin a -> nonneg_fin b -> nonneg_fin (jadd a b).
Proof.
  intros [x [-> Hx]] [y [-> Hy]]. exists (x + y)%R. split; [ reflexivity | lra ].
Qed.

(** Whatever branch the aggregator takes, finite non-negative cells give
    finite non-negative categories. *)
Lemma aggregate_nonneg_fields (rows : list (TrialRow ideal)) :
  nonneg_cells rows -> nonneg_fields (ce_normalized (aggregate rows)).
Proof.
  intros Hc. destruct rows as [ | row0 rest ].
  - cbn. repeat split; apply nonneg_fin_zero.
  - assert (Hne : row0 :: rest <> []) by discriminate.
    unfold aggregate.
    destruct (has_col row0 "Angry (seconds)_norm" || has_col row0 "Angry_norm"
              || has_col row0 "angry").
    + cbn [ce_normalized]. unfold nonneg_fields.
      cbn [angry disgusted fearful happy neutral sad surprised].
      repeat split; now apply avg_nonneg.
    + cbv zeta. cbn [ce_normalized]. unfold nonneg_fields.
      cbn [angry disgusted fearful happy neutral sad surprised].
      assert (Hr : forall a b, nonneg_fin (jor (jor (avg (row0 :: rest) a)
                                                    (avg (row0 :: rest) b)) zero)).
      { intros a b. apply jor_nonneg; [ apply jor_nonneg | apply nonneg_fin_zero ];
          now apply avg_nonneg. }
      match goal with
      | |- context [if ?c then ?s1 else ?s2] =>
          assert (Hs : nonneg_fin (if c then s1 else s2))
      end.
      { match goal with
        | |- nonneg_fin (if jltb zero ?t then _ else _) =>
            assert (Ht : nonneg_fin t) by (repeat apply nonneg_fin_add; apply Hr);
            destruct Ht as [T [-> HT]]
        end.
        unfold zero. ideal_ops. unfold Rltb. destruct (Rlt_dec 0 T).
        - rewrite ideal_div_fin by lra. eexists. split; [ reflexivity | ].
          apply Rmult_le_pos; [ lra | ]. apply Rlt_le. now apply Rinv_0_lt_compat.
        - exists 1%R. split; [ reflexivity | lra ]. }
      repeat split; apply nonneg_fin_mul; (apply Hr || exact Hs).
Qed.

Lemma category_nonneg (n : Normalized ideal) (em : string) :
  nonneg_fields n -> In em emotions -> nonneg_fin (category n em).
Proof.
  intros [H1 [H2 [H3 [H4 [H5 [H6 H7]]]]]] Hin. unfold emotions in Hin. cbn [In] in Hin.
  repeat (destruct Hin as [ <- | Hin ]; [ assumption | ]). contradiction.
Qed.

(** The Bonferroni value of a p in [0, 1]: min(6 p, 1), between p and 1. *)
Lemma ideal_bonferroni (p : R) :
  (0 <= p <= 1)%R ->
  bonferroni (IFin p) = IFin (Rmin (p * 6) 1) /\ (p <= Rmin (p * 6) 1 <= 1)%R.
Proof.
  intros Hp. split.
  - unfold bonferroni, one. ideal_ops. exact (ideal_math_min (p * 6) [1%R]).
  - unfold Rmin. destruct (Rle_dec (p * 6) 1); lra.
Qed.

Lemma ideal_wilcoxon_p_unit (a b : list R) :
  length a = length b ->
  exists w p, wilcoxonSignedRank (fin a) (fin b) = Some w
              /\ w_p w = IFin p /\ (0 <= p <= 1)%R.
Proof.
  intros Hlen. destruct (ideal_wilcoxon_returns a b Hlen) as [w [Hw [_ [H0 H1]]]].
  exists w. destruct (length (Rnonzero a b)) as [ | k ] eqn:E.
  - exists 1%R. pose proof (H0 eq_refl) as Ew. subst w. cbn [w_p].
    split; [ exact Hw | split; [ reflexivity | lra ] ].
  - destruct (H1 ltac:(lia)) as [wPlus [_ [Hz [Hp _]]]].
    destruct (ideal_two_tailed (Rabs_pos (Rwilcoxon_z wPlus (S k)))) as [E' B].
    eexists. split; [ exact Hw | ]. rewrite Hp, Hz. ideal_ops. split; [ exact E' | exact B ].
Qed.

Lemma omap_fin (f : ProcessedRow ideal -> outcome ideal) (pd : list (ProcessedRow ideal)) :
  (forall r, In r pd -> exists v, f r = Returns (IFin v)) ->
  exists l, omap f pd = Returns (fin l) /\ length l = length pd.
Proof.
  induction pd as [ | r pd IH ]; intros H.
  - exists []. split; reflexivity.
  - destruct (H r (or_introl eq_refl)) as [v Hv].
    destruct IH as [l [Hl Hlen]]; [ intros; apply H; now right | ].
    exists (v :: l). cbn [omap]. rewrite Hv, Hl. cbn. split; [ reflexivity | now rewrite Hlen ].
Qed.

(** What a row of the computed table looks like. *)
Definition good_emotion_row (em : string) (e : EmotionRow ideal) : Prop :=
  em_emotion e = em
  /\ exists p, em_p e = IFin p /\ (0 <= p <= 1)%R
               /\ em_p_bonferroni e = IFin (Rmin (p * 6) 1)
               /\ (p <= Rmin (p * 6) 1 <= 1)%R.

(** One participant whose two C1 rows hold 2^1023 seconds of anger each:
    on binary64 their sum, and so their average, is Infinity. *)
Definition overflowing_emotion_rows : list (TrialRow float) :=
  [ {| row_participant := "P1"; row_condition := "C1";
       row_cells := [("angry"%string, 0x1p1023%float)] |};
    {| row_participant := "P1"; row_condition := "C1";
       row_cells := [("angry"%string, 0x1p1023%float)] |};
    {| row_participant := "P1"; row_condition := "C2";
       row_cells := [("angry"%string, float_ofZ 6)] |} ].

(** On exact real arithmetic: computed from a raw table that names both
    conditions and has non-negative cells, the per-emotion analysis
    returns six rows, for angry, disgusted, fearful, happy, sad and
    surprised in this order; each p is a number in [0, 1] and each
    p_bonferroni is min(6 p, 1), hence between p and 1.  On binary64 an
    average can overflow, and then the analysis does not return: for
    [overflowing_emotion_rows] the Wilcoxon test on the anger averages
    never ends. *)
Theorem emotionAnalysis_computed
    (raw : list (TrialRow ideal))
    (Hcells : nonneg_cells raw)
    (Hc1 : In "C1"%string (map (@row_condition ideal) raw))
    (Hc2 : In "C2"%string (map (@row_condition ideal) raw)) :
  (exists out,
     emotionAnalysis None (processedData (Some raw)) = Returns out
     /\ map (@em_emotion ideal) out = emotions
     /\ Forall2 good_emotion_row emotions out)
  /\ @emotionAnalysis float Float64 None
       (@processedData float Float64 (Some overflowing_emotion_rows)) = Loops.
Proof.
  split; [ | vm_compute; reflexivity ].
  set (pd := processedData (Some raw)).
  assert (Hpd : pd <> []).
  { unfold pd, processedData. destruct raw as [ | r0 raw' ]; [ contradiction | ].
    intros E. apply map_eq_nil in E.
    assert (Hin : In (row_participant r0)
                     (distinct String.eqb (map (@row_participant ideal) (r0 :: raw'))))
      by (apply distinct_In; [ apply String.eqb_eq | now left ]).
    rewrite E in Hin. contradiction. }
  assert (Hnorm : forall c em r, In c (map (@row_condition ideal) raw) -> In em emotions ->
                    In r pd -> exists v, normalized_of c em r = Returns (IFin v)).
  { intros c em r Hc Hem Hr. unfold pd, processedData in Hr.
    apply in_map_iff in Hr. destruct Hr as [p [<- _]].
    unfold normalized_of. cbn [process_participant conds].
    rewrite (lookup_map_key (fun c => aggregate (rows_of raw p c))).
    destruct (in_dec string_dec c (distinct String.eqb (map (@row_condition ideal) raw)))
      as [ _ | n ].
    - assert (Hn : nonneg_cells (rows_of raw p c)).
      { unfold nonneg_cells, rows_of in *. apply Forall_forall. intros x Hx.
        apply filter_In in Hx. rewrite Forall_forall in Hcells. now apply Hcells. }
      destruct (@category_nonneg _ em (@aggregate_nonneg_fields _ Hn) Hem) as [v [E _]].
      rewrite E. now exists v.
    - exfalso. apply n. apply distinct_In; [ apply String.eqb_eq | exact Hc ]. }
  assert (Hrow : forall em, In em emotions ->
                   exists e, emotion_computed pd em = Returns e /\ good_emotion_row em e).
  { intros em Hem. unfold emotion_computed.
    destruct (omap_fin (normalized_of "C1" em) pd) as [l1 [E1 L1]];
      [ intros r Hr; now apply Hnorm | ].
    destruct (omap_fin (normalized_of "C2" em) pd) as [l2 [E2 L2]];
      [ intros r Hr; now apply Hnorm | ].
    rewrite E1, E2. cbn [obind].
    destruct (ideal_wilcoxon_p_unit l1 l2 ltac:(congruence)) as [w [p [Hw [Hp Hb]]]].
    rewrite Hw. cbn [obind]. eexists. split; [ reflexivity | ].
    unfold good_emotion_row. cbn [em_emotion em_p em_p_bonferroni].
    split; [ reflexivity | ]. exists p. rewrite Hp.
    destruct (ideal_bonferroni Hb) as [Eb Bb]. repeat split; (assumption || apply Hb || apply Bb). }
  destruct (omap_returns (emotion_computed pd) good_emotion_row emotions Hrow)
    as [out [Hout Hgood]].
  exists out. split.
  - unfold emotionAnalysis. fold pd. destruct pd; [ contradiction | exact Hout ].
  - split; [ | exact Hgood ].
    clear - Hgood. induction Hgood as [ | em e ems es [He _] _ IH ]; [ reflexivity | ].
    cbn [map]. now rewrite He, IH.
Qed.

Definition two_condition_rows : list (TrialRow ideal) :=
  [ {| row_participant := "P1"; row_condition := "C1";
       row_cells := [("angry"%string, IFin 12)] |};
    {| row_participant := "P1"; row_condition := "C2";
       row_cells := [("angry"%string, IFin 6)] |} ].

Lemma emotionAnalysis_computed_witness :
  nonneg_cells two_condition_rows
  /\ In "C1"%string (map (@row_condition ideal) two_condition_rows)
  /\ In "C2"%string (map (@row_condition ideal) two_condition_rows)
  /\ exists out,
       emotionAnalysis None (processedData (Some two_condition_rows)) = Returns out
       /\ map (@em_emotion ideal) out = emotions.
Proof.
  assert (Hc : nonneg_cells two_condition_rows).
  { repeat constructor; cbn [snd]; eexists; (split; [ reflexivity | lra ]). }
  assert (H1 : In "C1"%string (map (@row_condition ideal) two_condition_rows))
    by (left; reflexivity).
  assert (H2 : In "C2"%string (map (@row_condition ideal) two_condition_rows))
    by (right; left; reflexivity).
  split; [ exact Hc | ]. split; [ exact H1 | ]. split; [ exact H2 | ].
  destruct (@emotionAnalysis_computed two_condition_rows Hc H1 H2)
    as [[out [Ho [Hn _]]] _].
  exists out. split; assumption.
Defined.

(** ** The order of the observations *)

(** Rearranging a finite series changes neither its mean, nor its
    standard deviation, nor the result of the normality check. *)
Theorem statistics_ignore_order (data data' : list R) (Hp : Permutation data data') :
  mean (fin data) = mean (fin data')
  /\ std (fin data) = std (fin data')
  /\ shapiroWilkTest (fin data) = shapiroWilkTest (fin data').
Proof.
  assert (Hl : length data = length data') by now apply Permutation_length.
  destruct data as [ | x data0 ].
  - apply Permutation_nil in Hp. subst data'. repeat split.
  - set (data := x :: data0) in *.
    assert (Hne : data <> []) by discriminate.
    assert (Hne' : data' <> []).
    { intros E'. subst data'. apply Permutation_sym, Permutation_nil in Hp.
      discriminate. }
    assert (Hm : Rmean data = Rmean data').
    { unfold Rmean. now rewrite (Rsum_perm Hp), Hl. }
    assert (HSS : Rsumsq (Rmean data) data = Rsumsq (Rmean data') data').
    { rewrite Hm. now apply Rsumsq_perm. }
    assert (Hsort : Rsorted data = Rsorted data').
    { apply sorted_perm_unique; try apply Rsorted_sorted.
      rewrite (Rsorted_perm data), Hp. symmetry. apply Rsorted_perm. }
    split; [ | split ].
    + rewrite !ideal_mean by assumption. fold (Rmean data) (Rmean data'). now rewrite Hm.
    + unfold std. rewrite !ideal_mean by assumption.
      fold (Rmean data) (Rmean data'). rewrite !ideal_sumsq_dev, !ideal_len, !length_map.
      now rewrite HSS, Hl.
    + rewrite (ideal_shapiro Hne), (ideal_shapiro Hne'). cbv zeta.
      now rewrite Hsort, HSS.
Qed.

Lemma statistics_ignore_order_witness :
  Permutation [1; 2; 4]%R [4; 1; 2]%R
  /\ shapiroWilkTest (fin [1; 2; 4]%R) = shapiroWilkTest (fin [4; 1; 2]%R).
Proof.
  assert (Hp : Permutation [1; 2; 4]%R [4; 1; 2]%R).
  { apply Permutation_sym. apply perm_trans with [1; 4; 2]%R.
    - apply perm_swap.
    - apply perm_skip. apply perm_swap. }
  split; [ exact Hp | ].
  destruct (@statistics_ignore_order [1; 2; 4]%R [4; 1; 2]%R Hp) as [_ [_ H]].
  exact H.
Defined.

(** ** The earlier variant of the aggregator *)

Section EarlierAggregator.

Context {F : Type} {num : JSNumber F}.
Local Open Scope string_scope.

(** The body of [conditions.forEach] in the second source file: the
    normalised columns only, no scale factor and no total. *)
Definition aggregate_earlier (rows : list (TrialRow F)) : CondEntry F :=
  match rows with
  | [] =>
      {| ce_value := zero;
         ce_normalized :=
           {| angry := zero; disgusted := zero; fearful := zero; happy := zero;
              neutral := zero; sad := zero; surprised := zero |};
         ce_scaleFactor := None; ce_totalSum := None |}
  | row0 :: _ =>
      let col a b c := getCol row0 [a; b; c] in
      let normalized :=
        {| angry := avg rows (col "Angry (seconds)_norm" "Angry_norm" "angry");
           disgusted := avg rows (col "Disgusted (seconds)_norm" "Disgusted_norm" "disgusted");
           fearful := avg rows (col "Fearful (seconds)_norm" "Fearful_norm" "fearful");
           happy := avg rows (col "Happy (seconds)_norm" "Happy_norm" "happy");
           neutral := avg rows (col "Neutral (seconds)_norm" "Neutral_norm" "neutral");
           sad := avg rows (col "Sad (seconds)_norm" "Sad_norm" "sad");
           surprised := avg rows (col "Surprised (seconds)_norm" "Surprised_norm" "surprised") |} in
      {| ce_value := nonNeutralPercent normalized; ce_normalized := normalized;
         ce_scaleFactor := None; ce_totalSum := None |}
  end.

(** [hasNorm] of the current aggregator, [true] for no rows. *)
Definition has_norm (rows : list (TrialRow F)) : bool :=
  match rows with
  | [] => true
  | row0 :: _ =>
      has_col row0 "Angry (seconds)_norm" || has_col row0 "Angry_norm"
      || has_col row0 "angry"
  end.

End EarlierAggregator.

Definition raw_seconds_row_float : TrialRow float :=
  {| row_participant := "P1"; row_condition := "C1";
     row_cells := [("Angry"%string, float_ofZ 30); ("Neutral"%string, float_ofZ 30)] |}.

(** The two source files aggregate alike, aggregate and categories, on
    every group of rows that is empty or whose first row has a normalised
    "angry" column; they part on raw seconds, which only the current file
    rescales: for one row with 30 s angry and 30 s neutral it reports
    50 %, the earlier file 0 %. *)
Theorem aggregators_agree_on_normalised_columns
    (F : Type) (num : JSNumber F) (rows : list (TrialRow F)) :
  (has_norm rows = true ->
     ce_value (aggregate rows) = ce_value (aggregate_earlier rows)
     /\ ce_normalized (aggregate rows) = ce_normalized (aggregate_earlier rows))
  /\ ce_value (@aggregate float Float64 [raw_seconds_row_float]) = float_ofZ 50
  /\ ce_value (@aggregate_earlier float Float64 [raw_seconds_row_float]) = float_ofZ 0.
Proof.
  split; [ | split; vm_compute; reflexivity ].
  intros H. destruct rows as [ | row0 rest ]; [ split; reflexivity | ].
  unfold aggregate, aggregate_earlier. cbn [has_norm] in H. rewrite H.
  split; reflexivity.
Qed.

(** ** The main test on finite records *)

(** [cohens]: Cohen's d as the component shows it beside the main test. *)
Definition cohens {F : Type} {num : JSNumber F} (processedData : list (ProcessedRow F))
  : nullable F :=
  match processedData with
  | [] => null
  | _ :: _ => value (cohensD (map C1 processedData) (map C2 processedData))
  end.

Lemma map_fin_of (pd : list (ProcessedRow ideal)) (f : ProcessedRow ideal -> ideal) :
  (forall r, In r pd -> exists a, f r = IFin a) ->
  exists l, map f pd = fin l /\ length l = length pd.
Proof.
  induction pd as [ | r pd IH ]; intros H.
  - exists []. split; reflexivity.
  - destruct (H r (or_introl eq_refl)) as [a Ha].
    destruct IH as [l [Hl Hlen]]; [ intros; apply H; now right | ].
    exists (a :: l). cbn [map length]. now rewrite Ha, Hl, Hlen.
Qed.

(** On exact real arithmetic, with at least one record and real
    aggregates in both conditions, the main test returns a result (the
    Wilcoxon loop ends, the result is not null).  On the "t" branch its
    effect size is the Cohen's d that [cohens] computes; on the "wilcoxon"
    branch z is a number and the effect size is the number z / sqrt(N), N
    the number of records.  On binary64 an aggregate can overflow, and
    then the main test does not return: for the record of
    [overflowing_participant] the difference C1 - C2 is Infinity. *)
Theorem mainTest_returns
    (pd : list (ProcessedRow ideal)) (Hne : pd <> [])
    (Hfin : forall r, In r pd -> (exists a, C1 r = IFin a) /\ (exists b, C2 r = IFin b)) :
  (exists m,
     mainTest pd = Some (value m)
     /\ (main_type m = "t"%string -> cohens pd = value (effectSize m))
     /\ (main_type m = "wilcoxon"%string ->
         exists w z, m = MainWilcoxon w (IFin (z / sqrt (INR (length pd))))
                     /\ w_z w = IFin z))
  /\ @mainTest float Float64 (@processedData float Float64 (Some overflowing_participant))
     = None.
Proof.
  split; [ | vm_compute; reflexivity ].
  destruct (map_fin_of pd C1) as [l1 [E1 L1]]; [ intros r Hr; apply (Hfin r Hr) | ].
  destruct (map_fin_of pd C2) as [l2 [E2 L2]]; [ intros r Hr; apply (Hfin r Hr) | ].
  destruct pd as [ | r0 pd' ]; [ contradiction | ].
  unfold mainTest, cohens. rewrite E1, E2.
  destruct (normal_enough (shapiro (r0 :: pd'))).
  - eexists. split; [ reflexivity | ]. split; [ reflexivity | discriminate ].
  - destruct (ideal_wilcoxon_returns l1 l2 ltac:(congruence)) as [w [Hw [_ [H0 H1]]]].
    rewrite Hw.
    assert (Hz : exists z, w_z w = IFin z).
    { destruct (length (Rnonzero l1 l2)) as [ | k ].
      - rewrite (H0 eq_refl). now exists 0%R.
      - destruct (H1 ltac:(lia)) as [wPlus [_ [Hz _]]]. eexists. exact Hz. }
    destruct Hz as [z Hz].
    assert (Hs : (0 < sqrt (INR (length (r0 :: pd'))))%R).
    { apply sqrt_lt_R0. apply lt_0_INR. cbn. lia. }
    eexists. split; [ reflexivity | ]. split; [ discriminate | ].
    intros _. exists w, z. split; [ | exact Hz ].
    f_equal. rewrite Hz, ideal_len. ideal_ops.
    rewrite ideal_sqrt_fin by (apply pos_INR). apply ideal_div_fin. lra.
Qed.

Definition finite_record (c1 c2 : R) : ProcessedRow ideal :=
  let entry v :=
    {| ce_value := IFin v;
       ce_normalized :=
         {| angry := IFin 0; disgusted := IFin 0; fearful := IFin 0; happy := IFin 0;
            neutral := IFin 0; sad := IFin 0; surprised := IFin 0 |};
       ce_scaleFactor := None; ce_totalSum := None |} in
  {| participant := "P1"; conds := [("C1"%string, entry c1); ("C2"%string, entry c2)];
     delta := IFin (c1 - c2) |}.

Lemma mainTest_returns_witness :
  [finite_record 10 5] <> []
  /\ exists m, mainTest [finite_record 10 5] = Some (value m).
Proof.
  assert (Hne : [finite_record 10 5] <> []) by discriminate.
  split; [ exact Hne | ].
  assert (Hfin : forall r, In r [finite_record 10 5] ->
                   (exists a, C1 r = IFin a) /\ (exists b, C2 r = IFin b)).
  { intros r [ <- | [] ]. split; eexists; reflexivity. }
  destruct (@mainTest_returns [finite_record 10 5] Hne Hfin) as [[m [Hm _]] _].
  exists m. exact Hm.
Defined.

(** ** Which test the main test runs *)

(** On real deltas the normality gate of the main test opens exactly when
    the deltas are not all equal and W exceeds 0.90. *)
Lemma normal_enough_iff (pd : list (ProcessedRow ideal)) (ds : list R) :
  pd <> [] -> map (@delta ideal) pd = fin ds ->
  normal_enough (shapiro pd) = true
  <-> (0 < Rsumsq (Rmean ds) ds /\ 90 / 100 < RW ds)%R.
Proof.
  intros Hne Hd.
  assert (Hds : ds <> []).
  { intros E. rewrite E in Hd. destruct pd; [ contradiction | discriminate ]. }
  destruct pd as [ | r0 pd' ]; [ contradiction | ].
  unfold shapiro, normal_enough. rewrite Hd.
  pose proof (ideal_shapiro Hds) as Hr. cbn zeta in Hr. rewrite Hr. cbn [sw_p].
  set (SS := Rsumsq (Rmean ds) ds).
  pose proof (Rsumsq_nonneg (Rmean ds) ds) as Hnn. fold SS in Hnn.
  destruct (Rle_lt_or_eq_dec _ _ Hnn) as [Hpos | Hz].
  - assert (Hs : (0 < sqrt SS)%R) by now apply sqrt_lt_R0.
    rewrite ideal_div_fin by lra. unfold sq. ideal_ops.
    change (RW ds) with (Rnumerator (Rsorted ds) / sqrt SS
                         * (Rnumerator (Rsorted ds) / sqrt SS))%R.
    set (w := (Rnumerator (Rsorted ds) / sqrt SS
               * (Rnumerator (Rsorted ds) / sqrt SS))%R).
    rewrite ideal_shapiro_p. ideal_lits. ideal_ops.
    unfold Rltb, Rshapiro_ladder.
    destruct (Rlt_dec 0.95 w); [ | destruct (Rlt_dec 0.90 w);
                                   [ | destruct (Rlt_dec 0.85 w) ] ];
      destruct (Rlt_dec _ _) as [Hl | Hl];
      (split; [ intros H; try discriminate; try (split; lra); try lra
              | intros [_ H]; try reflexivity; try lra ]).
  - assert (Hc : forall v, In v (Rsorted ds) -> v = Rmean ds).
    { intros v Hv. apply (Rsumsq_zero (Rmean ds) ds); [ fold SS; lra | ].
      apply (Permutation_in _ (Rsorted_perm ds)). exact Hv. }
    rewrite (Rnumerator_constant _ Hc). fold SS. rewrite <- Hz, sqrt_0.
    rewrite ideal_div_zero_zero by reflexivity.
    unfold sq. ideal_ops. rewrite ideal_shapiro_p_nan. ideal_lits. ideal_ops.
    unfold Rltb. destruct (Rlt_dec _ _) as [Hl | _]; [ lra | ].
    split; [ discriminate | intros [H _]; lra ].
Qed.

Lemma Rmean_all_equal (c : R) (l : list R) :
  l <> [] -> (forall v, In v l -> v = c) -> Rmean l = c.
Proof.
  intros Hne H. unfold Rmean. rewrite (@Rsum_all_equal c l H).
  assert (Hn : (0 < INR (length l))%R).
  { apply lt_0_INR. destruct l; [ contradiction | cbn; lia ]. }
  field. lra.
Qed.

(** A record with C1 = 0.1, C2 = 0 and delta = 0.1, on binary64. *)
Definition tenth_record (p : string) : ProcessedRow float :=
  let entry v :=
    {| ce_value := v;
       ce_normalized :=
         {| angry := float_ofZ 0; disgusted := float_ofZ 0; fearful := float_ofZ 0;
            happy := float_ofZ 0; neutral := float_ofZ 0; sad := float_ofZ 0;
            surprised := float_ofZ 0 |};
       ce_scaleFactor := None; ce_totalSum := None |} in
  {| participant := p;
     conds := [("C1"%string, entry (@lit float Float64 1 1));
               ("C2"%string, entry (float_ofZ 0))];
     delta := @lit float Float64 1 1 |}.

(** On exact real arithmetic, with at least one record, real aggregates
    and deltas ds, in ascending order s: the main test returns, and it is
    the paired t-test exactly when the deltas are not all equal and the
    Shapiro-Wilk W of the deltas, (weighted tail sum of s / sqrt SS)^2,
    exceeds 0.90.  When every participant has the same delta (a single
    participant included) it is the Wilcoxon test.  On binary64 three
    participants with the delta 0.1 get W = 0, and the main test is the
    Wilcoxon test there as well. *)
Theorem mainTest_t_iff_W_above_090
    (pd : list (ProcessedRow ideal)) (ds s : list R) (Hne : pd <> [])
    (Hfin : forall r, In r pd -> (exists a, C1 r = IFin a) /\ (exists b, C2 r = IFin b))
    (Hd : map (@delta ideal) pd = fin ds)
    (Hperm : Permutation s ds) (Hsorted : StronglySorted Rle s) :
  let SS := Rsumsq (Rmean ds) ds in
  let W := (Rnumerator s / sqrt SS * (Rnumerator s / sqrt SS))%R in
  (exists m,
     mainTest pd = Some (value m)
     /\ (main_type m = "t"%string <-> (0 < SS /\ 90 / 100 < W)%R)
     /\ ((forall d, In d ds -> d = hd 0%R ds) -> main_type m = "wilcoxon"%string))
  /\ (let fpd := [tenth_record "P1"; tenth_record "P2"; tenth_record "P3"] in
      sw_W (@shapiroWilkTest float Float64 (map (@delta float) fpd)) = @zero float Float64
      /\ exists m, @mainTest float Float64 fpd = Some (value m)
                   /\ main_type m = "wilcoxon"%string).
Proof.
  intros SS W. split.
  2:{ split; [ vm_compute; reflexivity | ].
      eexists. split; [ vm_compute; reflexivity | reflexivity ]. }
  assert (Hs : s = Rsorted ds).
  { apply sorted_perm_unique; [ exact Hsorted | apply Rsorted_sorted | ].
    rewrite Hperm. symmetry. apply Rsorted_perm. }
  assert (HW : W = RW ds) by (unfold W, RW, SS; now rewrite Hs).
  rewrite HW. unfold SS. clear W HW SS Hs Hperm Hsorted.
  pose proof (@normal_enough_iff pd ds Hne Hd) as Hgate.
  destruct (map_fin_of pd C1) as [l1 [E1 L1]]; [ intros r Hr; apply (Hfin r Hr) | ].
  destruct (map_fin_of pd C2) as [l2 [E2 L2]]; [ intros r Hr; apply (Hfin r Hr) | ].
  assert (Hds : ds <> []).
  { intros E. rewrite E in Hd. destruct pd; [ contradiction | discriminate ]. }
  assert (Hconst : (forall d, In d ds -> d = hd 0%R ds) ->
                   normal_enough (shapiro pd) = false).
  { intros Hc. destruct (normal_enough (shapiro pd)); [ | reflexivity ].
    destruct Hgate as [Hg _]. destruct (Hg eq_refl) as [Hpos _].
    rewrite (Rmean_all_equal Hds Hc) in Hpos.
    rewrite (Rsumsq_all_equal _ Hc) in Hpos. lra. }
  destruct pd as [ | r0 pd' ]; [ contradiction | ].
  unfold mainTest. rewrite E1, E2.
  destruct (normal_enough (shapiro (r0 :: pd'))) eqn:Hn.
  - eexists. split; [ reflexivity | ]. split.
    + split; [ intros _; now apply Hgate | reflexivity ].
    + intros Hc. specialize (Hconst Hc). discriminate.
  - destruct (ideal_wilcoxon_returns l1 l2 ltac:(congruence)) as [w [Hw _]].
    rewrite Hw. eexists. split; [ reflexivity | ]. split.
    + split; [ discriminate | ].
      intros H. apply Hgate in H. discriminate.
    + reflexivity.
Qed.

Lemma mainTest_t_iff_W_witness :
  exists m, mainTest [finite_record 10 5] = Some (value m)
            /\ main_type m = "wilcoxon"%string.
Proof.
  assert (Hne : [finite_record 10 5] <> []) by discriminate.
  assert (Hfin : forall r, In r [finite_record 10 5] ->
                   (exists a, C1 r = IFin a) /\ (exists b, C2 r = IFin b)).
  { intros r [ <- | [] ]. split; eexists; reflexivity. }
  assert (Hd : map (@delta ideal) [finite_record 10 5] = fin [(10 - 5)%R])
    by reflexivity.
  assert (Hp : Permutation [(10 - 5)%R] [(10 - 5)%R]) by reflexivity.
  assert (Hs : StronglySorted Rle [(10 - 5)%R]) by (repeat constructor).
  destruct (@mainTest_t_iff_W_above_090 [finite_record 10 5] [(10 - 5)%R] [(10 - 5)%R]
              Hne Hfin Hd Hp Hs)
    as [[m [Hm [_ Hw]]] _].
  exists m. split; [ exact Hm | ].
  apply Hw. intros d [ <- | [] ]. reflexivity.
Defined.

(** ** The CSV export: quoting of string cells *)

Section CsvExport.

Local Open Scope string_scope.

(** The double quote character, code 34. *)
Definition dquote : ascii := ascii_of_nat 34.

Definition is_dquote (c : ascii) : bool := Ascii.eqb c dquote.

(** The [replace] of the template: every double quote is written twice. *)
Fixpoint escape_quotes (s : string) : string :=
  match s with
  | EmptyString => EmptyString
  | String c rest =>
      if is_dquote c then String dquote (String dquote (escape_quotes rest))
      else String c (escape_quotes rest)
  end.

(** A value of a row: a string, or anything else with the text
    [Array.prototype.join] gives it. *)
Inductive CsvValue : Type :=
| CsvString (s : string)
| CsvOther (text : string).

(** The cell of [downloadCSV]: strings between double quotes with the
    quotes inside doubled, other values as they are. *)
Definition csv_cell (v : CsvValue) : string :=
  match v with
  | CsvString s => String dquote (escape_quotes s ++ String dquote EmptyString)
  | CsvOther text => text
  end.

Fixpoint join (sep : string) (parts : list string) : string :=
  match parts with
  | [] => EmptyString
  | [p] => p
  | p :: rest => p ++ sep ++ join sep rest
  end.

(** A missing key reads [undefined], which [join] writes as nothing. *)
Fixpoint csv_field (row : list (string * CsvValue)) (k : string) : CsvValue :=
  match row with
  | [] => CsvOther EmptyString
  | (k', v) :: rest => if String.eqb k k' then v else csv_field rest k
  end.

Definition newline : string := String (ascii_of_nat 10) EmptyString.

(** [downloadCSV], up to the text handed to the [Blob]: [None] when
    nothing is downloaded.  The header takes the keys of the first row,
    unquoted. *)
Definition downloadCSV (rows : list (list (string * CsvValue))) : option string :=
  match rows with
  | [] => None
  | row0 :: _ =>
      let keys := map fst row0 in
      Some (join newline
              (join "," keys
               :: map (fun r => join "," (map (fun k => csv_cell (csv_field r k)) keys))
                      rows))
  end.

Fixpoint count_dquotes (s : string) : nat :=
  match s with
  | EmptyString => 0
  | String c rest => (if is_dquote c then 1 else 0) + count_dquotes rest
  end.

End CsvExport.

Lemma is_dquote_dquote : is_dquote dquote = true.
Proof. reflexivity. Qed.

Lemma is_dquote_true (c : ascii) : is_dquote c = true -> c = dquote.
Proof. unfold is_dquote. apply Ascii.eqb_eq. Qed.

Lemma escape_quotes_injective (s1 s2 : string) :
  escape_quotes s1 = escape_quotes s2 -> s1 = s2.
Proof.
  revert s2. induction s1 as [ | c1 r1 IH ]; intros [ | c2 r2 ] H; cbn [escape_quotes] in H.
  - reflexivity.
  - destruct (is_dquote c2); discriminate.
  - destruct (is_dquote c1); discriminate.
  - destruct (is_dquote c1) eqn:E1, (is_dquote c2) eqn:E2.
    + injection H as H. apply is_dquote_true in E1, E2. subst.
      f_equal. now apply IH.
    + injection H as Hc H. subst c2. rewrite is_dquote_dquote in E2. discriminate.
    + injection H as Hc H. subst c1. rewrite is_dquote_dquote in E1. discriminate.
    + injection H as Hc H. subst. f_equal. now apply IH.
Qed.

Lemma append_inv_tail (s1 s2 t : string) :
  (s1 ++ t)%string = (s2 ++ t)%string -> s1 = s2.
Proof.
  intros H.
  assert (Hl : forall a b, list_ascii_of_string (a ++ b)%string
                           = list_ascii_of_string a ++ list_ascii_of_string b).
  { induction a as [ | c a IHa ]; intros b; cbn; [ reflexivity | now rewrite IHa ]. }
  apply (f_equal list_ascii_of_string) in H. rewrite !Hl in H.
  apply app_inv_tail in H.
  rewrite <- (string_of_list_ascii_of_string s1), <- (string_of_list_ascii_of_string s2).
  now rewrite H.
Qed.

Lemma count_dquotes_app (s t : string) :
  count_dquotes (s ++ t)%string = count_dquotes s + count_dquotes t.
Proof. induction s as [ | c s IH ]; cbn; [ reflexivity | rewrite IH; lia ]. Qed.

Lemma count_dquotes_escape (s : string) :
  count_dquotes (escape_quotes s) = 2 * count_dquotes s.
Proof.
  induction s as [ | c s IH ]; [ reflexivity | ].
  cbn [escape_quotes count_dquotes]. destruct (is_dquote c) eqn:E.
  - cbn [count_dquotes]. rewrite is_dquote_dquote, IH. lia.
  - cbn [count_dquotes]. rewrite E, IH. lia.
Qed.

(** Quoting loses nothing: two strings with the same exported cell are the
    same string; and an exported string cell holds an even number of double
    quotes, two more than twice those of the string, so a reader that
    toggles on each quote is outside the quotes when the cell ends. *)
Theorem csv_cell_quoting (s1 s2 : string)
    (H : csv_cell (CsvString s1) = csv_cell (CsvString s2)) :
  s1 = s2
  /\ count_dquotes (csv_cell (CsvString s1)) = 2 * count_dquotes s1 + 2.
Proof.
  split.
  - cbn [csv_cell] in H. injection H as H.
    apply append_inv_tail in H. now apply escape_quotes_injective.
  - cbn [csv_cell count_dquotes]. rewrite is_dquote_dquote.
    rewrite count_dquotes_app, count_dquotes_escape. cbn. lia.
Qed.

Lemma csv_cell_quoting_witness :
  count_dquotes (csv_cell (CsvString (String dquote "a,b"%string))) = 4.
Proof.
  destruct (@csv_cell_quoting (String dquote "a,b"%string) (String dquote "a,b"%string)
              eq_refl) as [_ H].
  exact H.
Defined.

(** The export has the columns of the first row and no others: two tables
    with the same first row whose later rows agree on the keys of that
    row give the same text, whatever else the later rows hold. *)
Theorem downloadCSV_columns_of_first_row
    (row0 : list (string * CsvValue)) (rest rest' : list (list (string * CsvValue)))
    (H : Forall2 (fun r r' => forall k, In k (map fst row0) -> csv_field r k = csv_field r' k)
                 rest rest') :
  downloadCSV (row0 :: rest) = downloadCSV (row0 :: rest').
Proof.
  unfold downloadCSV. do 3 f_equal. cbn [map]. f_equal.
  induction H as [ | r r' l l' Hr _ IH ]; [ reflexivity | ].
  cbn [map]. f_equal; [ | exact IH ].
  f_equal. apply map_ext_in. intros k Hk. now rewrite (Hr k Hk).
Qed.

Lemma downloadCSV_columns_witness :
  downloadCSV [[("a"%string, CsvString "h")];
               [("a"%string, CsvString "x"); ("b"%string, CsvString "extra")]]
  = downloadCSV [[("a"%string, CsvString "h")]; [("a"%string, CsvString "x")]].
Proof.
  refine (@downloadCSV_columns_of_first_row
            [("a"%string, CsvString "h")]
            [[("a"%string, CsvString "x"); ("b"%string, CsvString "extra")]]
            [[("a"%string, CsvString "x")]] _).
  constructor; [ | constructor ].
  intros k [ <- | [] ]. reflexivity.
Defined.

(** The agreement of the two aggregators at one row with a normalised
    "angry" column. *)
Lemma aggregators_agree_witness :
  ce_value (@aggregate float Float64
              [{| row_participant := "P1"; row_condition := "C1";
                  row_cells := [("angry"%string, float_ofZ 30)] |}])
  = ce_value (@aggregate_earlier float Float64
              [{| row_participant := "P1"; row_condition := "C1";
                  row_cells := [("angry"%string, float_ofZ 30)] |}]).
Proof.
  destruct (@aggregators_agree_on_normalised_columns float Float64
              [{| row_participant := "P1"; row_condition := "C1";
                  row_cells := [("angry"%string, float_ofZ 30)] |}]) as [H _].
  exact (proj1 (H eq_refl)).
Defined.
